(** * A shallow embedding of the jade template compiler

    The development follows the Go sources:
    - [parser/parser.go]: the recursive-descent parser, template
      inheritance ([extends]) and the named-block merge of [Parse];
    - [compiler.go]: the code generator, the tag renderer and the
      expression transpiler ([visitExpression]).

    Go strings are byte strings and are modelled by [string]; Go [int]
    is a 64-bit two's-complement integer, modelled by [Z] with the
    wrap-around of [wrap_int]; Go maps are [gmap]s; pointers to named
    blocks, which the merge step mutates through an alias, live in an
    explicit store ([Heap]).  Panics are explicit results, and every
    recursion that Go runs on its call stack takes a fuel argument. *)

From stdpp Require Import gmap strings list fin_maps sorting.
From Stdlib Require Import String Ascii ZArith DecimalString DecimalZ DecimalPos Lia.

Set Warnings "-register-all".

Open Scope string_scope.
Open Scope Z_scope.

(** ** Go primitives *)

Module Go.

(** Characters that cannot be written inside a string literal. *)
Definition dq : string := String "034"%char EmptyString.
Definition tab : string := String "009"%char EmptyString.
Definition nl : string := String "010"%char EmptyString.
Definition nl_char : ascii := "010"%char.
Definition sq_char : ascii := "039"%char.
Definition dq_char : ascii := "034"%char.

(** [len(s)] *)
Definition len (s : string) : Z := Z.of_nat (String.length s).

(** Two's-complement wrap-around of the 64-bit [int]. *)
Definition wrap_int (z : Z) : Z := (z + 2 ^ 63) mod 2 ^ 64 - 2 ^ 63.

(** [strconv.Itoa] *)
Definition Itoa (z : Z) : string := NilZero.string_of_int (Z.to_int z).

(** [strings.HasPrefix(s, p)], also the test [s[:len(p)] == p] once
    [len(s) >= len(p)] is known. *)
Definition HasPrefix (s p : string) : bool := String.prefix p s.

(** Drop the first [n] bytes: [s[n:]]. *)
Fixpoint str_drop (n : nat) (s : string) : string :=
  match n, s with
  | O, _ => s
  | S n', String _ s' => str_drop n' s'
  | S _, EmptyString => EmptyString
  end.

(** [strings.Index(s, sub)]: byte offset of the first occurrence of
    [sub] in [s], or [-1]. *)
Fixpoint Index (s sub : string) : Z :=
  if String.prefix sub s then 0
  else match s with
       | EmptyString => -1
       | String _ s' =>
           let i := Index s' sub in
           if i <? 0 then -1 else i + 1
       end.

(** [strings.Replace(s, old, new, -1)] for a non-empty [old]:
    non-overlapping occurrences are replaced from left to right.
    [skip] counts the bytes of a matched occurrence still to drop. *)
Fixpoint replace_from (skip : nat) (old new s : string) : string :=
  match s with
  | EmptyString => EmptyString
  | String a s' =>
      match skip with
      | S k => replace_from k old new s'
      | O =>
          if String.prefix old s
          then new ++ replace_from (Nat.pred (String.length old)) old new s'
          else String a (replace_from O old new s')
      end
  end.

Definition Replace (s old new : string) : string := replace_from O old new s.

(** [strings.Split(s, sep)] for the single-byte separator used by
    the compiler. *)
Fixpoint Split (s : string) (sep : ascii) : list string :=
  match s with
  | EmptyString => [EmptyString]
  | String a s' =>
      if Ascii.eqb a sep then EmptyString :: Split s' sep
      else match Split s' sep with
           | l :: ls => String a l :: ls
           | [] => [String a EmptyString]
           end
  end.

(** Last byte of a string, if any. *)
Fixpoint last_byte (s : string) : option ascii :=
  match s with
  | EmptyString => None
  | String a EmptyString => Some a
  | String _ s' => last_byte s'
  end.

(** [b[len(b)-1] = q] on a non-empty byte string. *)
Fixpoint set_last (q : ascii) (s : string) : string :=
  match s with
  | EmptyString => EmptyString
  | String _ EmptyString => String q EmptyString
  | String a s' => String a (set_last q s')
  end.

(** What a [panic] carries: a string, or a run-time error (index out
    of range, nil dereference, failed type assertion) whose text is
    what [%v] prints. *)
Inductive panicval :=
| PanicStr (s : string)
| PanicRuntime (s : string).

Definition panic_text (p : panicval) : string :=
  match p with PanicStr s => s | PanicRuntime s => s end.

(** Result of running Go code on a state [S]: a normal return, a
    panic unwinding the stack (the state keeps the writes made so
    far), or exhaustion of the fuel that stands for the call stack. *)
Inductive Res (S A : Type) :=
| Ok (a : A) (s : S)
| Panic (p : panicval) (s : S)
| OutOfFuel.
Arguments Ok {S A} a s.
Arguments Panic {S A} p s.
Arguments OutOfFuel {S A}.

Definition M (S A : Type) := S -> Res S A.

Definition ret {S A} (a : A) : M S A := fun s => Ok a s.

Definition bind {S A B} (m : M S A) (k : A -> M S B) : M S B :=
  fun s => match m s with
           | Ok a s' => k a s'
           | Panic p s' => Panic p s'
           | OutOfFuel => OutOfFuel
           end.

Definition panic {S A} (p : panicval) : M S A := fun s => Panic p s.
Definition out_of_fuel {S A} : M S A := fun _ => OutOfFuel.
Definition get {S} : M S S := fun s => Ok s s.
Definition gets {S A} (f : S -> A) : M S A := fun s => Ok (f s) s.
Definition modify {S} (f : S -> S) : M S unit := fun s => Ok tt (f s).

(** [defer func() { if r := recover(); r != nil { h r } }()] around
    [m]: a panic of [m] is handed to [h], which runs on the state the
    panic left. *)
Definition recovering {S A} (m : M S A) (h : panicval -> M S A) : M S A :=
  fun s => match m s with
           | Panic p s' => h p s'
           | r => r
           end.

(** Run on the first component of a paired state. *)
Definition lift_fst {S T A} (m : M S A) : M (S * T) A :=
  fun s => match m (fst s) with
           | Ok a c' => Ok a (c', snd s)
           | Panic p c' => Panic p (c', snd s)
           | OutOfFuel => OutOfFuel
           end.

(** Run [f] on every element, left to right. *)
Fixpoint forM_ {S A} (l : list A) (f : A -> M S unit) : M S unit :=
  match l with
  | [] => ret tt
  | x :: l' => bind (f x) (fun _ => forM_ l' f)
  end.

(** Thread an accumulator through [f], left to right. *)
Fixpoint foldM {S A B} (f : B -> A -> M S B) (l : list A) (b : B) : M S B :=
  match l with
  | [] => ret b
  | x :: l' => bind (f b x) (foldM f l')
  end.

End Go.
Export Go.

Notation "x <- m ;; k" := (bind m (fun x => k))
  (at level 100, m at next level, right associativity).
Notation "m ;;; k" := (bind m (fun _ => k))
  (at level 100, right associativity).

(** ** The syntax tree ([parser/nodes.go])

    The fields are the ones that [parser.go] and [compiler.go] read
    and write.  A [NamedBlock] is the only node that is reached through
    two pointers (the parser's table and the tree, via
    [&block.Block]) and mutated afterwards, so named blocks live in a
    store and the tree holds their address. *)

Record SourcePosition := mkPos {
  LineNum : Z;
  ColNum : Z;
  TokenLength : Z;
  Filename : string
}.

Definition noPos : SourcePosition := mkPos 0 0 0 EmptyString.

Record Attribute := mkAttribute {
  attr_Pos : SourcePosition;
  attr_Name : string;
  attr_Value : string;
  attr_IsRaw : bool;
  attr_Condition : string
}.

Definition loc := positive.

Inductive Node :=
| NBlock (b : Block)
| NNamedBlock (l : loc)
| NDoctype (pos : SourcePosition) (value : string)
| NComment (pos : SourcePosition) (value : string) (silent : bool)
    (block : option Block)
| NTag (t : Tag)
| NText (pos : SourcePosition) (value : string) (raw : bool)
| NCondition (pos : SourcePosition) (expression : string)
    (positive negative : option Block)
| NEach (pos : SourcePosition) (expression X Y : string)
    (block : option Block)
| NBuffered (pos : SourcePosition) (expression : string) (escaped : bool)
| NAssignment (pos : SourcePosition) (X expression : string)
| NMixin (m : Mixin)
| NMixinCall (pos : SourcePosition) (name : string) (args : list string)
with Block :=
| mkBlock (pos : SourcePosition) (children : list Node)
with Tag :=
| mkTag (pos : SourcePosition) (name : string) (attrs : list Attribute)
    (block : option Block)
with Mixin :=
| mkMixin (pos : SourcePosition) (name : string) (args : list string)
    (block : option Block).

Definition block_Pos (b : Block) : SourcePosition :=
  match b with mkBlock p _ => p end.
Definition Children (b : Block) : list Node :=
  match b with mkBlock _ c => c end.
Definition tag_Pos (t : Tag) := match t with mkTag p _ _ _ => p end.
Definition tag_Name (t : Tag) := match t with mkTag _ n _ _ => n end.
Definition tag_Attributes (t : Tag) := match t with mkTag _ _ a _ => a end.
Definition tag_Block (t : Tag) := match t with mkTag _ _ _ b => b end.
Definition mixin_Pos (m : Mixin) := match m with mkMixin p _ _ _ => p end.
Definition mixin_Name (m : Mixin) := match m with mkMixin _ n _ _ => n end.
Definition mixin_Args (m : Mixin) := match m with mkMixin _ _ a _ => a end.
Definition mixin_Block (m : Mixin) := match m with mkMixin _ _ _ b => b end.

(** [newBlock()] *)
Definition newBlock : Block := mkBlock noPos [].

(** Modelled from the spec: [Block.push] and [Block.pushFront] of
    nodes.go are missing; a Block is an ordered sequence of nodes in
    render order, [push] adds a node at the end and [pushFront] at the
    front. *)
Definition push (b : Block) (n : Node) : Block :=
  mkBlock (block_Pos b) (Children b ++ [n]).
Definition pushFront (b : Block) (n : Node) : Block :=
  mkBlock (block_Pos b) (n :: Children b).

Inductive NamedBlockModifier :=
| NamedBlockDefault
| NamedBlockAppend
| NamedBlockPrepend.

Record NamedBlock := mkNamedBlock {
  nb_Block : Block;
  nb_Name : string;
  nb_Modifier : NamedBlockModifier
}.

(** The store of named blocks. *)
Abbreviation Heap := (gmap loc NamedBlock).

(** ** Expressions ([go/ast], [go/token])

    [go/parser.ParseExpr] produces the tree that [visitExpression]
    walks; node kinds the walker has no case for are kept as
    [OtherExpr] with the type name that [reflect.TypeOf] prints. *)

Inductive Token :=
| ADD | SUB | MUL | QUO | REM
| AND | OR | XOR | SHL | SHR | AND_NOT
| LAND | LOR | ARROW
| EQL | LSS | GTR | NOT
| NEQ | LEQ | GEQ.

Definition Token_String (t : Token) : string :=
  match t with
  | ADD => "+" | SUB => "-" | MUL => "*" | QUO => "/" | REM => "%"
  | AND => "&" | OR => "|" | XOR => "^" | SHL => "<<" | SHR => ">>"
  | AND_NOT => "&^"
  | LAND => "&&" | LOR => "||" | ARROW => "<-"
  | EQL => "==" | LSS => "<" | GTR => ">" | NOT => "!"
  | NEQ => "!=" | LEQ => "<=" | GEQ => ">="
  end.

Inductive Expr :=
| BinaryExpr (X : Expr) (Op : Token) (Y : Expr)
| UnaryExpr (Op : Token) (X : Expr)
| ParenExpr (X : Expr)
| BasicLit (Value : string)
| Ident (Name : string)
| SelectorExpr (X : Expr) (Sel : string)
| CallExpr (Fun : Expr) (Args : list Expr)
| OtherExpr (typ : string).

(** ** The compiler ([compiler.go]) *)

Definition builtinFunctions : list string :=
  ["len"; "print"; "printf"; "println"; "urlquery"; "js"; "json"; "index";
   "html"; "unescaped"].

(** [Options]: of the custom function map [Funcs] only the set of
    registered names is ever consulted. *)
Record Options := mkOptions {
  PrettyPrint : bool;
  LineNumbers : bool;
  Funcs : gset string
}.

Record Compiler := mkCompiler {
  options : Options;
  c_filename : string;
  node : option Node;
  indentLevel : Z;
  newline : bool;
  buffer : string;
  tempvarIndex : Z;
  mixins : gmap string Mixin
}.

Definition set_buffer (b : string) (c : Compiler) : Compiler :=
  mkCompiler (options c) (c_filename c) (node c) (indentLevel c) (newline c)
    b (tempvarIndex c) (mixins c).
Definition set_tempvarIndex (i : Z) (c : Compiler) : Compiler :=
  mkCompiler (options c) (c_filename c) (node c) (indentLevel c) (newline c)
    (buffer c) i (mixins c).
Definition set_indentLevel (i : Z) (c : Compiler) : Compiler :=
  mkCompiler (options c) (c_filename c) (node c) i (newline c)
    (buffer c) (tempvarIndex c) (mixins c).
Definition set_mixins (m : gmap string Mixin) (c : Compiler) : Compiler :=
  mkCompiler (options c) (c_filename c) (node c) (indentLevel c) (newline c)
    (buffer c) (tempvarIndex c) m.
Definition set_node (n : option Node) (c : Compiler) : Compiler :=
  mkCompiler (options c) (c_filename c) n (indentLevel c) (newline c)
    (buffer c) (tempvarIndex c) (mixins c).

(** [New()], with [DefaultOptions]. *)
Definition DefaultOptions : Options := mkOptions true false empty.
Definition New : Compiler :=
  mkCompiler DefaultOptions EmptyString None 0 false EmptyString 0 empty.

Definition nil_deref : panicval :=
  PanicRuntime "runtime error: invalid memory address or nil pointer dereference".

(** *** Matching the two regular expressions of [visitText]

    Both [textEscapeRegexp] ([\{\{(.*?)\}\}]) and
    [textInterpolateRegexp] ([#\{(.*?)\}]) are an opening delimiter, a
    lazy run of bytes other than newline, and a closing delimiter. *)

(** The shortest run up to [close], and what follows [close]; [None]
    when a newline or the end of input comes first. *)
Fixpoint scan_close (close s : string) : option (string * string) :=
  if String.prefix close s
  then Some (EmptyString, str_drop (String.length close) s)
  else match s with
       | EmptyString => None
       | String a s' =>
           if Ascii.eqb a nl_char then None
           else match scan_close close s' with
                | Some (c, r) => Some (String a c, r)
                | None => None
                end
       end.

(** Leftmost non-overlapping matches: [inl] is a byte outside any
    match, [inr] the captured group of a match. *)
Fixpoint find_matches (skip : nat) (open close s : string)
  : list (ascii + string) :=
  match s with
  | EmptyString => []
  | String a s' =>
      match skip with
      | S k => find_matches k open close s'
      | O =>
          match (if String.prefix open s
                 then scan_close close (str_drop (String.length open) s)
                 else None) with
          | Some (group, _) =>
              inr group ::
                find_matches
                  (Nat.pred (String.length open + String.length group
                             + String.length close))
                  open close s'
          | None => inl a :: find_matches O open close s'
          end
      end
  end.

Section Compile.

(** What nodes.go, runtime.go and the Go library decide is kept
    abstract. *)
Variable CanInline : Block -> bool.
Variable IsSelfClosing : Tag -> bool.
Variable Doctype_String : string -> string.
(** The names registered in the runtime [FuncMap]. *)
Variable FuncMap : gset string.
(** [go/parser.ParseExpr]; [None] is a parse error. *)
Variable ParseExpr : string -> option Expr.

Definition write (value : string) : M Compiler unit :=
  modify (fun c => set_buffer (buffer c ++ value) c).

Definition indent (offset : Z) (newline : bool) : M Compiler unit :=
  c <- get ;;
  if negb (PrettyPrint (options c)) then ret tt
  else
    (if newline && (0 <? len (buffer c)) then write nl else ret tt) ;;;
    c <- get ;;
    forM_ (replicate (Z.to_nat (wrap_int (indentLevel c + offset))) tt)
      (fun _ => write tab).

Definition tempvar : M Compiler string :=
  modify (fun c => set_tempvarIndex (wrap_int (tempvarIndex c + 1)) c) ;;;
  c <- get ;;
  ret ("$__jade_" ++ Itoa (tempvarIndex c)).

Definition escape (input : string) : string :=
  Replace (Replace input "\" "\\") dq ("\" ++ dq).

Definition hasFunctionWithName (c : Compiler) (name : string) : bool :=
  if bool_decide (name ∈ Funcs (options c)) then true
  else if bool_decide (name ∈ FuncMap) then true
  else false.

(** *** [visitExpression] *)

(** The compiler together with the operand stack of one
    [visitExpression] call ([stack := list.New()]). *)
Definition XS : Type := Compiler * list string.

Definition liftC {A} (m : M Compiler A) : M XS A := lift_fst m.

Definition pop : M XS string :=
  fun s => match snd s with
           | [] => Ok EmptyString s
           | v :: stk => Ok v (fst s, stk)
           end.

Definition PushFront (v : string) : M XS unit :=
  fun s => Ok tt (fst s, v :: snd s).

Definition is_builtin (name : string) : bool :=
  existsb (String.eqb name) builtinFunctions.

(** The second [switch be.Op]: the primitive written for the operator
    and whether the result is to be negated. *)
Definition binary_primitive (op : Token) : M XS bool :=
  match op with
  | ADD => liftC (write "__jade_add ") ;;; ret false
  | SUB => liftC (write "__jade_sub ") ;;; ret false
  | MUL => liftC (write "__jade_mul ") ;;; ret false
  | QUO => liftC (write "__jade_quo ") ;;; ret false
  | REM => liftC (write "__jade_rem ") ;;; ret false
  | LAND => liftC (write "and ") ;;; ret false
  | LOR => liftC (write "or ") ;;; ret false
  | EQL => liftC (write "__jade_eql ") ;;; ret false
  | NEQ => liftC (write "__jade_eql ") ;;; ret true
  | LSS => liftC (write "__jade_lss ") ;;; ret false
  | GTR => liftC (write "__jade_gtr ") ;;; ret false
  | LEQ => liftC (write "__jade_gtr ") ;;; ret true
  | GEQ => liftC (write "__jade_lss ") ;;; ret true
  | _ => panic (PanicStr ("Unexpected operator: '" ++ Token_String op ++ "'"))
  end.

Definition unary_primitive (op : Token) : M XS unit :=
  match op with
  | SUB => liftC (write "__jade_minus ")
  | ADD => liftC (write "__jade_plus ")
  | NOT => liftC (write "not ")
  | _ => panic (PanicStr ("Unexpected operator: '" ++ Token_String op ++ "'"))
  end.

(** The case [*ast.Ident]. *)
Definition exec_Ident (name : string) : M XS unit :=
  if (len "__DOLLAR__" <=? len name) && HasPrefix name "__DOLLAR__" then
    if String.eqb name "__DOLLAR__" then PushFront "."
    else PushFront ("$" ++ str_drop (String.length "__DOLLAR__") name)
  else
    if String.eqb name "nil" then PushFront name
    else
      s <- get ;;
      if hasFunctionWithName (fst s) name then PushFront name
      else PushFront ("." ++ name).

Fixpoint exec (expr : Expr) : M XS unit :=
  match expr with
  | BinaryExpr X Op Y =>
      exec Y ;;;
      exec X ;;;
      name <- liftC tempvar ;;
      match Op with
      | OR =>
          a <- pop ;;
          b <- pop ;;
          liftC (write ("{{" ++ name ++ " := " ++ a ++ " | " ++ b ++ "}}")) ;;;
          PushFront name
      | _ =>
          liftC (write ("{{" ++ name ++ " := ")) ;;;
          negate <- binary_primitive Op ;;
          a <- pop ;;
          b <- pop ;;
          liftC (write (a ++ " " ++ b ++ "}}")) ;;;
          if negb negate then PushFront name
          else
            negname <- liftC tempvar ;;
            liftC (write ("{{" ++ negname ++ " := not " ++ name ++ "}}")) ;;;
            PushFront negname
      end
  | UnaryExpr Op X =>
      exec X ;;;
      name <- liftC tempvar ;;
      liftC (write ("{{" ++ name ++ " := ")) ;;;
      unary_primitive Op ;;;
      a <- pop ;;
      liftC (write (a ++ "}}")) ;;;
      PushFront name
  | ParenExpr X => exec X
  | BasicLit Value => PushFront Value
  | Ident Name => exec_Ident Name
  | SelectorExpr X Sel =>
      exec X ;;;
      x <- pop ;;
      let x := if String.eqb x "." then EmptyString else x in
      name <- liftC tempvar ;;
      liftC (write ("{{" ++ name ++ " := " ++ x ++ "." ++ Sel ++ "}}")) ;;;
      PushFront name
  | CallExpr Fun Args =>
      (fix exec_args (l : list Expr) : M XS unit :=
         match l with
         | [] => ret tt
         | a :: l' => exec_args l' ;;; exec a
         end) Args ;;;
      name <- liftC tempvar ;;
      match Fun with
      | Ident fname =>
          if is_builtin fname then
            PushFront fname ;;;
            f <- pop ;;
            liftC (write ("{{" ++ name ++ " := " ++ f))
          else
            exec Fun ;;;
            f <- pop ;;
            liftC (write ("{{" ++ name ++ " := " ++ f))
      | SelectorExpr X Sel =>
          exec X ;;;
          x <- pop ;;
          let x := if String.eqb x "." then EmptyString else x in
          liftC (write ("{{" ++ name ++ " := " ++ x ++ "." ++ Sel ++ " "))
      | _ =>
          exec Fun ;;;
          f <- pop ;;
          liftC (write ("{{" ++ name ++ " := " ++ f))
      end ;;;
      forM_ Args (fun _ => liftC (write " ") ;;; a <- pop ;; liftC (write a)) ;;;
      liftC (write "}}") ;;;
      PushFront name
  | OtherExpr typ =>
      panic (PanicStr ("Unable to parse expression. Unsupported: " ++ typ))
  end.

Definition visitExpression (outerexpr : Expr) : M Compiler string :=
  fun c => match (exec outerexpr ;;; pop) (c, []) with
           | Ok v s => Ok v (fst s)
           | Panic p s => Panic p (fst s)
           | OutOfFuel => OutOfFuel
           end.

(** *** Interpolation *)

Definition index_out_of_range (i n : Z) : panicval :=
  PanicRuntime ("runtime error: index out of range [" ++ Itoa i
                ++ "] with length " ++ Itoa n).

(** The retry of [visitRawInterpolation] on a parse error ("dumb hack
    to parse single-quoted strings"): [bValue[0]] and
    [bValue[valueLen - 1]] are read first, which is out of range for
    the empty string. *)
Definition single_quoted_retry (value : string) : M Compiler (option Expr) :=
  match value with
  | EmptyString => panic (index_out_of_range 0 0)
  | String first rest =>
      if Ascii.eqb first sq_char
         && bool_decide (last_byte value = Some sq_char)
      then ret (ParseExpr (set_last dq_char (String dq_char rest)))
      else ret None
  end.

Definition visitRawInterpolation (value : string) : M Compiler string :=
  let value := Replace value "$" "__DOLLAR__" in
  expr <- match ParseExpr value with
          | Some e => ret (Some e)
          | None => single_quoted_retry value
          end ;;
  match expr with
  | None => panic (PanicStr ("Unable to parse expression: " ++ value))
  | Some e =>
      v <- visitExpression e ;;
      ret (Replace v "__DOLLAR__" "$")
  end.

Definition visitInterpolation (value : string) : M Compiler string :=
  v <- visitRawInterpolation value ;;
  ret ("{{" ++ v ++ "}}").

Definition visitJSInterpolation (value : string) : M Compiler string :=
  v <- visitRawInterpolation value ;;
  ret ("{{ safeJS " ++ v ++ "}}").

(** *** Tags *)

(** The local [type attrib struct] of [visitTag]. *)
Record attrib := mkAttrib {
  a_name : string;
  a_value : string;
  a_condition : string
}.

(** Lines 438-453: the value of one attribute. *)
Definition attribute_value (item : Attribute) : M Compiler string :=
  if negb (attr_IsRaw item) then
    if Index (attr_Name item) "on" =? 0
    then visitJSInterpolation (attr_Value item)
    else visitInterpolation (attr_Value item)
  else if String.eqb (attr_Value item) EmptyString then ret EmptyString
  else if attr_IsRaw item then ret (attr_Value item)
  else ret ("{{" ++ dq ++ attr_Value item ++ dq ++ "}}").

(** Lines 455-457: the guard of one attribute. *)
Definition attribute_condition (item : Attribute) : M Compiler string :=
  if negb (len (attr_Condition item) =? 0)
  then visitRawInterpolation (attr_Condition item)
  else ret EmptyString.

Definition wrap_if (condition value : string) : string :=
  "{{if " ++ condition ++ "}}" ++ value ++ "{{end}}".

(** Lines 459-476: enter [attr] into the table; a further [class]
    is appended to the entry already there. *)
Definition collect_attrib (attribs : gmap string attrib) (attr : attrib)
  : gmap string attrib :=
  match (if String.eqb (a_name attr) "class" then attribs !! "class"
         else None) with
  | Some prevclass =>
      let value := " " ++ a_value attr in
      let value :=
        if 0 <? len (a_condition attr)
        then wrap_if (a_condition attr) value else value in
      let prevvalue :=
        if 0 <? len (a_condition prevclass)
        then wrap_if (a_condition prevclass) (a_value prevclass)
        else a_value prevclass in
      let prevcondition :=
        if 0 <? len (a_condition prevclass)
        then EmptyString else a_condition prevclass in
      <["class" := mkAttrib (a_name prevclass) (prevvalue ++ value)
                     prevcondition]> attribs
  | None => <[a_name attr := attr]> attribs
  end.

(** One iteration of [for _, item := range tag.Attributes]. *)
Definition visitTag_attribute (attribs : gmap string attrib)
  (item : Attribute) : M Compiler (gmap string attrib) :=
  value <- attribute_value item ;;
  condition <- attribute_condition item ;;
  ret (collect_attrib attribs (mkAttrib (attr_Name item) value condition)).

(** [sort.Strings]: ascending byte-wise order. *)
Definition sort_Strings (l : list string) : list string :=
  merge_sort String.le l.

(** The keys of the table, sorted. *)
Definition attrNames (attribs : gmap string attrib) : list string :=
  sort_Strings (map fst (map_to_list attribs)).

(** Lines 492-504: what is written for one entry of the table. *)
Definition attribute_text (name : string) (value : attrib) : string :=
  (if 0 <? len (a_condition value)
   then "{{if " ++ a_condition value ++ "}}" else EmptyString)
  ++ (if String.eqb (a_value value) EmptyString
      then " " ++ name
      else " " ++ name ++ "=" ++ dq ++ a_value value ++ dq)
  ++ (if 0 <? len (a_condition value) then "{{end}}" else EmptyString).

Definition write_attribute (attribs : gmap string attrib) (name : string)
  : M Compiler unit :=
  match attribs !! name with
  | None => panic nil_deref
  | Some value =>
      (if 0 <? len (a_condition value)
       then write ("{{if " ++ a_condition value ++ "}}") else ret tt) ;;;
      (if String.eqb (a_value value) EmptyString
       then write (" " ++ name)
       else write (" " ++ name ++ "=" ++ dq ++ a_value value ++ dq)) ;;;
      (if 0 <? len (a_condition value) then write "{{end}}" else ret tt)
  end.

(** *** Text *)

Definition escape_braces (value : string) : string :=
  fold_right
    (fun seg acc =>
       match seg with
       | inl a => String a acc
       | inr group =>
           ("{{" ++ dq ++ "{{" ++ dq ++ "}}") ++ group
           ++ ("{{" ++ dq ++ "}}" ++ dq ++ "}}") ++ acc
       end)
    EmptyString (find_matches O "{{" "}}" value).

Definition interpolate (value : string) : M Compiler string :=
  foldM
    (fun acc seg =>
       match seg with
       | inl a => ret (acc ++ String a EmptyString)
       | inr group => v <- visitInterpolation group ;; ret (acc ++ v)
       end)
    (find_matches O "#{" "}" value) EmptyString.

Fixpoint write_lines (lines : list string) : M Compiler unit :=
  match lines with
  | [] => ret tt
  | [line] => write line
  | line :: rest =>
      write line ;;; write nl ;;; indent 0 false ;;; write_lines rest
  end.

Definition visitText (value : string) : M Compiler unit :=
  value <- interpolate (escape_braces value) ;;
  write_lines (Split value nl_char).

(** *** The visitors, over the recursive call to [visit] *)

Section Visitors.

Variable h : Heap.
Variable visit : Node -> M Compiler unit.

Definition is_Text (n : Node) : bool :=
  match n with NText _ _ _ => true | _ => false end.

(** [block] is a [*parser.Block]: ranging over the children of [nil]
    is a nil dereference. *)
Definition visitBlock (block : option Block) : M Compiler unit :=
  match block with
  | None => panic nil_deref
  | Some b =>
      forM_ (Children b)
        (fun node =>
           (if negb (CanInline b) && is_Text node
            then indent 0 true else ret tt) ;;;
           visit node)
  end.

Definition visitDoctype (value : string) : M Compiler unit :=
  write (Doctype_String value).

Definition visitComment (value : string) (silent : bool)
  (block : option Block) : M Compiler unit :=
  if silent then ret tt
  else
    indent 0 false ;;;
    match block with
    | None =>
        write ("{{unescaped " ++ dq ++ "<!-- " ++ escape value ++ " -->"
               ++ dq ++ "}}")
    | Some b =>
        write ("<!-- " ++ value) ;;;
        visitBlock (Some b) ;;;
        write " -->"
    end.

Definition visitCondition (expression : string)
  (positive negative : option Block) : M Compiler unit :=
  e <- visitRawInterpolation expression ;;
  write ("{{if " ++ e ++ "}}") ;;;
  visitBlock positive ;;;
  match negative with
  | Some b => write "{{else}}" ;;; visitBlock (Some b)
  | None => ret tt
  end ;;;
  write "{{end}}".

Definition visitEach (expression X Y : string) (block : option Block)
  : M Compiler unit :=
  match block with
  | None => ret tt
  | Some b =>
      e <- visitRawInterpolation expression ;;
      (if len Y =? 0
       then write ("{{range " ++ X ++ " := " ++ e ++ "}}")
       else write ("{{range " ++ X ++ ", " ++ Y ++ " := " ++ e ++ "}}")) ;;;
      visitBlock (Some b) ;;;
      write "{{end}}"
  end.

Definition visitBuffered (expression : string) (escaped : bool)
  : M Compiler unit :=
  e <- visitRawInterpolation expression ;;
  if escaped then write ("{{" ++ e ++ "}}")
  else write ("{{unescaped " ++ e ++ "}}").

Definition visitAssignment (X expression : string) : M Compiler unit :=
  e <- visitRawInterpolation expression ;;
  write ("{{" ++ X ++ " := " ++ e ++ "}}").

Definition visitTag (tag : Tag) : M Compiler unit :=
  attribs <- foldM visitTag_attribute (tag_Attributes tag) empty ;;
  indent 0 true ;;;
  write ("<" ++ tag_Name tag) ;;;
  forM_ (attrNames attribs) (write_attribute attribs) ;;;
  if IsSelfClosing tag then write " />"
  else
    write ">" ;;;
    match tag_Block tag with
    | Some b =>
        (if negb (CanInline b)
         then modify (fun c => set_indentLevel (wrap_int (indentLevel c + 1)) c)
         else ret tt) ;;;
        visitBlock (Some b) ;;;
        (if negb (CanInline b)
         then
           modify (fun c => set_indentLevel (wrap_int (indentLevel c - 1)) c) ;;;
           indent 0 true
         else ret tt)
    | None => ret tt
    end ;;;
    write ("</" ++ tag_Name tag ++ ">").

Definition visitMixin (mixin : Mixin) : M Compiler unit :=
  modify (fun c => set_mixins (<[mixin_Name mixin := mixin]> (mixins c)) c).

(** [for i, arg := range mixin.Args], reading [mixinCall.Args[i]]. *)
Fixpoint bind_arguments (i : Z) (params args : list string)
  (nargs : Z) : M Compiler unit :=
  match params with
  | [] => ret tt
  | arg :: params' =>
      match args with
      | [] => panic (index_out_of_range i nargs)
      | a :: args' =>
          v <- visitRawInterpolation a ;;
          write ("{{" ++ arg ++ " := " ++ v ++ "}}") ;;;
          bind_arguments (i + 1) params' args' nargs
      end
  end.

Definition visitMixinCall (name : string) (args : list string)
  : M Compiler unit :=
  c <- get ;;
  match mixins c !! name with
  | None => panic nil_deref
  | Some mixin =>
      bind_arguments 0 (mixin_Args mixin) args (Z.of_nat (List.length args)) ;;;
      visitBlock (mixin_Block mixin)
  end.

(** The [switch node.(type)] of [visit]. *)
Definition visit_switch (node : Node) : M Compiler unit :=
  match node with
  | NBlock b => visitBlock (Some b)
  | NNamedBlock l =>
      match h !! l with
      | Some nb => visitBlock (Some (nb_Block nb))
      | None => panic nil_deref
      end
  | NDoctype _ value => visitDoctype value
  | NComment _ value silent block => visitComment value silent block
  | NTag t => visitTag t
  | NText _ value _ => visitText value
  | NCondition _ e pos neg => visitCondition e pos neg
  | NEach _ e X Y block => visitEach e X Y block
  | NBuffered _ e escaped => visitBuffered e escaped
  | NAssignment _ X e => visitAssignment X e
  | NMixin m => visitMixin m
  | NMixinCall _ name args => visitMixinCall name args
  end.

End Visitors.

(** [node.Pos()] *)
Definition node_Pos (h : Heap) (node : Node) : SourcePosition :=
  match node with
  | NBlock b => block_Pos b
  | NNamedBlock l =>
      match h !! l with
      | Some nb => block_Pos (nb_Block nb)
      | None => noPos
      end
  | NDoctype p _ | NComment p _ _ _ | NText p _ _ | NCondition p _ _ _
  | NEach p _ _ _ _ | NBuffered p _ _ | NAssignment p _ _
  | NMixinCall p _ _ => p
  | NTag t => tag_Pos t
  | NMixin m => mixin_Pos m
  end.

(** The message both recovery handlers build around a panic value. *)
Definition jade_error (pos : SourcePosition) (r : panicval) : string :=
  (if 0 <? len (Filename pos)
   then "Jade Error in <" ++ Filename pos ++ ">: "
   else "Jade Error: ")
  ++ panic_text r
  ++ " - Line: " ++ Itoa (LineNum pos)
  ++ ", Column: " ++ Itoa (ColNum pos)
  ++ ", Length: " ++ Itoa (TokenLength pos).

Definition slice_out_of_range (n : Z) : panicval :=
  PanicRuntime ("runtime error: slice bounds out of range [:10] with length "
                ++ Itoa n).

(** The deferred function of [visit]: a panic that already is a
    "Jade Error" is passed on, any other is wrapped with the position
    of the node.  Slicing a panic string shorter than the prefix is
    itself a run-time error. *)
Definition visit_recover {A} (pos : SourcePosition) (r : panicval)
  : M Compiler A :=
  match r with
  | PanicStr rs =>
      if len rs <? len "Jade Error" then panic (slice_out_of_range (len rs))
      else if HasPrefix rs "Jade Error" then panic r
      else panic (PanicStr (jade_error pos r))
  | PanicRuntime _ => panic (PanicStr (jade_error pos r))
  end.

Fixpoint visit (fuel : nat) (h : Heap) (node : Node) : M Compiler unit :=
  match fuel with
  | O => out_of_fuel
  | S fuel' =>
      recovering (visit_switch h (visit fuel' h) node)
        (visit_recover (node_Pos h node))
  end.

(** *** The entry points *)

(** An [io.Writer] with state [W]: [Write] returns the new state, the
    number of bytes it took and an error, if any. *)
Record Writer (W : Type) := mkWriter {
  io_Write : W -> string -> W * Z * option string
}.
#[global] Arguments io_Write {W} _ _ _.

(** A [bytes.Buffer] as a writer: it takes everything and never fails. *)
Definition bytes_Buffer : Writer string :=
  mkWriter string (fun w p => (w ++ p, len p, None)).

(** [c.buffer.WriteTo(out)]: one [Write] of the whole content when
    there is any; the buffer is reset once everything is written. *)
Definition WriteTo {W} (wr : Writer W) : M (Compiler * W) (option string) :=
  fun s =>
    let c := fst s in
    let nBytes := len (buffer c) in
    if 0 <? nBytes then
      match io_Write wr (snd s) (buffer c) with
      | (out', m, e) =>
          if nBytes <? m
          then Panic (PanicStr "bytes.Buffer.WriteTo: invalid Write count")
                 (c, out')
          else
            let c' := set_buffer (str_drop (Z.to_nat m) (buffer c)) c in
            match e with
            | Some e => Ok (Some e) (c', out')
            | None =>
                if negb (m =? nBytes) then Ok (Some "short write") (c', out')
                else Ok None (set_buffer EmptyString c', out')
            end
      end
    else Ok None (set_buffer EmptyString c, snd s).

(** The body of [CompileWriter] up to the write-out. *)
Definition compile_buffer (fuel : nat) (h : Heap) : M Compiler unit :=
  modify (set_buffer EmptyString) ;;;
  c <- get ;;
  match node c with
  | Some n => visit fuel h n
  | None => ret tt
  end ;;;
  c <- get ;;
  if 0 <? len (buffer c) then write nl else ret tt.

Definition type_assertion_failure : panicval :=
  PanicRuntime "interface conversion: interface {} is runtime.Error, not string".

(** The deferred function of [CompileWriter]:
    [err = errors.New(r.(string))]. *)
Definition CompileWriter_recover {S} (r : panicval) : M S (option string) :=
  match r with
  | PanicStr s => ret (Some s)
  | PanicRuntime _ => panic type_assertion_failure
  end.

(** [CompileWriter(out)] returns [err]. *)
Definition CompileWriter {W} (wr : Writer W) (fuel : nat) (h : Heap)
  : M (Compiler * W) (option string) :=
  recovering (lift_fst (compile_buffer fuel h) ;;; WriteTo wr)
    CompileWriter_recover.

(** [CompileString()] returns [(string, error)]. *)
Definition CompileString (fuel : nat) (h : Heap)
  : M Compiler (string * option string) :=
  fun c =>
    match CompileWriter bytes_Buffer fuel h (c, EmptyString) with
    | Ok (Some err) s => Ok (EmptyString, Some err) (fst s)
    | Ok None s => Ok (snd s, None) (fst s)
    | Panic p s => Panic p (fst s)
    | OutOfFuel => OutOfFuel
    end.

End Compile.

(** ** The parser ([parser/parser.go]) *)

Inductive tokKind :=
| tokEOF | tokDoctype | tokComment | tokIndent | tokOutdent | tokBlank
| tokId | tokClassName | tokTag | tokText | tokAttribute | tokAttributeList
| tokIf | tokElse | tokUnless | tokEach | tokAssignment | tokImport
| tokNamedBlock | tokExtends | tokMixin | tokMixinCall | tokBuffered
| tokSemicolon | tokNewLine
| tokOther (code : Z).

#[global] Instance tokKind_eq_dec : EqDecision tokKind.
Proof. solve_decision. Defined.

(** A token of the scanner: kind, value, side data, and the
    attributes of an attribute list. *)
Inductive token :=
| mkToken (Kind : tokKind) (Value : string) (Data : gmap string string)
    (tokChildren : list token).

Definition Kind (t : token) := match t with mkToken k _ _ _ => k end.
Definition Value (t : token) := match t with mkToken _ v _ _ => v end.
Definition Data (t : token) := match t with mkToken _ _ d _ => d end.
Definition tokChildren (t : token) := match t with mkToken _ _ _ c => c end.

(** [tok.Data[key]]: a missing key reads as the empty string. *)
Definition Data_get (t : token) (key : string) : string :=
  default EmptyString (Data t !! key).

Definition tokenKind2Str (k : tokKind) : string :=
  match k with
  | tokEOF => "tokEOF"
  | tokDoctype => "tokDoctype"
  | tokComment => "tokComment"
  | tokIndent => "tokIndent"
  | tokOutdent => "tokOutdent"
  | tokBlank => "tokBlank"
  | tokId => "tokId"
  | tokClassName => "tokClassName"
  | tokTag => "tokTag"
  | tokText => "tokText"
  | tokAttribute => "tokAttribute"
  | tokAttributeList => "tokAttributeList"
  | tokIf => "tokIf"
  | tokElse => "tokElse"
  | tokUnless => "tokUnless"
  | tokEach => "tokEach"
  | tokAssignment => "tokAssignment"
  | tokImport => "tokImport"
  | tokNamedBlock => "tokNamedBlock"
  | tokExtends => "tokExtends"
  | tokMixin => "tokMixin"
  | tokMixinCall => "tokMixinCall"
  | tokBuffered => "tokBuffered"
  | tokSemicolon => "tokSemicolon"
  | tokNewLine => "tokNewLine"
  | tokOther code => "unknown(" ++ Itoa code ++ ")"
  end.

(** The dynamic type of the [parent Node] handed to [parseBlock], which
    is all that the type assertion on [parent] looks at. *)
Inductive BlockParent := ParentNil | ParentTag | ParentOther.

Section Parse.

(** The scanner (scanner.go) and the file system are kept abstract.
    [FileData] is what is read from a file and handed to
    [newScanner]. *)
Variable scanner : Type.
Variable FileData : Type.
Variable newScanner : FileData -> scanner.
(** [s.Next()]: the next token ([None] is a nil token), or a panic. *)
Variable scanner_Next : M scanner (option token).
Variable scanner_Pos : scanner -> SourcePosition.
(** [s.readRaw = true] *)
Variable scanner_readRaw : scanner -> scanner.
Variable FileSystem : Type.
(** [fs.Open] followed by [ioutil.ReadAll]: the error text or the data. *)
Variable fs_ReadFile : FileSystem -> string -> string + FileData.
(** [os.PathSeparator], [os.IsPathSeparator], [path/filepath]. *)
Variable os_PathSeparator : ascii.
Variable os_IsPathSeparator : ascii -> bool.
Variable filepath_Dir : string -> string.
Variable filepath_Base : string -> string.
Variable filepath_Join : string -> string -> string.
(** nodes.go: [Tag.IsRawText], and how [newMixin] and [newMixinCall]
    split their argument string. *)
Variable IsRawText : Tag -> bool.
Variable mixin_parameters : string -> list string.
Variable call_arguments : string -> list string.

Inductive Parser :=
| mkParser (p_scanner : scanner) (p_filename : string)
    (p_fs : option FileSystem) (p_pathSeparator : ascii)
    (currenttoken : option token) (namedBlocks : gmap string loc)
    (parent : option Parser) (result : option Block).

Definition p_scanner (p : Parser) := match p with mkParser s _ _ _ _ _ _ _ => s end.
Definition p_filename (p : Parser) := match p with mkParser _ f _ _ _ _ _ _ => f end.
Definition p_fs (p : Parser) := match p with mkParser _ _ f _ _ _ _ _ => f end.
Definition p_pathSeparator (p : Parser) := match p with mkParser _ _ _ s _ _ _ _ => s end.
Definition currenttoken (p : Parser) := match p with mkParser _ _ _ _ t _ _ _ => t end.
Definition namedBlocks (p : Parser) := match p with mkParser _ _ _ _ _ n _ _ => n end.
Definition parent (p : Parser) := match p with mkParser _ _ _ _ _ _ q _ => q end.
Definition result (p : Parser) := match p with mkParser _ _ _ _ _ _ _ r => r end.

Definition set_scanner (s : scanner) (p : Parser) : Parser :=
  mkParser s (p_filename p) (p_fs p) (p_pathSeparator p) (currenttoken p)
    (namedBlocks p) (parent p) (result p).
Definition set_filename (f : string) (p : Parser) : Parser :=
  mkParser (p_scanner p) f (p_fs p) (p_pathSeparator p) (currenttoken p)
    (namedBlocks p) (parent p) (result p).
Definition set_currenttoken (t : option token) (p : Parser) : Parser :=
  mkParser (p_scanner p) (p_filename p) (p_fs p) (p_pathSeparator p) t
    (namedBlocks p) (parent p) (result p).
Definition set_namedBlocks (n : gmap string loc) (p : Parser) : Parser :=
  mkParser (p_scanner p) (p_filename p) (p_fs p) (p_pathSeparator p)
    (currenttoken p) n (parent p) (result p).
Definition set_parent (q : option Parser) (p : Parser) : Parser :=
  mkParser (p_scanner p) (p_filename p) (p_fs p) (p_pathSeparator p)
    (currenttoken p) (namedBlocks p) q (result p).
Definition set_result (r : option Block) (p : Parser) : Parser :=
  mkParser (p_scanner p) (p_filename p) (p_fs p) (p_pathSeparator p)
    (currenttoken p) (namedBlocks p) (parent p) r.

(** [newParser(rdr)] *)
Definition newParser (rdr : FileData) : Parser :=
  mkParser (newScanner rdr) EmptyString None Ascii.zero None empty None None.

Definition StringParser (input : FileData) : Parser := newParser input.

(** [FileParserFs]: the error text, or the parser. A nil file system
    cannot be opened. *)
Definition FileParserFs {S} (fs : option FileSystem) (pathSeparator : ascii)
  (filename : string) : M S (string + Parser) :=
  match fs with
  | None => panic nil_deref
  | Some f =>
      match fs_ReadFile f filename with
      | inl err => ret (inl err)
      | inr data =>
          ret (inr (mkParser (newScanner data) filename fs pathSeparator
                      None empty None None))
      end
  end.

(** The state a parser runs on: itself and the store of named blocks. *)
Definition PS : Type := Parser * Heap.

Definition the_parser : M PS Parser := gets fst.
Definition update_parser (f : Parser -> Parser) : M PS unit :=
  modify (fun s : PS => (f (fst s), snd s)).

Definition advance : M PS unit :=
  fun s => match scanner_Next (p_scanner (fst s)) with
           | Ok tok sc =>
               Ok tt (set_currenttoken tok (set_scanner sc (fst s)), snd s)
           | Panic r sc => Panic r (set_scanner sc (fst s), snd s)
           | OutOfFuel => OutOfFuel
           end.

Definition pos : M PS SourcePosition :=
  p <- the_parser ;;
  let sp := scanner_Pos (p_scanner p) in
  ret (mkPos (LineNum sp) (ColNum sp) (TokenLength sp) (p_filename p)).

(** [p.currenttoken], dereferenced. *)
Definition current : M PS token :=
  p <- the_parser ;;
  match currenttoken p with
  | Some t => ret t
  | None => panic nil_deref
  end.

Definition expect (typ : tokKind) : M PS token :=
  curtok <- current ;;
  if negb (bool_decide (Kind curtok = typ)) then
    panic (PanicStr ("Unexpected token: " ++ tokenKind2Str (Kind curtok)
                     ++ ", expected: " ++ tokenKind2Str typ))
  else advance ;;; ret curtok.

Definition expectOneOf (typ typ2 : tokKind) : M PS token :=
  curtok <- current ;;
  if negb (bool_decide (Kind curtok = typ))
     && negb (bool_decide (Kind curtok = typ2)) then
    panic (PanicStr ("Unexpected token: " ++ tokenKind2Str (Kind curtok)
                     ++ ", expected: " ++ tokenKind2Str typ ++ " or "
                     ++ tokenKind2Str typ2))
  else advance ;;; ret curtok.

(** *** path/path.go *)

Definition ToOsSeparator (pathSeparator : ascii) (path : string) : string :=
  Replace path (String pathSeparator EmptyString)
    (String os_PathSeparator EmptyString).

Definition FromOsSeparator (pathSeparator : ascii) (path : string) : string :=
  Replace path (String os_PathSeparator EmptyString)
    (String pathSeparator EmptyString).

Definition Convert {S} (pathSeparator : ascii) (path : string)
  (osFn : string -> string) : M S string :=
  if negb (Ascii.eqb os_PathSeparator pathSeparator) then
    if os_IsPathSeparator "/"%char || os_IsPathSeparator "\"%char then
      ret (FromOsSeparator pathSeparator
             (osFn (ToOsSeparator pathSeparator path)))
    else panic (PanicStr ("invalid path separator: '"
                          ++ String pathSeparator EmptyString ++ "'"))
  else ret (osFn path).

(** [parseRelativeFile]: the closure handed to [Convert] ignores its
    argument and joins the file name as it was given. *)
Definition parseRelativeFile (filename : string) : M PS Parser :=
  p <- the_parser ;;
  if len (p_filename p) =? 0 then
    panic (PanicStr ("Unable to import or extend " ++ filename
                     ++ " in a non filesystem based parser."))
  else
    filename' <- Convert (p_pathSeparator p) filename
                   (fun _ =>
                      filepath_Join
                        (filepath_Dir
                           (ToOsSeparator (p_pathSeparator p) (p_filename p)))
                        filename) ;;
    base <- Convert (p_pathSeparator p) filename' filepath_Base ;;
    let filename' :=
      if Index base "." <? 0 then filename' ++ ".jade" else filename' in
    r <- FileParserFs (p_fs p) (p_pathSeparator p) filename' ;;
    match r with
    | inl err =>
        panic (PanicStr ("Unable to read " ++ filename' ++ ", Error: " ++ err))
    | inr parser => ret parser
    end.

(** *** The store of named blocks *)

(** Follow a pointer to a named block. *)
Definition deref (l : loc) : M PS NamedBlock :=
  s <- get ;;
  match snd s !! l with
  | Some nb => ret nb
  | None => panic nil_deref
  end.

Definition store (l : loc) (nb : NamedBlock) : M PS unit :=
  modify (fun s : PS => (fst s, <[l := nb]> (snd s))).

(** A named block at a new address. *)
Definition alloc (nb : NamedBlock) : M PS loc :=
  s <- get ;;
  let l := fresh (dom (snd s)) in
  store l nb ;;; ret l.

(** [prev.push(node)], [prev.pushFront(node)] and
    [prev.Children = children] through the pointer [prev]. *)
Definition heap_push (l : loc) (n : Node) : M PS unit :=
  nb <- deref l ;;
  store l (mkNamedBlock (push (nb_Block nb) n) (nb_Name nb) (nb_Modifier nb)).

Definition heap_pushFront (l : loc) (n : Node) : M PS unit :=
  nb <- deref l ;;
  store l (mkNamedBlock (pushFront (nb_Block nb) n) (nb_Name nb)
             (nb_Modifier nb)).

Definition heap_set_Children (l : loc) (children : list Node) : M PS unit :=
  nb <- deref l ;;
  store l (mkNamedBlock (mkBlock (block_Pos (nb_Block nb)) children)
             (nb_Name nb) (nb_Modifier nb)).

(** *** Sub-parsers without recursion *)

Definition parseDoctype : M PS Node :=
  tok <- expect tokDoctype ;;
  sp <- pos ;;
  ret (NDoctype sp (Value tok)).

Definition parseText : M PS Node :=
  tok <- expect tokText ;;
  sp <- pos ;;
  ret (NText sp (Value tok) (String.eqb (Data_get tok "Mode") "raw")).

Definition parseBuffered : M PS Node :=
  tok <- expect tokBuffered ;;
  sp <- pos ;;
  ret (NBuffered sp (Value tok) (String.eqb (Data_get tok "Mode") "escaped")).

Definition parseAssignment : M PS Node :=
  tok <- expect tokAssignment ;;
  sp <- pos ;;
  ret (NAssignment sp (Data_get tok "X") (Value tok)).

Definition parseMixinCall : M PS Node :=
  tok <- expect tokMixinCall ;;
  sp <- pos ;;
  ret (NMixinCall sp (Value tok) (call_arguments (Data_get tok "Args"))).

(** The [Attribute] literal built from an attribute token. *)
Definition token_Attribute (sp : SourcePosition) (attr : token)
  (condition : string) : Attribute :=
  mkAttribute sp (Value attr) (Data_get attr "Content")
    (String.eqb (Data_get attr "Mode") "raw") condition.

(** *** Sub-parsers, over their recursive calls

    [r_Parse q] runs [Parse] on the parser [q] and returns that
    parser as [Parse] left it. *)
Record Recs := mkRecs {
  r_parse : M PS Node;
  r_parseBlock_loop :
    BlockParent -> Block -> list Attribute -> M PS (Block * list Attribute);
  r_parseIf : M PS Node;
  r_parseIf_more :
    option Block -> option Block -> M PS (option Block * option Block);
  r_parseUnless_more : option Block -> M PS (option Block);
  r_parseTagReal : Tag -> M PS Tag;
  r_Parse_loop : Block -> M PS Block;
  r_append_loop : loc -> loc -> nat -> M PS unit;
  r_Parse : Parser -> M PS (option Block * Parser)
}.

Section SubParsers.

Variable rec : Recs.

(** [parseBlock(parent)]: the block, and the attributes that the loop
    appends to the parent tag. *)
Definition parseBlock (parent : BlockParent)
  : M PS (Block * list Attribute) :=
  expectOneOf tokIndent tokSemicolon ;;;
  sp <- pos ;;
  r <- r_parseBlock_loop rec parent (mkBlock sp []) [] ;;
  expectOneOf tokOutdent tokEOF ;;;
  ret r.

(** One turn of the [for] loop of [parseBlock]. *)
Definition parseBlock_loop (parent : BlockParent) (block : Block)
  (attrs : list Attribute) : M PS (Block * list Attribute) :=
  p <- the_parser ;;
  match currenttoken p with
  | None => ret (block, attrs)
  | Some t =>
      if bool_decide (Kind t = tokEOF) || bool_decide (Kind t = tokOutdent)
      then ret (block, attrs)
      else if bool_decide (Kind t = tokBlank) then
        advance ;;; r_parseBlock_loop rec parent block attrs
      else if bool_decide (Kind t = tokAttribute) then
        match parent with
        | ParentTag =>
            attr <- expect (Kind t) ;;
            sp <- pos ;;
            r_parseBlock_loop rec parent block
              (attrs ++ [token_Attribute sp attr (Data_get attr "Condition")])
        | _ =>
            panic (PanicStr
              "Conditional attributes must be placed immediately within a parent tag.")
        end
      else
        n <- r_parse rec ;;
        r_parseBlock_loop rec parent (push block n) attrs
  end.

Definition parseIf : M PS Node :=
  tok <- expect tokIf ;;
  sp <- pos ;;
  r <- r_parseIf_more rec None None ;;
  ret (NCondition sp (Value tok) (fst r) (snd r)).

(** The [readmore] loop of [parseIf]. *)
Definition parseIf_more (positive negative : option Block)
  : M PS (option Block * option Block) :=
  t <- current ;;
  match Kind t with
  | tokIndent =>
      b <- parseBlock ParentOther ;;
      r_parseIf_more rec (Some (fst b)) negative
  | tokElse =>
      expect tokElse ;;;
      t <- current ;;
      negative <-
        (if bool_decide (Kind t = tokIf) then
           c <- r_parseIf rec ;;
           ret (Some (push newBlock c))
         else if bool_decide (Kind t = tokIndent) then
           b <- parseBlock ParentOther ;;
           ret (Some (fst b))
         else
           panic (PanicStr ("Unexpected token: " ++ tokenKind2Str (Kind t)))) ;;
      r_parseIf_more rec positive negative
  | _ => ret (positive, negative)
  end.

(** The [readmore] loop of [parseUnless]. *)
Definition parseUnless_more (positive : option Block)
  : M PS (option Block) :=
  t <- current ;;
  match Kind t with
  | tokIndent =>
      b <- parseBlock ParentOther ;;
      r_parseUnless_more rec (Some (fst b))
  | _ => ret positive
  end.

Definition parseUnless : M PS Node :=
  tok <- expect tokUnless ;;
  sp <- pos ;;
  positive <- r_parseUnless_more rec None ;;
  ret (NCondition sp ("!(" ++ Value tok ++ ")") positive None).

Definition parseEach : M PS Node :=
  tok <- expect tokEach ;;
  sp <- pos ;;
  t <- current ;;
  block <- (if bool_decide (Kind t = tokIndent)
            then b <- parseBlock ParentOther ;; ret (Some (fst b))
            else ret None) ;;
  ret (NEach sp (Value tok) (Data_get tok "X") (Data_get tok "Y") block).

Definition parseComment : M PS Node :=
  tok <- expect tokComment ;;
  sp <- pos ;;
  t <- current ;;
  block <- (if bool_decide (Kind t = tokIndent)
            then b <- parseBlock ParentOther ;; ret (Some (fst b))
            else ret None) ;;
  ret (NComment sp (Value tok) (String.eqb (Data_get tok "Mode") "silent")
         block).

Definition parseMixin : M PS Node :=
  tok <- expect tokMixin ;;
  sp <- pos ;;
  t <- current ;;
  block <- (if bool_decide (Kind t = tokIndent)
            then b <- parseBlock ParentOther ;; ret (Some (fst b))
            else ret None) ;;
  ret (NMixin (mkMixin sp (Value tok)
                 (mixin_parameters (Data_get tok "Args")) block)).

Definition parseTag : M PS Tag :=
  tok <- expect tokTag ;;
  sp <- pos ;;
  r_parseTagReal rec (mkTag sp (Value tok) [] None).

Definition parseTaglessClass : M PS Tag :=
  tok <- expect tokClassName ;;
  sp <- pos ;;
  r_parseTagReal rec
    (mkTag sp "div" [mkAttribute sp "class" (Value tok) true EmptyString] None).

Definition parseTaglessId : M PS Tag :=
  tok <- expect tokId ;;
  sp <- pos ;;
  r_parseTagReal rec
    (mkTag sp "div" [mkAttribute sp "id" (Value tok) true EmptyString] None).

Definition add_attributes (tag : Tag) (attrs : list Attribute) : Tag :=
  mkTag (tag_Pos tag) (tag_Name tag) (tag_Attributes tag ++ attrs)
    (tag_Block tag).

Definition set_tag_Block (tag : Tag) (block : option Block) : Tag :=
  mkTag (tag_Pos tag) (tag_Name tag) (tag_Attributes tag) block.

(** [ensureBlock(); tag.Block.pushFront(n)] *)
Definition tag_pushFront (tag : Tag) (n : Node) : Tag :=
  set_tag_Block tag
    (Some (pushFront (default newBlock (tag_Block tag)) n)).

Definition header_guard_error : panicval :=
  PanicStr "Conditional attributes must be placed in a block within a tag.".

(** [parseTagReal(tag)]; [goto readmore] is the recursive call. *)
Definition parseTagReal (tag : Tag) : M PS Tag :=
  t <- current ;;
  match Kind t with
  | tokIndent =>
      (if IsRawText tag
       then update_parser (fun p => set_scanner (scanner_readRaw (p_scanner p)) p)
       else ret tt) ;;;
      r <- parseBlock ParentTag ;;
      let tag := add_attributes tag (snd r) in
      match tag_Block tag with
      | None => ret (set_tag_Block tag (Some (fst r)))
      | Some b =>
          ret (set_tag_Block tag
                 (Some (fold_left push (Children (fst r)) b)))
      end
  | tokSemicolon =>
      sp <- pos ;;
      advance ;;;
      t <- current ;;
      inner <-
        match Kind t with
        | tokId => i <- parseTaglessId ;; ret (Some i)
        | tokClassName => i <- parseTaglessClass ;; ret (Some i)
        | tokTag => i <- parseTag ;; ret (Some i)
        | _ => ret None
        end ;;
      let block :=
        match inner with
        | Some i => push (mkBlock sp []) (NTag i)
        | None => mkBlock sp []
        end in
      match tag_Block tag with
      | None => ret (set_tag_Block tag (Some block))
      | Some _ => ret tag
      end
  | tokId =>
      id <- expect tokId ;;
      if 0 <? len (Data_get id "Condition") then panic header_guard_error
      else
        sp <- pos ;;
        r_parseTagReal rec
          (add_attributes tag [mkAttribute sp "id" (Value id) true EmptyString])
  | tokClassName =>
      cls <- expect tokClassName ;;
      if 0 <? len (Data_get cls "Condition") then panic header_guard_error
      else
        sp <- pos ;;
        r_parseTagReal rec
          (add_attributes tag
             [mkAttribute sp "class" (Value cls) true EmptyString])
  | tokAttribute =>
      attr <- expect tokAttribute ;;
      if 0 <? len (Data_get attr "Condition") then panic header_guard_error
      else
        sp <- pos ;;
        r_parseTagReal rec
          (add_attributes tag [token_Attribute sp attr EmptyString])
  | tokAttributeList =>
      attr <- expect tokAttributeList ;;
      sp <- pos ;;
      r_parseTagReal rec
        (add_attributes tag
           (map (fun xattr => token_Attribute sp xattr EmptyString)
              (tokChildren attr)))
  | tokText =>
      if negb (String.eqb (Data_get t "Mode") "piped") then
        n <- parseText ;;
        r_parseTagReal rec (tag_pushFront tag n)
      else ret tag
  | tokBuffered =>
      n <- parseBuffered ;;
      r_parseTagReal rec (tag_pushFront tag n)
  | _ => ret tag
  end.

(** [parseExtends] *)
Definition parseExtends : M PS Node :=
  p <- the_parser ;;
  match parent p with
  | Some _ => panic (PanicStr "Unable to extend multiple parent templates.")
  | None =>
      tok <- expect tokExtends ;;
      parser <- parseRelativeFile (Value tok) ;;
      r <- r_Parse rec parser ;;
      update_parser (set_parent (Some (snd r))) ;;;
      ret (NBlock newBlock)
  end.

(** [parseImport]: the root of the imported file, repositioned. *)
Definition parseImport : M PS Node :=
  tok <- expect tokImport ;;
  parser <- parseRelativeFile (Value tok) ;;
  r <- r_Parse rec parser ;;
  match fst r with
  | None => panic nil_deref
  | Some node =>
      sp <- pos ;;
      ret (NBlock (mkBlock sp (Children node)))
  end.

(** [parseNamedBlock]: a [Default] block stands in the tree through
    its address; the others leave an empty block there. *)
Definition parseNamedBlock : M PS Node :=
  tok <- expect tokNamedBlock ;;
  p <- the_parser ;;
  match namedBlocks p !! Value tok with
  | Some _ =>
      panic (PanicStr
        ("Multiple definitions of named blocks are not permitted. Block "
         ++ Value tok ++ " has been re defined."))
  | None =>
      sp <- pos ;;
      let modifier :=
        if String.eqb (Data_get tok "Modifier") "append" then NamedBlockAppend
        else if String.eqb (Data_get tok "Modifier") "prepend"
             then NamedBlockPrepend
             else NamedBlockDefault in
      t <- current ;;
      block <- (if bool_decide (Kind t = tokIndent)
                then b <- parseBlock ParentNil ;; ret (fst b)
                else ret (mkBlock sp [])) ;;
      l <- alloc (mkNamedBlock block (Value tok) modifier) ;;
      update_parser
        (fun p => set_namedBlocks (<[Value tok := l]> (namedBlocks p)) p) ;;;
      match modifier with
      | NamedBlockDefault => ret (NNamedBlock l)
      | _ => ret (NBlock newBlock)
      end
  end.

(** [parse()] *)
Definition parse : M PS Node :=
  t <- current ;;
  match Kind t with
  | tokDoctype => parseDoctype
  | tokComment => parseComment
  | tokText => parseText
  | tokIf => r_parseIf rec
  | tokUnless => parseUnless
  | tokEach => parseEach
  | tokImport => parseImport
  | tokTag => i <- parseTag ;; ret (NTag i)
  | tokClassName => i <- parseTaglessClass ;; ret (NTag i)
  | tokId => i <- parseTaglessId ;; ret (NTag i)
  | tokBuffered => parseBuffered
  | tokAssignment => parseAssignment
  | tokNamedBlock => parseNamedBlock
  | tokExtends => parseExtends
  | tokIndent => b <- parseBlock ParentNil ;; ret (NBlock (fst b))
  | tokMixin => parseMixin
  | tokMixinCall => parseMixinCall
  | tokNewLine => advance ;;; r_parse rec
  | tokOutdent =>
      sp <- pos ;;
      ret (NBlock (mkBlock sp []))
  | k => panic (PanicStr ("Unexpected token: " ++ tokenKind2Str k))
  end.

(** *** [Parse]: the token loop, the merge, the cache *)

(** One turn of the [for] loop of [Parse]. *)
Definition Parse_loop (block : Block) : M PS Block :=
  p <- the_parser ;;
  match currenttoken p with
  | None => ret block
  | Some t =>
      if bool_decide (Kind t = tokEOF) then ret block
      else if bool_decide (Kind t = tokBlank) then
        advance ;;; r_Parse_loop rec block
      else
        n <- parse ;;
        r_Parse_loop rec (push block n)
  end.

(** [for i := 0; i < len(ours.Children); i++ { prev.push(ours.Children[i]) }] *)
Definition append_loop (prev ours : loc) (i : nat) : M PS unit :=
  o <- deref ours ;;
  match Children (nb_Block o) !! i with
  | Some n => heap_push prev n ;;; r_append_loop rec prev ours (S i)
  | None => ret tt
  end.

(** [for i := len(ours.Children) - 1; i >= 0; i-- {
       prev.pushFront(ours.Children[i]) }], with [k = i + 1]. *)
Fixpoint prepend_loop (prev ours : loc) (k : nat) : M PS unit :=
  match k with
  | O => ret tt
  | S i =>
      o <- deref ours ;;
      match Children (nb_Block o) !! i with
      | Some n => heap_pushFront prev n
      | None =>
          panic (index_out_of_range (Z.of_nat i)
                   (Z.of_nat (List.length (Children (nb_Block o)))))
      end ;;;
      prepend_loop prev ours i
  end.

(** The body of [for _, prev := range p.parent.namedBlocks]. *)
Definition merge_block (prev : loc) : M PS unit :=
  pv <- deref prev ;;
  p <- the_parser ;;
  match namedBlocks p !! nb_Name pv with
  | None => ret tt
  | Some ours =>
      o <- deref ours ;;
      match nb_Modifier o with
      | NamedBlockAppend => r_append_loop rec prev ours O
      | NamedBlockPrepend =>
          prepend_loop prev ours (List.length (Children (nb_Block o)))
      | NamedBlockDefault => heap_set_Children prev (Children (nb_Block o))
      end
  end.

(** The merge over the parent's named blocks, in the order [prevs]. *)
Definition merge_blocks (prevs : list loc) : M PS unit :=
  forM_ prevs merge_block.

Variable runtime_Stack : string.

(** The deferred function of [Parse]. *)
Definition Parse_recover {A} (r : panicval) : M PS A :=
  match r with
  | PanicStr rs =>
      if len rs <? len "Jade Error" then panic (slice_out_of_range (len rs))
      else if HasPrefix rs "Jade Error" then panic r
      else
        sp <- pos ;;
        if 0 <? len (Filename sp) then panic (PanicStr (jade_error sp r))
        else panic (PanicStr (jade_error sp r ++ nl ++ runtime_Stack))
  | PanicRuntime _ =>
      sp <- pos ;;
      if 0 <? len (Filename sp) then panic (PanicStr (jade_error sp r))
      else panic (PanicStr (jade_error sp r ++ nl ++ runtime_Stack))
  end.

(** [p.parent.Parse()]: the parent parser is updated in place. *)
Definition Parse_parent (q : Parser) : M PS (option Block) :=
  fun s =>
    match r_Parse rec q s with
    | Ok r s' => Ok (fst r) (set_parent (Some (snd r)) (fst s'), snd s')
    | Panic e s' => Panic e s'
    | OutOfFuel => OutOfFuel
    end.

(** [Parse()] *)
Definition Parse : M PS (option Block) :=
  p <- the_parser ;;
  match result p with
  | Some b => ret (Some b)
  | None =>
      recovering
        (advance ;;;
         block <- r_Parse_loop rec newBlock ;;
         p <- the_parser ;;
         block <-
           match parent p with
           | Some q =>
               Parse_parent q ;;;
               p <- the_parser ;;
               match parent p with
               | Some q =>
                   merge_blocks (map snd (map_to_list (namedBlocks q))) ;;;
                   ret (result q)
               | None => panic nil_deref
               end
           | None => ret (Some block)
           end ;;
         update_parser (set_result block) ;;;
         ret block)
        Parse_recover
  end.

(** [Parse] run on another parser [q], sharing the store. *)
Definition Parse_on (q : Parser) : M PS (option Block * Parser) :=
  fun s =>
    match Parse (q, snd s) with
    | Ok b s' => Ok (b, fst s') (fst s, snd s')
    | Panic e s' => Panic e (fst s, snd s')
    | OutOfFuel => OutOfFuel
    end.

End SubParsers.

(** *** Tying the recursion with fuel *)

Definition no_fuel : Recs :=
  mkRecs out_of_fuel (fun _ _ _ => out_of_fuel) out_of_fuel
    (fun _ _ => out_of_fuel) (fun _ => out_of_fuel) (fun _ => out_of_fuel)
    (fun _ => out_of_fuel) (fun _ _ _ => out_of_fuel) (fun _ => out_of_fuel).

Fixpoint recs (runtime_Stack : string) (fuel : nat) : Recs :=
  match fuel with
  | O => no_fuel
  | S n =>
      let rec := recs runtime_Stack n in
      mkRecs (parse rec) (parseBlock_loop rec) (parseIf rec)
        (parseIf_more rec) (parseUnless_more rec) (parseTagReal rec)
        (Parse_loop rec) (append_loop rec) (Parse_on rec runtime_Stack)
  end.

(** [p.Parse()] on the parser of the state, with [fuel] levels of
    calls. *)
Definition Parser_Parse (runtime_Stack : string) (fuel : nat)
  : M PS (option Block) :=
  Parse (recs runtime_Stack fuel) runtime_Stack.

(** *** What the merge is expected to leave *)

(** The named block [nb] with its children replaced. *)
Definition with_Children (nb : NamedBlock) (children : list Node) : NamedBlock :=
  mkNamedBlock (mkBlock (block_Pos (nb_Block nb)) children) (nb_Name nb)
    (nb_Modifier nb).

(** What the claim says a merged block holds. *)
Definition merged_children (m : NamedBlockModifier) (parent child : list Node)
  : list Node :=
  match m with
  | NamedBlockAppend => parent ++ child
  | NamedBlockPrepend => child ++ parent
  | NamedBlockDefault => child
  end.

(** What [merge_block] leaves at a parent block [pv], read off the
    child's table and the store before the merge. *)
Definition merged (p : Parser) (h : Heap) (pv : NamedBlock) : NamedBlock :=
  match namedBlocks p !! nb_Name pv with
  | None => pv
  | Some ours =>
      match h !! ours with
      | Some o =>
          with_Children pv
            (merged_children (nb_Modifier o) (Children (nb_Block pv))
               (Children (nb_Block o)))
      | None => pv
      end
  end.

End Parse.

(** ** What the claims say, in the terms of the embedding *)

(** *** The expression transpiler *)

(** The primitive the spec pairs with each negated comparison: eq for
    [!=], gt for [<=], lt for [>=]. *)
Definition complementary_primitive (op : Token) : option string :=
  match op with
  | NEQ => Some "__jade_eql "
  | LEQ => Some "__jade_gtr "
  | GEQ => Some "__jade_lss "
  | _ => None
  end.

(** The name [tempvar] hands out for the counter value [i]. *)
Definition tempname (i : Z) : string := "$__jade_" ++ Itoa i.

(** The effect of a computation on the operand stack. *)
Definition eff {A} (m : M XS A) (R : list string -> list string -> Prop)
  : Prop :=
  forall s a s', m s = Ok a s' -> R (snd s) (snd s').

Definition pushes_one (x y : list string) : Prop := exists v, y = v :: x.

(** The arguments of a call, pushed last to first, and popped. *)
Definition pushes (n : nat) (x y : list string) : Prop :=
  exists vs, List.length vs = n /\ y = (vs ++ x)%list.

Definition pops (n : nat) (x y : list string) : Prop :=
  y = Nat.iter n (@tl string) x.

(** Induction over expressions that reaches the arguments of calls. *)
Section ExprInduction.

Variable P : Expr -> Prop.
Hypothesis HBinary : forall X Op Y, P X -> P Y -> P (BinaryExpr X Op Y).
Hypothesis HUnary : forall Op X, P X -> P (UnaryExpr Op X).
Hypothesis HParen : forall X, P X -> P (ParenExpr X).
Hypothesis HLit : forall v, P (BasicLit v).
Hypothesis HIdent : forall n, P (Ident n).
Hypothesis HSelector : forall X Sel, P X -> P (SelectorExpr X Sel).
Hypothesis HCall :
  forall Fun Args, P Fun -> Forall P Args -> P (CallExpr Fun Args).
Hypothesis HOther : forall t, P (OtherExpr t).

Fixpoint Expr_nested_ind (e : Expr) : P e :=
  match e with
  | BinaryExpr X Op Y => HBinary X Op Y (Expr_nested_ind X) (Expr_nested_ind Y)
  | UnaryExpr Op X => HUnary Op X (Expr_nested_ind X)
  | ParenExpr X => HParen X (Expr_nested_ind X)
  | BasicLit v => HLit v
  | Ident n => HIdent n
  | SelectorExpr X Sel => HSelector X Sel (Expr_nested_ind X)
  | CallExpr Fun Args =>
      HCall Fun Args (Expr_nested_ind Fun)
        ((fix all (l : list Expr) : Forall P l :=
            match l with
            | [] => @List.Forall_nil Expr P
            | a :: l' =>
                @List.Forall_cons Expr P a l' (Expr_nested_ind a) (all l')
            end) Args)
  | OtherExpr t => HOther t
  end.

End ExprInduction.

(** *** The tag renderer *)




(** What the emission loop writes for the names [names]. *)
Fixpoint attributes_text (attribs : gmap string attrib) (names : list string)
  : string :=
  match names with
  | [] => EmptyString
  | n :: names' =>
      match attribs !! n with
      | Some v => attribute_text n v ++ attributes_text attribs names'
      | None => attributes_text attribs names'
      end
  end.



(** *** Panics *)

(** A panic value that the deferred function of [visit] can take: a
    run-time error, or a string long enough to slice the prefix of. *)
Definition sliceable (p : panicval) : Prop :=
  match p with
  | PanicStr s => len "Jade Error" <= len s
  | PanicRuntime _ => True
  end.

Definition is_jade_error (p : panicval) : Prop :=
  match p with
  | PanicStr s => HasPrefix s "Jade Error" = true
  | PanicRuntime _ => False
  end.

(** Every panic of [m] satisfies [P]. *)
Definition panics {S A} (P : panicval -> Prop) (m : M S A) : Prop :=
  forall s, match m s with
            | Panic p _ => P p
            | _ => True
            end.

(** ** Instances for the worked examples

    A scanner that hands out a prepared list of tokens, a file system
    that is a table from names to such lists, and Unix paths. *)

Module Sample.

Definition scanner : Type := list token.

Definition eof : token := mkToken tokEOF EmptyString empty [].

Definition scanner_Next : M scanner (option token) :=
  fun s => match s with
           | [] => Ok (Some eof) []
           | t :: s' => Ok (Some t) s'
           end.

Definition scanner_Pos (s : scanner) : SourcePosition := mkPos 1 1 0 EmptyString.

Definition FileSystem : Type := gmap string (list token).

Definition fs_ReadFile (fs : FileSystem) (name : string)
  : string + list token :=
  match fs !! name with
  | Some d => inr d
  | None => inl ("open " ++ name ++ ": no such file or directory")
  end.

(** The text before and after the last slash. *)
Fixpoint split_last_slash (s : string) : option (string * string) :=
  match s with
  | EmptyString => None
  | String a s' =>
      match split_last_slash s' with
      | Some (d, b) => Some (String a d, b)
      | None => if Ascii.eqb a "/"%char then Some (EmptyString, s') else None
      end
  end.

Definition filepath_Dir (s : string) : string :=
  match split_last_slash s with
  | Some (d, _) => if String.eqb d EmptyString then "/" else d
  | None => "."
  end.

Definition filepath_Base (s : string) : string :=
  match split_last_slash s with
  | Some (_, b) => b
  | None => s
  end.

Definition filepath_Join (d f : string) : string :=
  if String.eqb d "." then f else d ++ "/" ++ f.

Definition IsRawText (t : Tag) : bool :=
  String.eqb (tag_Name t) "style" || String.eqb (tag_Name t) "script".

(** Comma-separated arguments. *)
Definition arguments (s : string) : list string :=
  if String.eqb s EmptyString then [] else Split s ","%char.

Definition Parse (fuel : nat) : M (Parser scanner FileSystem * Heap) (option Block) :=
  Parser_Parse scanner (list token) (fun d => d) scanner_Next scanner_Pos
    (fun s => s) FileSystem fs_ReadFile "/"%char
    (fun a => Ascii.eqb a "/"%char) filepath_Dir filepath_Base filepath_Join
    IsRawText arguments arguments EmptyString fuel.

Definition FileParser (fs : FileSystem) (filename : string)
  : option (Parser scanner FileSystem) :=
  match fs_ReadFile fs filename with
  | inr d => Some (mkParser scanner FileSystem d filename (Some fs) "/"%char None empty None None)
  | inl _ => None
  end.

(** *** Expressions: a small [ParseExpr]

    A model of [go/parser.ParseExpr] on the expression fragment the
    templates use: literals, identifiers, parentheses, unary and
    binary operators with Go's precedences, selectors and calls. *)

Inductive lexeme :=
| LIdent (s : string)
| LLit (s : string)
| LOp (t : Token)
| LLParen | LRParen | LDot | LComma.

Inductive lexmode :=
| MStart
| MIdent (acc : string)
| MNumber (acc : string)
| MString (acc : string)
| MEscape (acc : string)
| MRune (acc : string)
| MPending (c : ascii).

Definition in_range (lo hi c : ascii) : bool :=
  (nat_of_ascii lo <=? nat_of_ascii c)%nat
  && (nat_of_ascii c <=? nat_of_ascii hi)%nat.

Definition is_digit (c : ascii) : bool := in_range "0" "9" c.
Definition is_letter (c : ascii) : bool :=
  in_range "a" "z" c || in_range "A" "Z" c || Ascii.eqb c "_".

Definition snoc (s : string) (c : ascii) : string := s ++ String c EmptyString.

(** A byte met between tokens. *)
Definition lex_start (c : ascii) : option (lexmode * list lexeme) :=
  if Ascii.eqb c " " || Ascii.eqb c "009" then Some (MStart, [])
  else if is_letter c then Some (MIdent (String c EmptyString), [])
  else if is_digit c then Some (MNumber (String c EmptyString), [])
  else if Ascii.eqb c dq_char then Some (MString EmptyString, [])
  else if Ascii.eqb c sq_char then Some (MRune EmptyString, [])
  else if Ascii.eqb c "=" || Ascii.eqb c "!" || Ascii.eqb c "<"
          || Ascii.eqb c ">" || Ascii.eqb c "&" || Ascii.eqb c "|"
       then Some (MPending c, [])
  else if Ascii.eqb c "+" then Some (MStart, [LOp ADD])
  else if Ascii.eqb c "-" then Some (MStart, [LOp SUB])
  else if Ascii.eqb c "*" then Some (MStart, [LOp MUL])
  else if Ascii.eqb c "/" then Some (MStart, [LOp QUO])
  else if Ascii.eqb c "%" then Some (MStart, [LOp REM])
  else if Ascii.eqb c "^" then Some (MStart, [LOp XOR])
  else if Ascii.eqb c "(" then Some (MStart, [LLParen])
  else if Ascii.eqb c ")" then Some (MStart, [LRParen])
  else if Ascii.eqb c "." then Some (MStart, [LDot])
  else if Ascii.eqb c "," then Some (MStart, [LComma])
  else None.

(** The operator a pending byte stands for on its own. *)
Definition pending_alone (p : ascii) : option lexeme :=
  if Ascii.eqb p "!" then Some (LOp NOT)
  else if Ascii.eqb p "<" then Some (LOp LSS)
  else if Ascii.eqb p ">" then Some (LOp GTR)
  else if Ascii.eqb p "&" then Some (LOp AND)
  else if Ascii.eqb p "|" then Some (LOp OR)
  else None.

(** The operator a pending byte makes with the next one. *)
Definition pending_pair (p c : ascii) : option lexeme :=
  if Ascii.eqb p "=" && Ascii.eqb c "=" then Some (LOp EQL)
  else if Ascii.eqb p "!" && Ascii.eqb c "=" then Some (LOp NEQ)
  else if Ascii.eqb p "<" && Ascii.eqb c "=" then Some (LOp LEQ)
  else if Ascii.eqb p ">" && Ascii.eqb c "=" then Some (LOp GEQ)
  else if Ascii.eqb p "&" && Ascii.eqb c "&" then Some (LOp LAND)
  else if Ascii.eqb p "|" && Ascii.eqb c "|" then Some (LOp LOR)
  else None.

Definition after (l : lexeme) (c : ascii) : option (lexmode * list lexeme) :=
  match lex_start c with
  | Some (m, out) => Some (m, l :: out)
  | None => None
  end.

Definition lex_step (m : lexmode) (c : ascii)
  : option (lexmode * list lexeme) :=
  match m with
  | MStart => lex_start c
  | MIdent acc =>
      if is_letter c || is_digit c then Some (MIdent (snoc acc c), [])
      else after (LIdent acc) c
  | MNumber acc =>
      if is_digit c then Some (MNumber (snoc acc c), [])
      else after (LLit acc) c
  | MString acc =>
      if Ascii.eqb c dq_char
      then Some (MStart, [LLit (String dq_char (snoc acc dq_char))])
      else if Ascii.eqb c nl_char then None
      else if Ascii.eqb c "\" then Some (MEscape (snoc acc c), [])
      else Some (MString (snoc acc c), [])
  | MEscape acc => Some (MString (snoc acc c), [])
  | MRune acc =>
      if Ascii.eqb c sq_char then
        if (String.length acc =? 1)%nat
        then Some (MStart, [LLit (String sq_char (snoc acc sq_char))])
        else None
      else Some (MRune (snoc acc c), [])
  | MPending p =>
      match pending_pair p c with
      | Some l => Some (MStart, [l])
      | None =>
          match pending_alone p with
          | Some l => after l c
          | None => None
          end
      end
  end.

Definition lex_flush (m : lexmode) : option (list lexeme) :=
  match m with
  | MStart => Some []
  | MIdent acc => Some [LIdent acc]
  | MNumber acc => Some [LLit acc]
  | MPending p =>
      match pending_alone p with
      | Some l => Some [l]
      | None => None
      end
  | _ => None
  end.

Fixpoint lex (m : lexmode) (s : string) : option (list lexeme) :=
  match s with
  | EmptyString => lex_flush m
  | String c s' =>
      match lex_step m c with
      | Some (m', out) =>
          match lex m' s' with
          | Some rest => Some (out ++ rest)%list
          | None => None
          end
      | None => None
      end
  end.

(** [token.Precedence]; [0] is no binary operator. *)
Definition precedence (op : Token) : nat :=
  match op with
  | LOR => 1
  | LAND => 2
  | EQL | NEQ | LSS | LEQ | GTR | GEQ => 3
  | ADD | SUB | OR | XOR => 4
  | MUL | QUO | REM | SHL | SHR | AND | AND_NOT => 5
  | _ => 0
  end.

Definition is_unary (op : Token) : bool :=
  match op with
  | ADD | SUB | NOT | XOR => true
  | _ => false
  end.

Fixpoint pBinary (fuel prec1 : nat) (ts : list lexeme)
  : option (Expr * list lexeme) :=
  match fuel with
  | O => None
  | S f =>
      match pUnary f ts with
      | Some (x, ts') => pBinaryMore f prec1 x ts'
      | None => None
      end
  end
with pBinaryMore (fuel prec1 : nat) (x : Expr) (ts : list lexeme)
  : option (Expr * list lexeme) :=
  match fuel with
  | O => None
  | S f =>
      match ts with
      | LOp op :: ts' =>
          if (prec1 <=? precedence op)%nat && (0 <? precedence op)%nat then
            match pBinary f (S (precedence op)) ts' with
            | Some (y, ts'') => pBinaryMore f prec1 (BinaryExpr x op y) ts''
            | None => None
            end
          else Some (x, ts)
      | _ => Some (x, ts)
      end
  end
with pUnary (fuel : nat) (ts : list lexeme) : option (Expr * list lexeme) :=
  match fuel with
  | O => None
  | S f =>
      match ts with
      | LOp op :: ts' =>
          if is_unary op then
            match pUnary f ts' with
            | Some (x, r) => Some (UnaryExpr op x, r)
            | None => None
            end
          else None
      | LIdent s :: ts' => pPostfix f (Ident s) ts'
      | LLit s :: ts' => pPostfix f (BasicLit s) ts'
      | LLParen :: ts' =>
          match pBinary f 1 ts' with
          | Some (x, LRParen :: r) => pPostfix f (ParenExpr x) r
          | _ => None
          end
      | _ => None
      end
  end
with pPostfix (fuel : nat) (x : Expr) (ts : list lexeme)
  : option (Expr * list lexeme) :=
  match fuel with
  | O => None
  | S f =>
      match ts with
      | LDot :: LIdent s :: r => pPostfix f (SelectorExpr x s) r
      | LLParen :: LRParen :: r => pPostfix f (CallExpr x []) r
      | LLParen :: r =>
          match pArgs f r with
          | Some (args, r') => pPostfix f (CallExpr x args) r'
          | None => None
          end
      | _ => Some (x, ts)
      end
  end
with pArgs (fuel : nat) (ts : list lexeme)
  : option (list Expr * list lexeme) :=
  match fuel with
  | O => None
  | S f =>
      match pBinary f 1 ts with
      | Some (a, LComma :: r) =>
          match pArgs f r with
          | Some (args, r') => Some (a :: args, r')
          | None => None
          end
      | Some (a, LRParen :: r) => Some ([a], r)
      | _ => None
      end
  end.

Definition ParseExpr (s : string) : option Expr :=
  match lex MStart s with
  | Some ts =>
      match pBinary (8 * S (List.length ts)) 1 ts with
      | Some (e, []) => Some e
      | _ => None
      end
  | None => None
  end.

(** *** The compiler's collaborators *)

Definition is_plain_Text (n : Node) : bool :=
  match n with NText _ _ raw => negb raw | _ => false end.

Definition CanInline (b : Block) : bool := forallb is_plain_Text (Children b).

Definition selfClosingTags : list string :=
  ["meta"; "img"; "link"; "input"; "source"; "area"; "base"; "col"; "br"; "hr"].

Definition IsSelfClosing (t : Tag) : bool :=
  existsb (String.eqb (tag_Name t)) selfClosingTags.

Definition Doctype_String (value : string) : string :=
  if String.eqb value "5" then "<!DOCTYPE html>"
  else "<!DOCTYPE " ++ value ++ ">".

(** Modelled from the spec: runtime.go with its [FuncMap] is missing;
    these are the primitives the executor must supply (arithmetic,
    comparison, unescaped output, script-safe output, structured-data
    encoding) under the names the compiler writes. *)
Definition FuncMap : gset string :=
  list_to_set
    ["__jade_add"; "__jade_sub"; "__jade_mul"; "__jade_quo"; "__jade_rem";
     "__jade_minus"; "__jade_plus"; "__jade_eql"; "__jade_gtr"; "__jade_lss";
     "unescaped"; "safeJS"; "json"].

Definition visitExpression := visitExpression FuncMap.
Definition visitRawInterpolation := visitRawInterpolation FuncMap ParseExpr.
Definition visitTag :=
  visitTag CanInline IsSelfClosing FuncMap ParseExpr.
Definition visit := visit CanInline IsSelfClosing Doctype_String FuncMap ParseExpr.
Definition CompileString :=
  CompileString CanInline IsSelfClosing Doctype_String FuncMap ParseExpr.

(** A compiler as the tests set it up: compact output, no custom
    functions. *)
Definition compact (n : Node) : Compiler :=
  mkCompiler (mkOptions false false empty) EmptyString (Some n) 0 false
    EmptyString 0 empty.

(** *** Sample files and stores *)

Definition tok (k : tokKind) (v : string) : token := mkToken k v empty [].

(** parent.jade: [html] holding [block X] with the tags P1 and P2. *)
Definition parent_tokens : list token :=
  [tok tokTag "html"; tok tokIndent EmptyString;
   tok tokNamedBlock "X"; tok tokIndent EmptyString;
   tok tokTag "P1"; tok tokTag "P2";
   tok tokOutdent EmptyString; tok tokOutdent EmptyString].

(** child.jade: [extends parent], then [block X] with the given
    modifier and the tags C1 and C2. *)
Definition child_tokens (modifier : string) : list token :=
  [tok tokExtends "parent";
   mkToken tokNamedBlock "X" (<["Modifier" := modifier]> empty) [];
   tok tokIndent EmptyString;
   tok tokTag "C1"; tok tokTag "C2";
   tok tokOutdent EmptyString].

Definition views (modifier : string) : FileSystem :=
  <["views/parent.jade" := parent_tokens]>
    (<["views/child.jade" := child_tokens modifier]> empty).

(** The parser that [FileParserFs] makes for child.jade. *)
Definition child_parser (modifier : string) : Parser scanner FileSystem :=
  mkParser scanner FileSystem (child_tokens modifier) "views/child.jade"
    (Some (views modifier)) "/"%char None empty None None.

(** The children of the named block at [l] after [r]. *)
Definition children_at {A} (l : loc)
  (r : Res (Parser scanner FileSystem * Heap) A) : option (list string) :=
  match r with
  | Ok _ s =>
      match snd s !! l with
      | Some nb =>
          Some (map (fun n => match n with
                              | NTag t => tag_Name t
                              | _ => EmptyString
                              end) (Children (nb_Block nb)))
      | None => None
      end
  | _ => None
  end.

Definition leaf (name : string) : Node := NTag (mkTag noPos name [] None).

Definition parent_X : NamedBlock :=
  mkNamedBlock (mkBlock noPos [leaf "P1"; leaf "P2"]) "X" NamedBlockDefault.

Definition child_X (m : NamedBlockModifier) : NamedBlock :=
  mkNamedBlock (mkBlock noPos [leaf "C1"; leaf "C2"]) "X" m.

Definition store_of (m : NamedBlockModifier) : Heap :=
  <[1%positive := parent_X]> (<[2%positive := child_X m]> empty).

(** The child parser once its own tokens are read: its table declares X. *)
Definition child : Parser scanner FileSystem :=
  mkParser scanner FileSystem [] "views/child.jade" None "/"%char None
    (<["X" := 2%positive]> empty) None None.

Definition knot (fuel : nat) : Recs scanner FileSystem :=
  recs scanner (list token) (fun d => d) scanner_Next scanner_Pos
    (fun s => s) FileSystem fs_ReadFile "/"%char
    (fun a => Ascii.eqb a "/"%char) filepath_Dir filepath_Base filepath_Join
    IsRawText arguments arguments EmptyString fuel.

Definition parseExtends :=
  parseExtends scanner (list token) (fun d => d) scanner_Next FileSystem
    fs_ReadFile "/"%char (fun a => Ascii.eqb a "/"%char) filepath_Dir
    filepath_Base filepath_Join.



(** *** Sample tags *)

Definition raw_attribute (name value : string) : Attribute :=
  mkAttribute noPos name value true EmptyString.

Definition expression_attribute (name value : string) : Attribute :=
  mkAttribute noPos name value false EmptyString.

(** [.wrap.container] *)
Definition wrap_container : Node :=
  NTag (mkTag noPos "div"
          [raw_attribute "class" "wrap"; raw_attribute "class" "container"]
          None).

(** [div[name]] with the empty value read as raw, and as an expression. *)
Definition div_name (raw : bool) : Node :=
  NTag (mkTag noPos "div" [mkAttribute noPos "name" EmptyString raw EmptyString]
          None).

(** A call of a mixin that was never defined. *)
Definition unknown_mixin : Node := NMixinCall noPos "a" [].




Definition attribute_value := attribute_value FuncMap ParseExpr.
Definition visitTag_attribute := visitTag_attribute FuncMap ParseExpr.
Definition CompileWriter {W} :=
  @CompileWriter CanInline IsSelfClosing Doctype_String FuncMap ParseExpr W.

End Sample.

(** ** What the further properties are stated with *)

(** *** Text *)

(** What [escape] makes of one byte. *)
Definition escape_byte (a : ascii) : string :=
  if Ascii.eqb a "\" then "\\"
  else if Ascii.eqb a dq_char then "\" ++ dq
  else String a EmptyString.

(** The images of the bytes of [s] under [f], one after the other. *)
Fixpoint flat_map_bytes (f : ascii -> string) (s : string) : string :=
  match s with
  | EmptyString => EmptyString
  | String a s' => f a ++ flat_map_bytes f s'
  end.

(** The body of an interpreted string literal whose opening quote has
    been read, and what follows its closing quote: a backslash takes
    the next byte with it, the first quote outside such a pair closes
    the literal. *)
Fixpoint literal_body (s : string) : option (string * string) :=
  match s with
  | EmptyString => None
  | String a s' =>
      if Ascii.eqb a dq_char then Some (EmptyString, s')
      else if Ascii.eqb a "\" then
        match s' with
        | EmptyString => None
        | String b s'' =>
            match literal_body s'' with
            | Some (body, rest) => Some (String a (String b body), rest)
            | None => None
            end
        end
      else
        match literal_body s' with
        | Some (body, rest) => Some (String a body, rest)
        | None => None
        end
  end.

(** [a] is one of the bytes of [s]. *)
Fixpoint has_byte (a : ascii) (s : string) : bool :=
  match s with
  | EmptyString => false
  | String b s' => Ascii.eqb a b || has_byte a s'
  end.

Fixpoint tabs (n : nat) : string :=
  match n with
  | O => EmptyString
  | S n' => tab ++ tabs n'
  end.

(** What [indent(offset, newline)] writes on the compiler [c]. *)
Definition indentation (c : Compiler) (offset : Z) (newline : bool) : string :=
  if PrettyPrint (options c) then
    (if newline && (0 <? len (buffer c)) then nl else EmptyString)
    ++ tabs (Z.to_nat (wrap_int (indentLevel c + offset)))
  else EmptyString.

(** *** Expressions *)

(** The primitive written for a binary operator that is lowered in
    one step, the pipe apart. *)
Definition plain_primitive (op : Token) : option string :=
  match op with
  | ADD => Some "__jade_add "
  | SUB => Some "__jade_sub "
  | MUL => Some "__jade_mul "
  | QUO => Some "__jade_quo "
  | REM => Some "__jade_rem "
  | LAND => Some "and "
  | LOR => Some "or "
  | EQL => Some "__jade_eql "
  | LSS => Some "__jade_lss "
  | GTR => Some "__jade_gtr "
  | _ => None
  end.

(** The primitive written for a unary operator. *)
Definition unary_text (op : Token) : option string :=
  match op with
  | SUB => Some "__jade_minus "
  | ADD => Some "__jade_plus "
  | NOT => Some "not "
  | _ => None
  end.

(** The arguments of a call as they are written: each after a space. *)
Fixpoint args_text (vs : list string) : string :=
  match vs with
  | [] => EmptyString
  | v :: vs' => " " ++ v ++ args_text vs'
  end.

(** The receiver of a selector as it is written: the context itself
    is left out, so that the dot of the selector is the dot of the
    field. *)
Definition receiver_text (x : string) : string :=
  if String.eqb x "." then EmptyString else x.

(** The compiler after [tempvar] and one write of [text]. *)
Definition bound (text : string) (c : Compiler) : Compiler :=
  set_tempvarIndex (wrap_int (tempvarIndex c + 1))
    (set_buffer (buffer c ++ text) c).

(** *** Tags *)

(** The table entry of a raw attribute without a guard. *)
Definition static_attrib (item : Attribute) : attrib :=
  mkAttrib (attr_Name item) (attr_Value item) EmptyString.

Definition is_static (item : Attribute) : bool :=
  attr_IsRaw item && String.eqb (attr_Condition item) EmptyString.

(** *** What a traversal leaves of the compiler *)

(** Every normal return of [m] relates the state it started on to the
    state it returns. *)
Definition keeps {S A} (R : S -> S -> Prop) (m : M S A) : Prop :=
  forall s a s', m s = Ok a s' -> R s s'.

(** The compiler [c'] is [c] after some output: the options, the file
    name and the root are the same, the buffer is extended, every
    mixin that was defined still is, and the indentation level is the
    same up to the wrap-around of [int]. *)
Definition grows (c c' : Compiler) : Prop :=
  options c' = options c
  /\ c_filename c' = c_filename c
  /\ node c' = node c
  /\ newline c' = newline c
  /\ (indentLevel c' = indentLevel c
      \/ indentLevel c' = wrap_int (indentLevel c))
  /\ (exists out : string, buffer c' = buffer c ++ out)
  /\ dom (mixins c) ⊆ dom (mixins c').

(** ** The entry points that run the parser ([compiler.go])

    [Compiler.Parse] and [Compiler.ParseFile] make a parser, run its
    [Parse] and keep the root in [c.node]; a panic of the parser is
    recovered and returned as the error.  They run on the compiler and
    the store of named blocks. *)

Definition set_c_filename (f : string) (c : Compiler) : Compiler :=
  mkCompiler (options c) f (node c) (indentLevel c) (newline c)
    (buffer c) (tempvarIndex c) (mixins c).

Section CompilerParse.

Variable scanner : Type.
Variable FileData : Type.
Variable newScanner : FileData -> scanner.
Variable scanner_Next : M scanner (option token).
Variable scanner_Pos : scanner -> SourcePosition.
Variable scanner_readRaw : scanner -> scanner.
Variable FileSystem : Type.
Variable fs_ReadFile : FileSystem -> string -> string + FileData.
Variable os_PathSeparator : ascii.
Variable os_IsPathSeparator : ascii -> bool.
Variable filepath_Dir : string -> string.
Variable filepath_Base : string -> string.
Variable filepath_Join : string -> string -> string.
Variable IsRawText : Tag -> bool.
Variable mixin_parameters : string -> list string.
Variable call_arguments : string -> list string.
Variable runtime_Stack : string.

(** [c.node = parser.Parse()] for the parser [parser]: the root is
    kept as the node of the compiler; a panic leaves the compiler as it
    was.  [Parse] returns a block whenever it returns, so a nil root
    is written as no node. *)
Definition parse_into (fuel : nat) (parser : Parser scanner FileSystem)
  : M (Compiler * Heap) unit :=
  fun s =>
    match Parser_Parse scanner FileData newScanner scanner_Next scanner_Pos
            scanner_readRaw FileSystem fs_ReadFile os_PathSeparator
            os_IsPathSeparator filepath_Dir filepath_Base filepath_Join
            IsRawText mixin_parameters call_arguments runtime_Stack fuel
            (parser, snd s) with
    | Ok b s' => Ok tt (set_node (option_map NBlock b) (fst s), snd s')
    | Panic p s' => Panic p (fst s, snd s')
    | OutOfFuel => OutOfFuel
    end.

(** [c.Parse(input)] returns [err]. *)
Definition Compiler_Parse (fuel : nat) (input : FileData)
  : M (Compiler * Heap) (option string) :=
  recovering
    (c <- gets fst ;;
     let parser :=
       set_filename scanner FileSystem (c_filename c)
         (StringParser scanner FileData newScanner FileSystem input) in
     parse_into fuel parser ;;;
     ret None)
    CompileWriter_recover.

(** [c.ParseFile(filename)] returns [err]; [fs] and [pathSeparator]
    are [c.Options.Fs] and [c.Options.PathSeparator]. *)
Definition Compiler_ParseFile (fs : option FileSystem) (pathSeparator : ascii)
  (fuel : nat) (filename : string) : M (Compiler * Heap) (option string) :=
  recovering
    (r <- FileParserFs scanner FileData newScanner FileSystem fs_ReadFile
            fs pathSeparator filename ;;
     match r with
     | inl err => ret (Some err)
     | inr parser =>
         parse_into fuel parser ;;;
         modify (fun s : Compiler * Heap =>
                   (set_c_filename filename (fst s), snd s)) ;;;
         ret None
     end)
    CompileWriter_recover.

End CompilerParse.

(** ** What the further properties of the parser are stated with *)

(** The recursive calls of a level of the parser panic, if at all,
    with a value that the deferred function of [Parse] can take. *)
Definition tame {scanner FileSystem : Type} (rec : Recs scanner FileSystem)
  : Prop :=
  panics sliceable (r_parse _ _ rec)
  /\ (forall a b c, panics sliceable (r_parseBlock_loop _ _ rec a b c))
  /\ panics sliceable (r_parseIf _ _ rec)
  /\ (forall a b, panics sliceable (r_parseIf_more _ _ rec a b))
  /\ (forall a, panics sliceable (r_parseUnless_more _ _ rec a))
  /\ (forall a, panics sliceable (r_parseTagReal _ _ rec a))
  /\ (forall a, panics sliceable (r_Parse_loop _ _ rec a))
  /\ (forall a b c, panics sliceable (r_append_loop _ _ rec a b c))
  /\ (forall a, panics sliceable (r_Parse _ _ rec a)).

(** The kinds of token that [Parse] hands to [parse] and that start
    no node: [parse] has no case for them. *)
Definition starts_no_node (k : tokKind) : bool :=
  match k with
  | tokElse | tokAttribute | tokAttributeList | tokSemicolon | tokOther _ =>
      true
  | _ => false
  end.

(** The modifier that [parseNamedBlock] reads off the token. *)
Definition modifier_of (tok : token) : NamedBlockModifier :=
  if String.eqb (Data_get tok "Modifier") "append" then NamedBlockAppend
  else if String.eqb (Data_get tok "Modifier") "prepend"
       then NamedBlockPrepend
       else NamedBlockDefault.

(** ** Further instances for the worked examples *)

Module Cases.

Definition Compiler_Parse :=
  Compiler_Parse Sample.scanner (list token) (fun d => d) Sample.scanner_Next
    Sample.scanner_Pos (fun s => s) Sample.FileSystem Sample.fs_ReadFile
    "/"%char (fun a => Ascii.eqb a "/"%char) Sample.filepath_Dir
    Sample.filepath_Base Sample.filepath_Join Sample.IsRawText
    Sample.arguments Sample.arguments EmptyString.

Definition Compiler_ParseFile :=
  Compiler_ParseFile Sample.scanner (list token) (fun d => d)
    Sample.scanner_Next Sample.scanner_Pos (fun s => s) Sample.FileSystem
    Sample.fs_ReadFile "/"%char (fun a => Ascii.eqb a "/"%char)
    Sample.filepath_Dir Sample.filepath_Base Sample.filepath_Join
    Sample.IsRawText Sample.arguments Sample.arguments EmptyString.

Definition parseNamedBlock :=
  parseNamedBlock Sample.scanner Sample.scanner_Next Sample.scanner_Pos
    Sample.FileSystem.

Definition parseImport :=
  parseImport Sample.scanner (list token) (fun d => d) Sample.scanner_Next
    Sample.scanner_Pos Sample.FileSystem Sample.fs_ReadFile "/"%char
    (fun a => Ascii.eqb a "/"%char) Sample.filepath_Dir Sample.filepath_Base
    Sample.filepath_Join.

Definition visitMixinCall :=
  visitMixinCall Sample.CanInline Sample.FuncMap Sample.ParseExpr.

Definition visitText := visitText Sample.FuncMap Sample.ParseExpr.
Definition interpolate := interpolate Sample.FuncMap Sample.ParseExpr.

(** A template that starts with [else]. *)
Definition stray : list token := [Sample.tok tokElse EmptyString].

(** A parser on given tokens, without a file. *)
Definition on_tokens (toks : list token)
  : Parser Sample.scanner Sample.FileSystem :=
  mkParser Sample.scanner Sample.FileSystem toks EmptyString None "/"%char
    None empty None None.

(** [block X] met by a parser that has declared X already. *)
Definition at_second_X : Parser Sample.scanner Sample.FileSystem * Heap :=
  (mkParser Sample.scanner Sample.FileSystem [] "views/child.jade" None
     "/"%char (Some (Sample.tok tokNamedBlock "X"))
     (<["X" := 2%positive]> empty) None None,
   Sample.store_of NamedBlockDefault).

(** [block append X] met by a parser that has declared nothing. *)
Definition at_first_X : Parser Sample.scanner Sample.FileSystem * Heap :=
  (mkParser Sample.scanner Sample.FileSystem
     [Sample.tok tokIndent EmptyString; Sample.tok tokTag "C1";
      Sample.tok tokOutdent EmptyString]
     "views/child.jade" None "/"%char
     (Some (mkToken tokNamedBlock "X" (<["Modifier" := "append"]> empty) []))
     empty None None, empty).

(** page.jade imports part.jade, which declares [block X]. *)
Definition pages : Sample.FileSystem :=
  <["views/page.jade" := [Sample.tok tokImport "part"]]>
    (<["views/part.jade" :=
         [Sample.tok tokNamedBlock "X"; Sample.tok tokIndent EmptyString;
          Sample.tok tokTag "p"; Sample.tok tokOutdent EmptyString]]> empty).

(** The parser of page.jade about to read its [import]. *)
Definition at_import : Parser Sample.scanner Sample.FileSystem * Heap :=
  (mkParser Sample.scanner Sample.FileSystem [] "views/page.jade"
     (Some pages) "/"%char (Some (Sample.tok tokImport "part")) empty None
     None, empty).

(** A compiler that has visited [mixin m($a)] with an empty block. *)
Definition with_mixin : Compiler :=
  set_mixins (<["m" := mkMixin noPos "m" ["$a"] (Some newBlock)]> empty) New.

(** [div.a#b] *)
Definition div_a_b : Tag :=
  mkTag noPos "div"
    [Sample.raw_attribute "class" "a"; Sample.raw_attribute "id" "b"] None.

(** [ul] holding [li] holding a text, pretty printed. *)
Definition nested : Node :=
  NTag (mkTag noPos "ul" []
          (Some (mkBlock noPos
                   [NTag (mkTag noPos "li" []
                            (Some (mkBlock noPos
                                     [NText noPos "item" false])))]))).

End Cases.

(** * Theorems *)

(** ** The parser *)

Section ParserFacts.

Context {scanner FileData FileSystem : Type}.
Context (newScanner : FileData -> scanner)
  (scanner_Next : M scanner (option token))
  (scanner_Pos : scanner -> SourcePosition)
  (scanner_readRaw : scanner -> scanner)
  (fs_ReadFile : FileSystem -> string -> string + FileData)
  (os_PathSeparator : ascii) (os_IsPathSeparator : ascii -> bool)
  (filepath_Dir filepath_Base : string -> string)
  (filepath_Join : string -> string -> string)
  (IsRawText : Tag -> bool)
  (mixin_parameters call_arguments : string -> list string)
  (runtime_Stack : string).

Local Abbreviation knot :=
  (recs scanner FileData newScanner scanner_Next scanner_Pos scanner_readRaw
     FileSystem fs_ReadFile os_PathSeparator os_IsPathSeparator filepath_Dir
     filepath_Base filepath_Join IsRawText mixin_parameters call_arguments
     runtime_Stack).
Local Abbreviation State := (PS scanner FileSystem).
Local Abbreviation Parser' := (Parser scanner FileSystem).

#[local] Arguments deref {scanner FileSystem} l _.
#[local] Arguments store {scanner FileSystem} l nb _.
#[local] Arguments heap_push {scanner FileSystem} l n _.
#[local] Arguments heap_pushFront {scanner FileSystem} l n _.
#[local] Arguments heap_set_Children {scanner FileSystem} l children _.
#[local] Arguments merge_block {scanner FileSystem} rec prev _.
#[local] Arguments merge_blocks {scanner FileSystem} rec prevs _.
#[local] Arguments append_loop {scanner FileSystem} rec prev ours i _.
#[local] Arguments prepend_loop {scanner FileSystem} prev ours k _.
#[local] Arguments r_append_loop {scanner FileSystem} _ _ _ _ _.
#[local] Arguments namedBlocks {scanner FileSystem} p.
#[local] Arguments merged {scanner FileSystem} p h pv.

Lemma with_Children_id nb : with_Children nb (Children (nb_Block nb)) = nb.
Proof. destruct nb as [[sp ch] n m]. reflexivity. Qed.

Lemma deref_Some (p : Parser') (h : Heap) l nb :
  h !! l = Some nb -> deref l (p, h) = Ok nb (p, h).
Proof. intros H. unfold deref, bind, get. simpl. rewrite H. reflexivity. Qed.

Lemma heap_push_Some (p : Parser') (h : Heap) l nb n :
  h !! l = Some nb ->
  heap_push l n (p, h)
  = Ok tt (p, <[l := with_Children nb (Children (nb_Block nb) ++ [n])]> h).
Proof.
  intros H. unfold heap_push, bind. rewrite (deref_Some _ _ _ _ H).
  reflexivity.
Qed.

Lemma heap_pushFront_Some (p : Parser') (h : Heap) l nb n :
  h !! l = Some nb ->
  heap_pushFront l n (p, h)
  = Ok tt (p, <[l := with_Children nb (n :: Children (nb_Block nb))]> h).
Proof.
  intros H. unfold heap_pushFront, bind. rewrite (deref_Some _ _ _ _ H).
  reflexivity.
Qed.

Lemma heap_set_Children_Some (p : Parser') (h : Heap) l nb ch :
  h !! l = Some nb ->
  heap_set_Children l ch (p, h) = Ok tt (p, <[l := with_Children nb ch]> h).
Proof.
  intros H. unfold heap_set_Children, bind. rewrite (deref_Some _ _ _ _ H).
  reflexivity.
Qed.

(** The append loop from index [i] on adds the children of [ours]
    from [i] on, given fuel for each of them. *)
Lemma append_loop_run (fuel : nat) :
  forall (i : nat) (p : Parser') (h : Heap) prev ours pv o,
    prev <> ours ->
    h !! prev = Some pv ->
    h !! ours = Some o ->
    (List.length (Children (nb_Block o)) - i < fuel)%nat ->
    r_append_loop (knot fuel) prev ours i (p, h)
    = Ok tt (p, <[prev := with_Children pv
                    (Children (nb_Block pv)
                     ++ drop i (Children (nb_Block o)))]> h).
Proof.
  induction fuel as [|fuel IH]; intros i p h prev ours pv o Hne Hp Ho Hlen.
  - lia.
  - simpl. unfold append_loop at 1. unfold bind at 1.
    rewrite (deref_Some _ _ _ _ Ho).
    destruct (Children (nb_Block o) !! i) as [n|] eqn:Hi.
    + unfold bind at 1. rewrite (heap_push_Some _ _ _ _ _ Hp).
      assert (Hi' := lookup_lt_Some _ _ _ Hi).
      rewrite (IH (S i) p _ prev ours
                 (with_Children pv (Children (nb_Block pv) ++ [n])) o).
      * rewrite insert_insert_eq. f_equal. f_equal. f_equal.
        unfold with_Children. simpl. f_equal. f_equal.
        rewrite <- app_assoc. f_equal. simpl.
        symmetry. apply drop_S. exact Hi.
      * exact Hne.
      * apply lookup_insert_eq.
      * rewrite lookup_insert_ne by exact Hne. exact Ho.
      * lia.
    + apply lookup_ge_None in Hi.
      rewrite drop_ge by lia. rewrite app_nil_r, with_Children_id.
      rewrite insert_id by exact Hp. reflexivity.
Qed.

Lemma prepend_loop_run (k : nat) :
  forall (p : Parser') (h : Heap) prev ours pv o,
    prev <> ours ->
    h !! prev = Some pv ->
    h !! ours = Some o ->
    (k <= List.length (Children (nb_Block o)))%nat ->
    prepend_loop prev ours k (p, h)
    = Ok tt (p, <[prev := with_Children pv
                    (take k (Children (nb_Block o))
                     ++ Children (nb_Block pv))]> h).
Proof.
  induction k as [|i IH]; intros p h prev ours pv o Hne Hp Ho Hlen.
  - simpl. rewrite with_Children_id, insert_id by exact Hp. reflexivity.
  - simpl. unfold bind at 1. unfold bind at 1.
    rewrite (deref_Some _ _ _ _ Ho).
    destruct (lookup_lt_is_Some_2 (Children (nb_Block o)) i) as [n Hn];
      [lia|].
    rewrite Hn. rewrite (heap_pushFront_Some _ _ _ _ _ Hp).
    rewrite (IH p _ prev ours
               (with_Children pv (n :: Children (nb_Block pv))) o).
    + rewrite insert_insert_eq. f_equal. f_equal. f_equal.
      unfold with_Children. simpl. f_equal. f_equal.
      rewrite (take_S_r _ _ _ Hn), <- app_assoc. reflexivity.
    + exact Hne.
    + apply lookup_insert_eq.
    + rewrite lookup_insert_ne by exact Hne. exact Ho.
    + lia.
Qed.

Lemma merge_block_absent rec (p : Parser') (h : Heap) prev pv :
  h !! prev = Some pv ->
  namedBlocks p !! nb_Name pv = None ->
  merge_block rec prev (p, h) = Ok tt (p, h).
Proof.
  intros Hp Hn. unfold merge_block, bind at 1.
  rewrite (deref_Some _ _ _ _ Hp). unfold bind, the_parser, gets. simpl.
  rewrite Hn. reflexivity.
Qed.

Lemma merge_block_present fuel (p : Parser') (h : Heap) prev pv ours o :
  h !! prev = Some pv ->
  namedBlocks p !! nb_Name pv = Some ours ->
  prev <> ours ->
  h !! ours = Some o ->
  (List.length (Children (nb_Block o)) < fuel)%nat ->
  merge_block (knot fuel) prev (p, h)
  = Ok tt (p, <[prev := with_Children pv
                  (merged_children (nb_Modifier o) (Children (nb_Block pv))
                     (Children (nb_Block o)))]> h).
Proof.
  intros Hp Hn Hne Ho Hlen. unfold merge_block, bind at 1.
  rewrite (deref_Some _ _ _ _ Hp). unfold bind at 1, the_parser, gets.
  cbn [fst]. rewrite Hn. unfold bind at 1.
  rewrite (deref_Some _ _ _ _ Ho).
  destruct (nb_Modifier o) eqn:Hm; simpl.
  - apply heap_set_Children_Some. exact Hp.
  - rewrite (append_loop_run fuel 0%nat p h prev ours pv o Hne Hp Ho)
      by lia.
    rewrite drop_0. reflexivity.
  - rewrite (prepend_loop_run _ p h prev ours pv o Hne Hp Ho) by lia.
    rewrite firstn_all. reflexivity.
Qed.


Lemma merge_blocks_run fuel (p : Parser') (prevs : list loc) :
  forall h : Heap,
    NoDup prevs ->
    (forall l : loc, l ∈ prevs -> is_Some (h !! l)) ->
    (forall (name : string) (l : loc), namedBlocks p !! name = Some l ->
       (l ∉ prevs) /\
       exists o, h !! l = Some o /\
                 (List.length (Children (nb_Block o)) < fuel)%nat) ->
    exists h' : Heap,
      merge_blocks (knot fuel) prevs (p, h) = Ok tt (p, h') /\
      (forall l : loc, l ∉ prevs -> h' !! l = h !! l) /\
      (forall l pv, l ∈ prevs -> h !! l = Some pv ->
         h' !! l = Some (merged p h pv)).
Proof.
  induction prevs as [|l0 rest IH]; intros h Hnd Hal Hch.
  - exists h. split; [reflexivity|]. split; [reflexivity|].
    intros l pv Hin. inversion Hin.
  - apply NoDup_cons in Hnd as [Hl0 Hnd].
    destruct (Hal l0) as [pv0 Hp0]; [left|].
    assert (Hstep : merge_block (knot fuel) l0 (p, h)
                    = Ok tt (p, <[l0 := merged p h pv0]> h)).
    { unfold merged. destruct (namedBlocks p !! nb_Name pv0) as [ours|] eqn:Hn.
      - destruct (Hch _ _ Hn) as [Hnotin (o & Ho & Hlen)].
        rewrite Ho. apply (merge_block_present fuel p h l0 pv0 ours o); auto.
        intros ->. apply Hnotin. left.
      - rewrite insert_id by exact Hp0. apply (merge_block_absent _ p h l0 pv0); auto. }
    destruct (IH (<[l0 := merged p h pv0]> h)) as (h' & Hrun & Hout & Hin).
    + exact Hnd.
    + intros l Hl. rewrite lookup_insert_ne.
      * apply Hal. right. exact Hl.
      * intros ->. contradiction.
    + intros name l Hn. destruct (Hch _ _ Hn) as [Hnotin (o & Ho & Hlen)].
      split.
      * intros Hl. apply Hnotin. right. exact Hl.
      * exists o. split; [|exact Hlen].
        rewrite lookup_insert_ne; [exact Ho|].
        intros ->. apply Hnotin. left.
    + exists h'. split.
      { unfold merge_blocks. simpl. unfold bind at 1. rewrite Hstep.
        exact Hrun. }
      split.
      * intros l Hl. rewrite Hout.
        -- apply lookup_insert_ne. intros ->. apply Hl. left.
        -- intros Hr. apply Hl. right. exact Hr.
      * intros l pv Hl Hp. apply list_elem_of_In in Hl. destruct Hl as [<-|Hl].
        -- rewrite Hout by exact Hl0. rewrite lookup_insert_eq.
           congruence.
        -- apply list_elem_of_In in Hl.
           assert (l <> l0) by (intros ->; contradiction).
           rewrite (Hin l pv Hl).
           ++ f_equal. unfold merged.
              destruct (namedBlocks p !! nb_Name pv) as [ours|] eqn:Hn;
                [|reflexivity].
              destruct (Hch _ _ Hn) as [Hnotin _].
              rewrite lookup_insert_ne; [reflexivity|].
              intros ->. apply Hnotin. left.
           ++ rewrite lookup_insert_ne by auto. exact Hp.
Qed.

(** C1: the merge step of [Parse].  Let [prevs] list the named blocks
    of the parent, in whatever order the map is ranged over, as distinct
    objects, none of them shared with the child's table, and let the
    fuel exceed the number of children of each block of the child.
    Then the merge ends normally, leaves the child parser as it was,
    and for every parent block [pv]: if the child's table has no entry
    under the name of [pv], the block is unchanged; if it has one,
    [ours], then with modifier Append the children of [pv] are its old
    children followed by those of [ours], with Prepend those of [ours]
    followed by its old children, and with the default modifier those of
    [ours] alone, each list in its own order. *)
Theorem merge_applies_modifiers fuel (p : Parser') (h : Heap)
  (prevs : list loc) :
  NoDup prevs ->
  (forall l : loc, l ∈ prevs -> is_Some (h !! l)) ->
  (forall (name : string) (l : loc), namedBlocks p !! name = Some l ->
     (l ∉ prevs) /\
     exists o, h !! l = Some o /\
               (List.length (Children (nb_Block o)) < fuel)%nat) ->
  exists h' : Heap,
    merge_blocks (knot fuel) prevs (p, h) = Ok tt (p, h') /\
    forall prev pv, prev ∈ prevs -> h !! prev = Some pv ->
      match namedBlocks p !! nb_Name pv with
      | None => h' !! prev = Some pv
      | Some ours =>
          exists o, h !! ours = Some o /\
            h' !! prev
            = Some (with_Children pv
                      match nb_Modifier o with
                      | NamedBlockAppend =>
                          Children (nb_Block pv) ++ Children (nb_Block o)
                      | NamedBlockPrepend =>
                          Children (nb_Block o) ++ Children (nb_Block pv)
                      | NamedBlockDefault => Children (nb_Block o)
                      end)
      end.
Proof.
  intros Hnd Hal Hch.
  destruct (merge_blocks_run fuel p prevs h Hnd Hal Hch)
    as (h' & Hrun & _ & Hin).
  exists h'. split; [exact Hrun|].
  intros prev pv Hprev Hpv. specialize (Hin prev pv Hprev Hpv).
  unfold merged in Hin.
  destruct (namedBlocks p !! nb_Name pv) as [ours|] eqn:Hn; [|exact Hin].
  destruct (Hch _ _ Hn) as [_ (o & Ho & _)].
  exists o. split; [exact Ho|]. rewrite Ho in Hin. rewrite Hin.
  destruct (nb_Modifier o); reflexivity.
Qed.

#[local] Arguments Parse {scanner} scanner_Next scanner_Pos {FileSystem} rec runtime_Stack _.
#[local] Arguments Parse_on {scanner} scanner_Next scanner_Pos {FileSystem} rec runtime_Stack q _.
#[local] Arguments Parse_parent {scanner FileSystem} rec q _.
#[local] Arguments Parse_recover {scanner} scanner_Pos {FileSystem} runtime_Stack {A} r _.
#[local] Arguments result {scanner FileSystem} p.
#[local] Arguments parent {scanner FileSystem} p.
#[local] Arguments set_result {scanner FileSystem} r p.
#[local] Arguments set_parent {scanner FileSystem} q p.
#[local] Arguments r_Parse {scanner FileSystem} _ _ _.
#[local] Arguments the_parser {scanner FileSystem} _.
#[local] Arguments update_parser {scanner FileSystem} f _.
#[local] Arguments pos {scanner} scanner_Pos {FileSystem} _.

Lemma bind_Ok_inv {S A B} (m : M S A) (k : A -> M S B) s b s' :
  bind m k s = Ok b s' -> exists a s1, m s = Ok a s1 /\ k a s1 = Ok b s'.
Proof.
  unfold bind. destruct (m s) as [a s1| |]; [eauto|discriminate|discriminate].
Qed.

Lemma recovering_Ok_inv {S A} (m : M S A) (hd : panicval -> M S A) s a s' :
  (forall r s0 a0 s1, hd r s0 <> Ok a0 s1) ->
  recovering m hd s = Ok a s' -> m s = Ok a s'.
Proof.
  intros Hh. unfold recovering. destruct (m s) as [a0 s0|r s0|]; auto.
  intros H. exfalso. exact (Hh _ _ _ _ H).
Qed.

Lemma Parse_recover_not_Ok {A} r (s0 : State) (a0 : A) s1 :
  Parse_recover scanner_Pos runtime_Stack r s0 <> Ok a0 s1.
Proof.
  unfold Parse_recover. destruct r as [rs|rs].
  - destruct (len rs <? len "Jade Error"); [discriminate|].
    destruct (HasPrefix rs "Jade Error"); [discriminate|].
    unfold bind, pos, the_parser, gets, ret. cbn.
    destruct (_ <? _); discriminate.
  - unfold bind, pos, the_parser, gets, ret. cbn.
    destruct (_ <? _); discriminate.
Qed.

(** A successful [Parse] returns a block and leaves it in [result]. *)
Lemma Parse_sets_result fuel :
  forall (s s' : State) r,
    Parse scanner_Next scanner_Pos (knot fuel) runtime_Stack s = Ok r s' ->
    result (fst s') = r /\ is_Some r.
Proof.
  induction fuel as [|n IH]; intros s s' r H.
  - unfold Parse in H. apply bind_Ok_inv in H as (p & s1 & Hp & H).
    unfold the_parser, gets in Hp. injection Hp as <- <-.
    destruct (result (fst s)) as [b|] eqn:Hres.
    + injection H as <- <-. split; [exact Hres|eauto].
    + apply recovering_Ok_inv in H; [|apply Parse_recover_not_Ok].
      apply bind_Ok_inv in H as (? & s2 & _ & H).
      apply bind_Ok_inv in H as (? & s3 & H & _).
      discriminate.
  - unfold Parse in H. apply bind_Ok_inv in H as (p & s1 & Hp & H).
    unfold the_parser, gets in Hp. injection Hp as <- <-.
    destruct (result (fst s)) as [b|] eqn:Hres.
    + injection H as <- <-. split; [exact Hres|eauto].
    + apply recovering_Ok_inv in H; [|apply Parse_recover_not_Ok].
      apply bind_Ok_inv in H as (? & s2 & _ & H).
      apply bind_Ok_inv in H as (blk & s3 & _ & H).
      apply bind_Ok_inv in H as (p3 & s3' & Hp3 & H).
      unfold the_parser, gets in Hp3. injection Hp3 as <- <-.
      apply bind_Ok_inv in H as (block & s4 & Hblock & H).
      apply bind_Ok_inv in H as (? & s5 & Hupd & H).
      unfold ret in H. injection H as Hr Hs.
      unfold update_parser, modify in Hupd. injection Hupd as Hs5.
      subst s' s5 r. cbn [fst snd]. split; [destruct s4; reflexivity|].
      destruct (parent (fst s3)) as [q|].
      * apply bind_Ok_inv in Hblock as (b1 & s6 & Hpar & Hblock).
        apply bind_Ok_inv in Hblock as (p6 & s6' & Hp6 & Hblock).
        unfold the_parser, gets in Hp6. injection Hp6 as <- <-.
        unfold Parse_parent in Hpar. simpl r_Parse in Hpar.
        unfold Parse_on in Hpar.
        destruct (Parse _ _ _ _ (q, snd s3)) as [b0 s0| |] eqn:HP;
          try discriminate.
        injection Hpar as <- <-. cbn [fst snd parent set_parent] in Hblock.
        apply bind_Ok_inv in Hblock as (? & s7 & _ & Hblock).
        injection Hblock as <- <-.
        destruct (IH _ _ _ HP) as [-> Hsome]. exact Hsome.
      * injection Hblock as <- <-. eauto.
Qed.

(** C3: once [Parse] has returned normally on a parser, it returned a
    block, and every further [Parse] on that parser, whatever the fuel,
    returns the same block and leaves the parser, its scanner included,
    and the store of named blocks exactly as they were: no token is
    read, nothing is parsed or merged again. *)
Theorem Parse_returns_cached_result (fuel : nat) (s s' : State)
  (r : option Block) :
  Parser_Parse scanner FileData newScanner scanner_Next scanner_Pos
    scanner_readRaw FileSystem fs_ReadFile os_PathSeparator
    os_IsPathSeparator filepath_Dir filepath_Base filepath_Join IsRawText
    mixin_parameters call_arguments runtime_Stack fuel s = Ok r s' ->
  (exists b, r = Some b) /\
  forall fuel' : nat,
    Parser_Parse scanner FileData newScanner scanner_Next scanner_Pos
      scanner_readRaw FileSystem fs_ReadFile os_PathSeparator
      os_IsPathSeparator filepath_Dir filepath_Base filepath_Join IsRawText
      mixin_parameters call_arguments runtime_Stack fuel' s' = Ok r s'.
Proof.
  unfold Parser_Parse. intros H.
  destruct (Parse_sets_result fuel s s' r H) as [Hres [b ->]].
  split; [eauto|].
  intros fuel'. unfold Parse, bind, the_parser, gets.
  rewrite Hres. unfold ret. destruct s'; reflexivity.
Qed.

Local Abbreviation parseExtends' :=
  (parseExtends scanner FileData newScanner scanner_Next FileSystem
     fs_ReadFile os_PathSeparator os_IsPathSeparator filepath_Dir
     filepath_Base filepath_Join).
Local Abbreviation parseRelativeFile' :=
  (parseRelativeFile scanner FileData newScanner FileSystem fs_ReadFile
     os_PathSeparator os_IsPathSeparator filepath_Dir filepath_Base
     filepath_Join).
Local Abbreviation Parser_Parse' :=
  (Parser_Parse scanner FileData newScanner scanner_Next scanner_Pos
     scanner_readRaw FileSystem fs_ReadFile os_PathSeparator
     os_IsPathSeparator filepath_Dir filepath_Base filepath_Join IsRawText
     mixin_parameters call_arguments runtime_Stack).


End ParserFacts.

(** *** The claims on the sample files *)

Example extends_append :
  Sample.children_at 1%positive
    (Sample.Parse 40 (Sample.child_parser "append", empty))
  = Some ["P1"; "P2"; "C1"; "C2"].
Proof. vm_compute. reflexivity. Qed.

Example extends_prepend :
  Sample.children_at 1%positive
    (Sample.Parse 40 (Sample.child_parser "prepend", empty))
  = Some ["C1"; "C2"; "P1"; "P2"].
Proof. vm_compute. reflexivity. Qed.

Example extends_default :
  Sample.children_at 1%positive
    (Sample.Parse 40 (Sample.child_parser EmptyString, empty))
  = Some ["C1"; "C2"].
Proof. vm_compute. reflexivity. Qed.

Lemma merge_applies_modifiers_witness :
  exists h' : Heap,
    merge_blocks _ _ (Sample.knot 3) [1%positive]
      (Sample.child, Sample.store_of NamedBlockAppend)
    = Ok tt (Sample.child, h') /\
    Children <$> (nb_Block <$> h' !! 1%positive)
    = Some [Sample.leaf "P1"; Sample.leaf "P2";
            Sample.leaf "C1"; Sample.leaf "C2"].
Proof.
  destruct (merge_applies_modifiers (fun d => d) Sample.scanner_Next
              Sample.scanner_Pos (fun s => s) Sample.fs_ReadFile "/"%char
              (fun a => Ascii.eqb a "/"%char) Sample.filepath_Dir
              Sample.filepath_Base Sample.filepath_Join Sample.IsRawText
              Sample.arguments Sample.arguments EmptyString
              3 Sample.child (Sample.store_of NamedBlockAppend) [1%positive])
    as (h' & Hrun & Hall).
  - apply NoDup_singleton.
  - intros l Hl. apply list_elem_of_singleton in Hl. subst l.
    exists Sample.parent_X. reflexivity.
  - intros name l Hl. simpl in Hl.
    apply lookup_insert_Some in Hl as [[_ <-]|[_ Hl]].
    + split.
      * intros H. apply list_elem_of_singleton in H. discriminate.
      * exists (Sample.child_X NamedBlockAppend).
        split; [reflexivity|]. simpl. lia.
    + rewrite lookup_empty in Hl. discriminate.
  - exists h'. split; [exact Hrun|].
    specialize (Hall 1%positive Sample.parent_X).
    destruct Hall as (o & Ho & Hres); [left|reflexivity|].
    injection Ho as <-. unfold loc in *. rewrite Hres. reflexivity.
Defined.

Lemma Parse_returns_cached_result_witness :
  exists r s',
    Sample.Parse 40 (Sample.child_parser "append", empty) = Ok r s' /\
    (exists b, r = Some b) /\
    forall fuel' : nat, Sample.Parse fuel' s' = Ok r s'.
Proof.
  eexists _, _. split.
  - vm_compute. reflexivity.
  - apply (Parse_returns_cached_result (fun d => d) Sample.scanner_Next
             Sample.scanner_Pos (fun s => s) Sample.fs_ReadFile "/"%char
             (fun a => Ascii.eqb a "/"%char) Sample.filepath_Dir
             Sample.filepath_Base Sample.filepath_Join Sample.IsRawText
             Sample.arguments Sample.arguments EmptyString
             40 (Sample.child_parser "append", empty)).
    vm_compute. reflexivity.
Defined.


(** ** The expression transpiler *)


(** ** The expression transpiler *)

Lemma append_assoc (a b c : string) : (a ++ b) ++ c = a ++ (b ++ c).
Proof.
  induction a as [|x a IH]; [reflexivity|].
  change (String x ((a ++ b) ++ c) = String x (a ++ (b ++ c))).
  f_equal. exact IH.
Qed.

(** [strconv.Itoa] is injective. *)
Lemma Itoa_inj (a b : Z) : Itoa a = Itoa b -> a = b.
Proof.
  unfold Itoa. intros H.
  assert (Hnn : forall z, Z.to_int z <> Decimal.Pos Decimal.Nil
                          /\ Z.to_int z <> Decimal.Neg Decimal.Nil).
  { intros [|p|p]; simpl; split; try discriminate;
      intros E; injection E as E; exact (Unsigned.to_uint_nonnil _ E). }
  apply to_int_inj.
  assert (E : NilZero.int_of_string (NilZero.string_of_int (Z.to_int a))
              = NilZero.int_of_string (NilZero.string_of_int (Z.to_int b)))
    by (rewrite H; reflexivity).
  rewrite !NilZero.isi in E by apply Hnn. congruence.
Qed.

Lemma wrap_int_next (j : Z) :
  - 2 ^ 63 <= j < 2 ^ 63 -> wrap_int (j + 1) <> j.
Proof.
  unfold wrap_int. intros Hj H.
  assert (E : (j + 1 + 2 ^ 63) mod 2 ^ 64 = j + 2 ^ 63) by lia.
  destruct (Z.eq_dec j (2 ^ 63 - 1)) as [->|Hne].
  - vm_compute in E. discriminate.
  - rewrite Z.mod_small in E by lia. lia.
Qed.

Lemma wrap_int_range (z : Z) : - 2 ^ 63 <= wrap_int z < 2 ^ 63.
Proof.
  unfold wrap_int.
  pose proof (Z.mod_pos_bound (z + 2 ^ 63) (2 ^ 64) ltac:(lia)). lia.
Qed.

Section CompilerFacts.

Context (FuncMap : gset string).

Lemma eff_weaken {A} (m : M XS A) (R R' : list string -> list string -> Prop) :
  eff m R -> (forall x y, R x y -> R' x y) -> eff m R'.
Proof. intros H HR s a s' E. apply HR. exact (H s a s' E). Qed.

Lemma eff_bind {A B} (m : M XS A) (k : A -> M XS B) R1 R2 :
  eff m R1 -> (forall a, eff (k a) R2) ->
  eff (bind m k) (fun x z => exists y, R1 x y /\ R2 y z).
Proof.
  intros H1 H2 s b s' E. unfold bind in E.
  destruct (m s) as [a s1| |] eqn:Em; try discriminate.
  exists (snd s1). split; [exact (H1 _ _ _ Em)|exact (H2 _ _ _ _ E)].
Qed.

Lemma eff_ret {A} (a : A) : eff (ret a) eq.
Proof. intros s a' s' E. injection E as _ <-. reflexivity. Qed.

Lemma eff_panic {A} p R : eff (@panic XS A p) R.
Proof. intros s a s' E. discriminate. Qed.

Lemma eff_get : eff (@get XS) eq.
Proof. intros s a s' E. injection E as _ <-. reflexivity. Qed.

Lemma eff_liftC {A} (m : M Compiler A) : eff (liftC m) eq.
Proof.
  intros s a s' E. unfold liftC, lift_fst in E.
  destruct (m (fst s)); try discriminate. injection E as _ <-. reflexivity.
Qed.

Lemma eff_pop : eff pop (fun x y => y = tl x).
Proof.
  intros s a s' E. unfold pop in E. destruct s as [c [|v stk]]; simpl in E;
    injection E as _ <-; reflexivity.
Qed.

Lemma eff_PushFront v : eff (PushFront v) pushes_one.
Proof.
  intros s a s' E. unfold PushFront in E. injection E as E. subst s'.
  exists v. reflexivity.
Qed.

Lemma eff_if {A} (b : bool) (m1 m2 : M XS A) R :
  eff m1 R -> eff m2 R -> eff (if b then m1 else m2) R.
Proof. destruct b; auto. Qed.

(** Chains of stack effects that end one element above the start. *)
Ltac eff_steps :=
  repeat first
    [ apply eff_liftC
    | apply eff_pop
    | apply eff_PushFront
    | apply eff_ret
    | apply eff_get
    | apply eff_panic
    | eapply eff_bind; [|intros ?] ].

(** Open the chain of intermediate stacks that [eff_bind] builds. *)
Ltac eff_open :=
  cbv beta; unfold pushes_one; intros;
  repeat match goal with
         | H : exists _, _ |- _ => destruct H
         | H : _ /\ _ |- _ => destruct H
         end;
  subst; simpl.

Lemma eff_binary_primitive op : eff (binary_primitive op) eq.
Proof.
  destruct op; simpl;
    try (eapply eff_weaken; [eff_steps|]; eff_open; reflexivity);
    apply eff_panic.
Qed.

Lemma eff_unary_primitive op : eff (unary_primitive op) eq.
Proof. destruct op; simpl; try apply eff_liftC; apply eff_panic. Qed.

Lemma eff_exec_Ident name : eff (exec_Ident FuncMap name) pushes_one.
Proof.
  unfold exec_Ident.
  repeat (apply eff_if); try apply eff_PushFront.
  eapply eff_weaken.
  - eapply eff_bind; [apply eff_get|]. intros s.
    apply eff_if; apply eff_PushFront.
  - eff_open. eauto.
Qed.

Lemma pops_pushes n x y z : pushes n x y -> pops n y z -> z = x.
Proof.
  intros (vs & Hlen & ->) ->. revert n Hlen.
  induction vs as [|v vs IH]; intros n Hlen; simpl in Hlen; subst n.
  - reflexivity.
  - rewrite Nat.iter_succ_r. simpl. apply IH. reflexivity.
Qed.

Lemma eff_pop_args (Args : list Expr) :
  eff (forM_ Args (fun _ : Expr =>
         liftC (write " ") ;;; a <- pop ;; liftC (write a)))
    (pops (List.length Args)).
Proof.
  induction Args as [|a Args IH]; simpl.
  - intros s x s' E. injection E as _ <-. reflexivity.
  - eapply eff_weaken.
    + eapply eff_bind; [|intros ?; exact IH].
      eff_steps.
    + unfold pops. eff_open.
      first [reflexivity | apply Nat.iter_swap | symmetry; apply Nat.iter_swap].
Qed.

(** [exec] leaves exactly one more value on the stack; the second
    part carries the receiver of a selector through the induction. *)
Lemma exec_pushes_one_strong (e : Expr) :
  eff (exec FuncMap e) pushes_one /\
  match e with
  | SelectorExpr X _ => eff (exec FuncMap X) pushes_one
  | _ => True
  end.
Proof.
  induction e as [X Op Y [IHX _] [IHY _]|Op X [IHX _]|X [IHX _]|v|n
                 |X Sel [IHX _]|Fun Args [IHF IHS] IHA|t]
    using Expr_nested_ind; (split; [|try exact I]).
  - cbn [exec].
    eapply eff_weaken.
    + eapply eff_bind; [exact IHY|]. intros _.
      eapply eff_bind; [exact IHX|]. intros _.
      eapply eff_bind; [apply eff_liftC|]. intros name.
      instantiate (1 := fun x y => exists v, y = v :: tl (tl x)).
      destruct Op;
        try (eapply eff_weaken;
             [ eapply eff_bind; [apply eff_liftC|]; intros _;
               eapply eff_bind; [apply eff_binary_primitive|]; intros negate;
               eapply eff_bind; [apply eff_pop|]; intros a;
               eapply eff_bind; [apply eff_pop|]; intros b;
               eapply eff_bind; [apply eff_liftC|]; intros _;
               apply eff_if;
               [ apply eff_PushFront
               | eapply eff_weaken; [ eff_steps | eff_open; eauto ] ]
             | eff_open; eauto ]).
      eapply eff_weaken; [eff_steps|]. eff_open. eauto.
    + eff_open. eauto.
  - cbn [exec]. eapply eff_weaken.
    + eapply eff_bind; [exact IHX|]. intros _.
      eapply eff_bind; [apply eff_liftC|]. intros name.
      eapply eff_bind; [apply eff_liftC|]. intros _.
      eapply eff_bind; [apply eff_unary_primitive|]. intros _.
      eapply eff_bind; [apply eff_pop|]. intros a.
      eapply eff_bind; [apply eff_liftC|]. intros _.
      apply eff_PushFront.
    + eff_open. eauto.
  - exact IHX.
  - apply eff_PushFront.
  - apply eff_exec_Ident.
  - cbn [exec]. eapply eff_weaken.
    + eapply eff_bind; [exact IHX|]. intros _.
      eapply eff_bind; [apply eff_pop|]. intros x.
      eapply eff_bind; [apply eff_liftC|]. intros name.
      eapply eff_bind; [apply eff_liftC|]. intros _.
      apply eff_PushFront.
    + eff_open. eauto.
  - exact IHX.
  - cbn [exec].
    assert (Hargs : eff ((fix exec_args (l : list Expr) : M XS unit :=
                            match l with
                            | [] => ret tt
                            | a :: l' => exec_args l' ;;; exec FuncMap a
                            end) Args) (pushes (List.length Args))).
    { clear IHF IHS. induction Args as [|a Args IH].
      - intros s x s' E. injection E as _ <-. exists []. split; reflexivity.
      - apply Forall_cons in IHA as [[Ha _] IHA]. eapply eff_weaken.
        + eapply eff_bind; [exact (IH IHA)|]. intros _. exact Ha.
        + unfold pushes. eff_open.
          eexists (_ :: _). split; cycle 1; [reflexivity|simpl; congruence]. }
    assert (Hcallee : forall name,
      eff (match Fun with
           | Ident fname =>
               if is_builtin fname then
                 PushFront fname ;;;
                 f <- pop ;;
                 liftC (write ("{{" ++ name ++ " := " ++ f))
               else
                 exec FuncMap Fun ;;;
                 f <- pop ;;
                 liftC (write ("{{" ++ name ++ " := " ++ f))
           | SelectorExpr X Sel =>
               exec FuncMap X ;;;
               x <- pop ;;
               let x := if String.eqb x "." then EmptyString else x in
               liftC (write ("{{" ++ name ++ " := " ++ x ++ "." ++ Sel ++ " "))
           | _ =>
               exec FuncMap Fun ;;;
               f <- pop ;;
               liftC (write ("{{" ++ name ++ " := " ++ f))
           end) eq).
    { intros name.
      assert (Hgen : eff (exec FuncMap Fun ;;;
                          f <- pop ;;
                          liftC (write ("{{" ++ name ++ " := " ++ f))) eq).
      { eapply eff_weaken.
        - eapply eff_bind; [exact IHF|]. intros _.
          eapply eff_bind; [apply eff_pop|]. intros f. apply eff_liftC.
        - eff_open. reflexivity. }
      destruct Fun; try exact Hgen.
      - apply eff_if; [|exact Hgen].
        eapply eff_weaken.
        + eapply eff_bind; [apply eff_PushFront|]. intros _.
          eapply eff_bind; [apply eff_pop|]. intros f. apply eff_liftC.
        + eff_open. reflexivity.
      - eapply eff_weaken.
        + eapply eff_bind; [exact IHS|]. intros _.
          eapply eff_bind; [apply eff_pop|]. intros f. apply eff_liftC.
        + eff_open. reflexivity. }
    eapply eff_weaken.
    + eapply eff_bind; [exact Hargs|]. intros _.
      eapply eff_bind; [apply eff_liftC|]. intros name.
      eapply eff_bind; [apply Hcallee|]. intros _.
      eapply eff_bind; [apply eff_pop_args|]. intros _.
      eapply eff_bind; [apply eff_liftC|]. intros _.
      apply eff_PushFront.
    + cbv beta. intros x y (z1 & H1 & z2 & <- & z3 & <- & z4 & H4 & z5 & <- & v & ->).
      rewrite (pops_pushes _ _ _ _ H1 H4). exists v. reflexivity.
  - apply eff_panic.
Qed.

Lemma exec_pushes_one (e : Expr) c stk c' stk' :
  exec FuncMap e (c, stk) = Ok tt (c', stk') -> exists v, stk' = v :: stk.
Proof. intros H. exact (proj1 (exec_pushes_one_strong e) _ _ _ H). Qed.

Lemma tempname_inj (a b : Z) : tempname a = tempname b -> a = b.
Proof. unfold tempname. intros H. apply Itoa_inj. injection H as H. exact H. Qed.

(** C2: for [!=], [<=] and [>=] (with the complementary primitive
    eql, gtr, lss), once the right and then the left operand are
    lowered, [exec] has left their two value references [x] and [y] on
    the stack; it binds the next temporary to the primitive applied to
    [x] and [y], binds the temporary after that, a different one, to
    [not] of the first, and leaves that second temporary as the value
    reference of the expression. *)
Theorem negated_comparison_lowering (X Y : Expr) (op : Token)
  (primitive : string) (c0 c1 c2 : Compiler) (stk stk1 stk2 : list string) :
  complementary_primitive op = Some primitive ->
  exec FuncMap Y (c0, stk) = Ok tt (c1, stk1) ->
  exec FuncMap X (c1, stk1) = Ok tt (c2, stk2) ->
  exists x y : string,
    stk2 = x :: y :: stk /\
    let name := tempname (wrap_int (tempvarIndex c2 + 1)) in
    let negname := tempname (wrap_int (wrap_int (tempvarIndex c2 + 1) + 1)) in
    name <> negname /\
    exec FuncMap (BinaryExpr X op Y) (c0, stk)
    = Ok tt
        (mkCompiler (options c2) (c_filename c2) (node c2) (indentLevel c2)
           (newline c2)
           (buffer c2
            ++ ("{{" ++ name ++ " := " ++ primitive ++ x ++ " " ++ y ++ "}}")
            ++ ("{{" ++ negname ++ " := not " ++ name ++ "}}"))
           (wrap_int (wrap_int (tempvarIndex c2 + 1) + 1)) (mixins c2),
         negname :: stk).
Proof.
  intros Hprim HY HX.
  destruct (exec_pushes_one _ _ _ _ _ HY) as [y ->].
  destruct (exec_pushes_one _ _ _ _ _ HX) as [x ->].
  exists x, y. split; [reflexivity|]. cbv zeta. split.
  - intros H. apply tempname_inj in H. symmetry in H. revert H.
    apply wrap_int_next. apply wrap_int_range.
  - cbn [exec]. unfold bind at 1. rewrite HY. unfold bind at 1. rewrite HX.
    destruct op; try discriminate; injection Hprim as <-;
      cbv [bind liftC lift_fst tempvar write modify get ret pop PushFront
           binary_primitive fst snd negb set_buffer set_tempvarIndex
           options c_filename node indentLevel newline buffer tempvarIndex
           mixins];
      unfold tempname; rewrite !append_assoc; reflexivity.
Qed.
Lemma hasFunctionWithName_iff (c : Compiler) (name : string) :
  hasFunctionWithName FuncMap c name = true
  <-> name ∈ Funcs (options c) \/ name ∈ FuncMap.
Proof.
  unfold hasFunctionWithName.
  destruct (bool_decide (name ∈ Funcs (options c))) eqn:E1.
  - apply bool_decide_eq_true in E1. tauto.
  - apply bool_decide_eq_false in E1.
    destruct (bool_decide (name ∈ FuncMap)) eqn:E2.
    + apply bool_decide_eq_true in E2. tauto.
    + apply bool_decide_eq_false in E2. split; [discriminate|tauto].
Qed.

(** C4, as amended: an identifier that does not start with the
    context sigil and is not [nil] is pushed under its own name when
    [hasFunctionWithName] holds of it, and as a field lookup (a leading
    dot) otherwise; [hasFunctionWithName] holds exactly of the names in
    the custom function map or in the runtime [FuncMap]; the identifier
    [nil] is pushed unchanged. *)
Theorem identifier_resolution (c : Compiler) (stk : list string)
  (name : string) :
  HasPrefix name "__DOLLAR__" = false ->
  name <> "nil" ->
  exec FuncMap (Ident name) (c, stk)
  = Ok tt (c, (if hasFunctionWithName FuncMap c name
               then name else "." ++ name) :: stk)
  /\ (hasFunctionWithName FuncMap c name = true
      <-> name ∈ Funcs (options c) \/ name ∈ FuncMap)
  /\ exec FuncMap (Ident "nil") (c, stk) = Ok tt (c, "nil" :: stk).
Proof.
  intros Hsigil Hnil. split; [|split].
  - cbn [exec]. unfold exec_Ident. rewrite Hsigil, andb_false_r.
    destruct (String.eqb name "nil") eqn:E.
    + apply String.eqb_eq in E. contradiction.
    + unfold bind, get, PushFront. cbn [fst snd].
      destruct (hasFunctionWithName FuncMap c name); reflexivity.
  - apply hasFunctionWithName_iff.
  - reflexivity.
Qed.

End CompilerFacts.

Section TagFacts.

Context (FuncMap : gset string) (ParseExpr : string -> option Expr).

Lemma Index_zero_iff_prefix (s sub : string) :
  (Index s sub =? 0) = HasPrefix s sub.
Proof.
  unfold HasPrefix. destruct s as [|a s].
  - destruct sub; reflexivity.
  - cbn [Index]. destruct (String.prefix sub (String a s)); [reflexivity|].
    destruct (Index s sub <? 0) eqn:E; [reflexivity|].
    apply Z.ltb_ge in E. apply Z.eqb_neq. lia.
Qed.

(** C10: the value of an attribute that is not raw is its transpiled
    expression, wrapped as a [safeJS] interpolation when the name of
    the attribute starts with [on], and as a plain interpolation
    otherwise. *)
Theorem event_attributes_use_safeJS (item : Attribute) :
  attr_IsRaw item = false ->
  attribute_value FuncMap ParseExpr item
  = (v <- visitRawInterpolation FuncMap ParseExpr (attr_Value item) ;;
     ret (if HasPrefix (attr_Name item) "on"
          then "{{ safeJS " ++ v ++ "}}"
          else "{{" ++ v ++ "}}")).
Proof.
  intros Hraw. unfold attribute_value. rewrite Hraw. cbn [negb].
  rewrite Index_zero_iff_prefix.
  destruct (HasPrefix (attr_Name item) "on"); reflexivity.
Qed.

End TagFacts.

(** ** The tag renderer *)


Lemma append_nil_r (s : string) : s ++ EmptyString = s.
Proof.
  induction s as [|a s IH]; [reflexivity|].
  change (String a (s ++ EmptyString) = String a s). f_equal. exact IH.
Qed.

Lemma len_zero (s : string) : (0 <? len s) = false -> s = EmptyString.
Proof. destruct s; [reflexivity|]. unfold len. simpl. intros H. apply Z.ltb_ge in H. lia. Qed.

Lemma collect_attrib_other (tbl : gmap string attrib) (a : attrib) (n : string) :
  n <> a_name a -> collect_attrib tbl a !! n = tbl !! n.
Proof.
  intros Hn. unfold collect_attrib.
  destruct (String.eqb (a_name a) "class") eqn:E.
  - apply String.eqb_eq in E.
    destruct (tbl !! "class"); apply lookup_insert_ne; congruence.
  - apply lookup_insert_ne. congruence.
Qed.






Lemma write_attribute_text (attribs : gmap string attrib) (n : string)
  (v : attrib) (c : Compiler) :
  attribs !! n = Some v ->
  write_attribute attribs n c
  = Ok tt (set_buffer (buffer c ++ attribute_text n v) c).
Proof.
  intros H. unfold write_attribute, attribute_text. rewrite H.
  destruct c as [o f nd il nw b ti mx].
  destruct (0 <? len (a_condition v));
    destruct (String.eqb (a_value v) EmptyString);
    cbv [bind ret write modify set_buffer buffer options c_filename node
         indentLevel newline tempvarIndex mixins];
    rewrite ?append_assoc, ?append_nil_r; reflexivity.
Qed.

Lemma emit_attributes (attribs : gmap string attrib) (names : list string) :
  forall c : Compiler,
    (forall n, n ∈ names -> is_Some (attribs !! n)) ->
    forM_ names (write_attribute attribs) c
    = Ok tt (set_buffer (buffer c ++ attributes_text attribs names) c).
Proof.
  induction names as [|n names IH]; intros c Hall.
  - simpl. rewrite append_nil_r. destruct c as [o f nd il nw b ti mx]; reflexivity.
  - destruct (Hall n) as [v Hv]; [left|].
    cbn [forM_ attributes_text]. rewrite Hv. unfold bind.
    rewrite (write_attribute_text _ _ _ _ Hv).
    rewrite IH by (intros m Hm; apply Hall; right; exact Hm).
    destruct c as [o f nd il nw b ti mx].
    cbn [buffer set_buffer options c_filename node indentLevel
         newline tempvarIndex mixins].
    rewrite append_assoc. reflexivity.
Qed.

Lemma attrNames_elem (attribs : gmap string attrib) (n : string) :
  n ∈ attrNames attribs <-> is_Some (attribs !! n).
Proof.
  unfold attrNames, sort_Strings. rewrite merge_sort_Permutation.
  rewrite list_elem_of_fmap. split.
  - intros ([k v] & -> & H). apply elem_of_map_to_list in H. eauto.
  - intros [v H]. exists (n, v). split; [reflexivity|].
    apply elem_of_map_to_list. exact H.
Qed.

Lemma attrNames_NoDup (attribs : gmap string attrib) :
  NoDup (attrNames attribs).
Proof.
  unfold attrNames, sort_Strings. rewrite merge_sort_Permutation.
  apply NoDup_fst_map_to_list.
Qed.

Lemma attrNames_sorted (attribs : gmap string attrib) :
  StronglySorted String.le (attrNames attribs).
Proof. apply StronglySorted_merge_sort; apply _. Qed.

(** The sorted names depend on the set of names only. *)
Lemma attrNames_dom (t1 t2 : gmap string attrib) :
  dom t1 = dom t2 -> attrNames t1 = attrNames t2.
Proof.
  intros Hd. apply (StronglySorted_unique String.le).
  - apply attrNames_sorted.
  - apply attrNames_sorted.
  - apply NoDup_Permutation; try apply attrNames_NoDup.
    intros n. rewrite !attrNames_elem, <- !elem_of_dom, Hd. reflexivity.
Qed.

Lemma collect_attrib_dom (tbl : gmap string attrib) (a : attrib) :
  dom (collect_attrib tbl a) = {[a_name a]} ∪ dom tbl.
Proof.
  unfold collect_attrib.
  destruct (String.eqb (a_name a) "class") eqn:E.
  - apply String.eqb_eq in E.
    destruct (tbl !! "class") eqn:H; rewrite dom_insert_L; rewrite E; reflexivity.
  - apply dom_insert_L.
Qed.

Lemma fold_collect_dom (l : list attrib) :
  forall tbl : gmap string attrib,
    dom (fold_left collect_attrib l tbl)
    = list_to_set (map a_name l) ∪ dom tbl.
Proof.
  induction l as [|a l IH]; intros tbl; simpl.
  - rewrite union_empty_l_L. reflexivity.
  - rewrite IH, collect_attrib_dom.
    rewrite (assoc_L union). f_equal. apply (comm_L union).
Qed.

(** C6: the names the emission loop runs over are the keys of the
    table in ascending byte-wise order, each once; the loop writes the
    text of each entry in that order; and two attribute lists that are
    permutations of each other give the same sequence of names. *)
Theorem attributes_emitted_sorted (attribs : gmap string attrib)
  (c : Compiler) :
  StronglySorted String.le (attrNames attribs)
  /\ NoDup (attrNames attribs)
  /\ (forall n : string, n ∈ attrNames attribs <-> is_Some (attribs !! n))
  /\ forM_ (attrNames attribs) (write_attribute attribs) c
     = Ok tt (set_buffer
                (buffer c ++ attributes_text attribs (attrNames attribs)) c)
  /\ (forall l1 l2 : list attrib,
        l1 ≡ₚ l2 ->
        attrNames (fold_left collect_attrib l1 empty)
        = attrNames (fold_left collect_attrib l2 empty)).
Proof.
  split; [apply attrNames_sorted|].
  split; [apply attrNames_NoDup|].
  split; [apply attrNames_elem|].
  split.
  - apply emit_attributes. intros n. apply attrNames_elem.
  - intros l1 l2 Hp. apply attrNames_dom.
    rewrite !fold_collect_dom. f_equal.
    apply set_eq. intros n. rewrite !elem_of_list_to_set.
    rewrite Hp. reflexivity.
Qed.

Section BareAttribute.

Context (FuncMap : gset string) (ParseExpr : string -> option Expr).

Local Abbreviation step := (visitTag_attribute FuncMap ParseExpr).

Lemma bind_Ok_inv' {S A B} (m : M S A) (k : A -> M S B) s b s' :
  bind m k s = Ok b s' -> exists a s1, m s = Ok a s1 /\ k a s1 = Ok b s'.
Proof.
  unfold bind. destruct (m s) as [a s1| |]; [eauto|discriminate|discriminate].
Qed.

Lemma visitTag_attribute_other (tbl tbl' : gmap string attrib)
  (item : Attribute) (c c' : Compiler) (n : string) :
  step tbl item c = Ok tbl' c' ->
  n <> attr_Name item -> tbl' !! n = tbl !! n.
Proof.
  intros H Hn. unfold visitTag_attribute in H.
  apply bind_Ok_inv' in H as (v & c1 & _ & H).
  apply bind_Ok_inv' in H as (cond & c2 & _ & H).
  injection H as <- _. apply collect_attrib_other. exact Hn.
Qed.

Lemma foldM_attributes_other (items : list Attribute) (n : string) :
  forall (tbl tbl' : gmap string attrib) (c c' : Compiler),
    foldM step items tbl c = Ok tbl' c' ->
    n ∉ map attr_Name items -> tbl' !! n = tbl !! n.
Proof.
  induction items as [|it items IH]; intros tbl tbl' c c' H Hn.
  - injection H as <- _. reflexivity.
  - cbn [foldM] in H. apply bind_Ok_inv' in H as (t1 & c1 & H1 & H).
    rewrite (IH _ _ _ _ H).
    + apply (visitTag_attribute_other _ _ _ _ _ _ H1).
      intros ->. apply Hn. left.
    + intros Hin. apply Hn. right. exact Hin.
Qed.

Lemma foldM_app {S A B} (f : B -> A -> M S B) (l1 l2 : list A) :
  forall (b r : B) (s s' : S),
    foldM f (l1 ++ l2) b s = Ok r s' ->
    exists b1 s1, foldM f l1 b s = Ok b1 s1 /\ foldM f l2 b1 s1 = Ok r s'.
Proof.
  induction l1 as [|x l1 IH]; intros b r s s' H.
  - exists b, s. split; [reflexivity|exact H].
  - cbn [app foldM] in H. apply bind_Ok_inv' in H as (b0 & s0 & H0 & H).
    destruct (IH _ _ _ _ H) as (b1 & s1 & H1 & H2).
    exists b1, s1. split; [|exact H2].
    cbn [foldM]. unfold bind. rewrite H0. exact H1.
Qed.

(** C7, as amended: when a tag declares a raw attribute with an empty
    value, and no other attribute of the tag has its name, then after
    the attributes are collected the table entry of that name has an
    empty value and is written as the bare name (inside the conditional
    of its guard when it has one), with no value part. *)
Theorem raw_empty_attribute_is_bare (pre post : list Attribute)
  (item : Attribute) (attribs : gmap string attrib) (c c' : Compiler) :
  attr_IsRaw item = true ->
  attr_Value item = EmptyString ->
  attr_Name item ∉ map attr_Name (pre ++ post) ->
  foldM step (pre ++ item :: post) empty c = Ok attribs c' ->
  exists a : attrib,
    attribs !! attr_Name item = Some a
    /\ a_value a = EmptyString
    /\ forall c1 : Compiler,
         write_attribute attribs (attr_Name item) c1
         = Ok tt
             (set_buffer
                (buffer c1
                 ++ (if 0 <? len (a_condition a)
                     then "{{if " ++ a_condition a ++ "}}" else EmptyString)
                 ++ (" " ++ attr_Name item)
                 ++ (if 0 <? len (a_condition a)
                     then "{{end}}" else EmptyString)) c1).
Proof.
  intros Hraw Hval Hnot H.
  apply foldM_app in H as (t1 & c1 & Hpre & H).
  cbn [foldM] in H. apply bind_Ok_inv' in H as (t2 & c2 & Hitem & Hpost).
  assert (Ht1 : t1 !! attr_Name item = None).
  { rewrite (foldM_attributes_other _ _ _ _ _ _ Hpre); [apply lookup_empty|].
    intros Hin. apply Hnot. rewrite map_app. apply elem_of_app. left. exact Hin. }
  unfold visitTag_attribute in Hitem.
  apply bind_Ok_inv' in Hitem as (v & c3 & Hv & Hitem).
  apply bind_Ok_inv' in Hitem as (cond & c4 & _ & Hitem).
  injection Hitem as <- _.
  unfold attribute_value in Hv. rewrite Hraw, Hval in Hv. cbn in Hv.
  injection Hv as <- _.
  assert (Hentry : attribs !! attr_Name item
                   = Some (mkAttrib (attr_Name item) EmptyString cond)).
  { rewrite (foldM_attributes_other _ _ _ _ _ _ Hpost).
    - unfold collect_attrib. cbn [a_name].
      destruct (String.eqb (attr_Name item) "class") eqn:E.
      + apply String.eqb_eq in E. rewrite E in Ht1. rewrite Ht1.
        rewrite E. apply lookup_insert_eq.
      + apply lookup_insert_eq.
    - intros Hin. apply Hnot. rewrite map_app. apply elem_of_app. right.
      exact Hin. }
  eexists. split; [exact Hentry|]. split; [reflexivity|].
  intros c0. rewrite (write_attribute_text _ _ _ _ Hentry).
  unfold attribute_text. cbn [a_condition a_value String.eqb].
  reflexivity.
Qed.

End BareAttribute.

(** ** Panics and the entry points *)


Lemma len_app (a b : string) : len (a ++ b) = len a + len b.
Proof.
  unfold len. induction a as [|x a IH].
  { change (EmptyString ++ b) with b. cbn [String.length]. lia. }
  change (String x a ++ b) with (String x (a ++ b)).
  cbn [String.length]. lia.
Qed.

Lemma prefix_len (p s : string) : String.prefix p s = true -> len p <= len s.
Proof.
  unfold len. revert s. induction p as [|a p IH]; intros s H.
  - simpl. lia.
  - destruct s as [|b s]; [discriminate|]. simpl in H.
    destruct (ascii_dec a b); [|discriminate].
    specialize (IH s H). cbn [String.length]. lia.
Qed.

Lemma jade_error_sliceable (p : panicval) : is_jade_error p -> sliceable p.
Proof. destruct p as [s|s]; simpl; [apply prefix_len|tauto]. Qed.

Lemma sliceable_literal (lit rest : string) :
  len "Jade Error" <= len lit -> sliceable (PanicStr (lit ++ rest)).
Proof.
  intros H. unfold sliceable. rewrite len_app.
  pose proof (Nat2Z.is_nonneg (String.length rest)). unfold len in *. lia.
Qed.

Section Goodness.

Context {S : Type}.

Lemma panics_ret {A} P (a : A) : panics P (@ret S A a).
Proof. intros s. exact I. Qed.

Lemma panics_bind {A B} P (m : M S A) (k : A -> M S B) :
  panics P m -> (forall a, panics P (k a)) -> panics P (bind m k).
Proof.
  intros Hm Hk s. unfold bind. specialize (Hm s).
  destruct (m s) as [a s1|p s1|]; [apply Hk|exact Hm|exact I].
Qed.

Lemma panics_panic {A} (P : panicval -> Prop) p : P p -> panics P (@panic S A p).
Proof. intros H s. exact H. Qed.

Lemma panics_get P : panics P (@get S).
Proof. intros s. exact I. Qed.

Lemma panics_gets {A} P (f : S -> A) : panics P (gets f).
Proof. intros s. exact I. Qed.

Lemma panics_modify P (f : S -> S) : panics P (modify f).
Proof. intros s. exact I. Qed.

Lemma panics_out_of_fuel {A} P : panics P (@out_of_fuel S A).
Proof. intros s. exact I. Qed.

Lemma panics_if {A} P (b : bool) (m1 m2 : M S A) :
  panics P m1 -> panics P m2 -> panics P (if b then m1 else m2).
Proof. destruct b; auto. Qed.

Lemma panics_forM_ {A} P (l : list A) (f : A -> M S unit) :
  (forall x, panics P (f x)) -> panics P (forM_ l f).
Proof.
  intros Hf. induction l as [|x l IH]; simpl.
  - apply panics_ret.
  - apply panics_bind; [apply Hf|intros _; exact IH].
Qed.

Lemma panics_foldM {A B} P (f : B -> A -> M S B) (l : list A) :
  (forall b x, panics P (f b x)) -> forall b, panics P (foldM f l b).
Proof.
  intros Hf. induction l as [|x l IH]; intros b; simpl.
  - apply panics_ret.
  - apply panics_bind; [apply Hf|exact IH].
Qed.

Lemma panics_lift_fst {T A} P (m : M S A) :
  panics P m -> panics P (@lift_fst S T A m).
Proof.
  intros Hm s. unfold lift_fst. specialize (Hm (fst s)).
  destruct (m (fst s)); [exact I|exact Hm|exact I].
Qed.

Lemma panics_weaken {A} (P Q : panicval -> Prop) (m : M S A) :
  (forall p, P p -> Q p) -> panics P m -> panics Q m.
Proof.
  intros HPQ Hm s. specialize (Hm s). destruct (m s); auto.
Qed.

End Goodness.

Section CompileFacts.

Context (CanInline : Block -> bool) (IsSelfClosing : Tag -> bool)
  (Doctype_String : string -> string) (FuncMap : gset string)
  (ParseExpr : string -> option Expr).

Local Abbreviation visit' :=
  (visit CanInline IsSelfClosing Doctype_String FuncMap ParseExpr).

Ltac panics_steps :=
  repeat first
    [ apply panics_ret | apply panics_get | apply panics_gets
    | apply panics_modify
    | apply panics_lift_fst
    | apply panics_bind; [|intros ?]
    | apply panics_if
    | apply panics_panic; first [exact I | apply sliceable_literal; vm_compute; discriminate] ].

Lemma panics_write v : panics sliceable (write v).
Proof. apply panics_modify. Qed.

Lemma panics_indent offset nline : panics sliceable (indent offset nline).
Proof.
  unfold indent. apply panics_bind; [apply panics_get|]. intros c.
  apply panics_if; [apply panics_ret|].
  apply panics_bind.
  - apply panics_if; [apply panics_write|apply panics_ret].
  - intros _. apply panics_bind; [apply panics_get|]. intros c1.
    apply panics_forM_. intros _. apply panics_write.
Qed.

Lemma panics_tempvar : panics sliceable tempvar.
Proof. unfold tempvar. panics_steps. Qed.

Lemma panics_pop : panics sliceable pop.
Proof. intros s. unfold pop. destruct (snd s); exact I. Qed.

Lemma panics_PushFront v : panics sliceable (PushFront v).
Proof. intros s. exact I. Qed.

Lemma panics_liftC {A} (m : M Compiler A) :
  panics sliceable m -> panics sliceable (liftC m).
Proof. apply panics_lift_fst. Qed.

Ltac panics_exec :=
  repeat first
    [ apply panics_ret | apply panics_get
    | apply panics_pop | apply panics_PushFront
    | apply panics_liftC; first [apply panics_write | apply panics_tempvar]
    | apply panics_bind; [|intros ?]
    | apply panics_if
    | apply panics_panic; first [exact I | apply sliceable_literal; vm_compute; discriminate] ].

Lemma panics_binary_primitive op : panics sliceable (binary_primitive op).
Proof. destruct op; simpl; panics_exec. Qed.

Lemma panics_unary_primitive op : panics sliceable (unary_primitive op).
Proof. destruct op; simpl; panics_exec. Qed.

Lemma panics_exec_Ident name : panics sliceable (exec_Ident FuncMap name).
Proof. unfold exec_Ident. panics_exec. Qed.

Lemma panics_exec_strong (e : Expr) :
  panics sliceable (exec FuncMap e) /\
  match e with
  | SelectorExpr X _ => panics sliceable (exec FuncMap X)
  | _ => True
  end.
Proof.
  induction e as [X Op Y [IHX _] [IHY _]|Op X [IHX _]|X [IHX _]|v|n
                 |X Sel [IHX _]|Fun Args [IHF IHS] IHA|t]
    using Expr_nested_ind; (split; [|try exact I]).
  - cbn [exec].
    apply panics_bind; [exact IHY|]. intros _.
    apply panics_bind; [exact IHX|]. intros _.
    apply panics_bind; [apply panics_liftC, panics_tempvar|]. intros name.
    destruct Op;
      try (apply panics_bind; [apply panics_liftC, panics_write|]; intros _;
           apply panics_bind; [apply panics_binary_primitive|]; intros negate;
           panics_exec).
    panics_exec.
  - cbn [exec].
    apply panics_bind; [exact IHX|]. intros _.
    apply panics_bind; [apply panics_liftC, panics_tempvar|]. intros name.
    apply panics_bind; [apply panics_liftC, panics_write|]. intros _.
    apply panics_bind; [apply panics_unary_primitive|]. intros _.
    panics_exec.
  - exact IHX.
  - apply panics_PushFront.
  - apply panics_exec_Ident.
  - cbn [exec]. apply panics_bind; [exact IHX|]. intros _. panics_exec.
  - exact IHX.
  - cbn [exec].
    apply panics_bind.
    { clear IHF IHS. induction Args as [|a Args IH].
      - apply panics_ret.
      - apply Forall_cons in IHA as [[Ha _] IHA].
        apply panics_bind; [exact (IH IHA)|]. intros _. exact Ha. }
    intros _.
    apply panics_bind; [apply panics_liftC, panics_tempvar|]. intros name.
    apply panics_bind.
    { assert (Hgen : panics sliceable
                       (exec FuncMap Fun ;;;
                        f <- pop ;;
                        liftC (write ("{{" ++ name ++ " := " ++ f)))).
      { apply panics_bind; [exact IHF|]. intros _. panics_exec. }
      destruct Fun; try exact Hgen.
      - apply panics_if; [panics_exec|exact Hgen].
      - apply panics_bind; [exact IHS|]. intros _. panics_exec. }
    intros _.
    apply panics_bind.
    { apply panics_forM_. intros _. panics_exec. }
    intros _. panics_exec.
  - cbn [exec]. apply panics_panic. apply sliceable_literal.
    vm_compute. discriminate.
Qed.

Lemma panics_visitExpression e : panics sliceable (visitExpression FuncMap e).
Proof.
  intros c. unfold visitExpression.
  assert (H : panics sliceable (exec FuncMap e ;;; pop)).
  { apply panics_bind; [apply panics_exec_strong|]. intros _. apply panics_pop. }
  specialize (H (c, [])). destruct ((exec FuncMap e ;;; pop) (c, [])); auto.
Qed.

Lemma panics_visitRawInterpolation v :
  panics sliceable (visitRawInterpolation FuncMap ParseExpr v).
Proof.
  unfold visitRawInterpolation.
  apply panics_bind.
  - destruct (ParseExpr _); [apply panics_ret|].
    unfold single_quoted_retry.
    destruct (Replace v "$" "__DOLLAR__"); [apply panics_panic; exact I|].
    apply panics_if; apply panics_ret.
  - intros [e|].
    + apply panics_bind; [apply panics_visitExpression|]. intros r.
      apply panics_ret.
    + apply panics_panic. apply sliceable_literal. vm_compute. discriminate.
Qed.

Lemma panics_visitInterpolation v :
  panics sliceable (visitInterpolation FuncMap ParseExpr v).
Proof.
  unfold visitInterpolation.
  apply panics_bind; [apply panics_visitRawInterpolation|]. intros r.
  apply panics_ret.
Qed.

Lemma panics_visitJSInterpolation v :
  panics sliceable (visitJSInterpolation FuncMap ParseExpr v).
Proof.
  unfold visitJSInterpolation.
  apply panics_bind; [apply panics_visitRawInterpolation|]. intros r.
  apply panics_ret.
Qed.

Ltac panics_visit :=
  repeat first
    [ apply panics_ret | apply panics_get
    | apply panics_write | apply panics_indent | apply panics_modify
    | apply panics_visitRawInterpolation
    | apply panics_visitInterpolation
    | apply panics_visitJSInterpolation
    | apply panics_bind; [|intros ?]
    | apply panics_if
    | apply panics_panic; first [exact I | apply sliceable_literal; vm_compute; discriminate] ].

Lemma panics_attribute_value item :
  panics sliceable (attribute_value FuncMap ParseExpr item).
Proof. unfold attribute_value. panics_visit. Qed.

Lemma panics_attribute_condition item :
  panics sliceable (attribute_condition FuncMap ParseExpr item).
Proof. unfold attribute_condition. panics_visit. Qed.

Lemma panics_visitTag_attribute tbl item :
  panics sliceable (visitTag_attribute FuncMap ParseExpr tbl item).
Proof.
  unfold visitTag_attribute.
  apply panics_bind; [apply panics_attribute_value|]. intros v.
  apply panics_bind; [apply panics_attribute_condition|]. intros cnd.
  apply panics_ret.
Qed.

Lemma panics_write_attribute tbl n : panics sliceable (write_attribute tbl n).
Proof. unfold write_attribute. destruct (tbl !! n); panics_visit. Qed.

Lemma panics_interpolate v : panics sliceable (interpolate FuncMap ParseExpr v).
Proof.
  unfold interpolate. apply panics_foldM. intros acc [a|g]; panics_visit.
Qed.

Lemma panics_write_lines lines : panics sliceable (write_lines lines).
Proof.
  induction lines as [|l lines IH]; [apply panics_ret|].
  destruct lines as [|l' lines]; [apply panics_write|].
  cbn [write_lines]. panics_visit. exact IH.
Qed.

Lemma panics_visitText v : panics sliceable (visitText FuncMap ParseExpr v).
Proof.
  unfold visitText. apply panics_bind; [apply panics_interpolate|].
  intros r. apply panics_write_lines.
Qed.

Section Visitors.

Variable h : Heap.
Variable v : Node -> M Compiler unit.
Hypothesis Hv : forall n, panics sliceable (v n).

Lemma panics_visitBlock b : panics sliceable (visitBlock CanInline v b).
Proof.
  destruct b as [b|]; [|apply panics_panic; exact I].
  apply panics_forM_. intros n. panics_visit. apply Hv.
Qed.

Lemma panics_bind_arguments params :
  forall i args nargs,
    panics sliceable (bind_arguments FuncMap ParseExpr i params args nargs).
Proof.
  induction params as [|p params IH]; intros i args nargs;
    [apply panics_ret|].
  destruct args as [|a args]; [apply panics_panic; exact I|].
  cbn [bind_arguments]. panics_visit. apply IH.
Qed.

Lemma panics_visit_switch n :
  panics sliceable
    (visit_switch CanInline IsSelfClosing Doctype_String FuncMap ParseExpr
       h v n).
Proof.
  destruct n as [b|l|sp val|sp val silent blk|t|sp val raw|sp e pos neg
                |sp e X Y blk|sp e esc|sp X e|m|sp name args];
    cbn [visit_switch].
  - apply panics_visitBlock.
  - destruct (h !! l); [apply panics_visitBlock|apply panics_panic; exact I].
  - apply panics_write.
  - unfold visitComment. apply panics_if; [apply panics_ret|].
    apply panics_bind; [apply panics_indent|]. intros _.
    destruct blk; panics_visit. apply panics_visitBlock.
  - unfold visitTag.
    apply panics_bind.
    { apply panics_foldM. intros tbl item. apply panics_visitTag_attribute. }
    intros tbl. apply panics_bind; [apply panics_indent|]. intros _.
    apply panics_bind; [apply panics_write|]. intros _.
    apply panics_bind.
    { apply panics_forM_. intros name. apply panics_write_attribute. }
    intros _. apply panics_if; [apply panics_write|].
    apply panics_bind; [apply panics_write|]. intros _.
    apply panics_bind; [|intros _; apply panics_write].
    destruct (tag_Block t); [|apply panics_ret].
    apply panics_bind; [panics_visit|]. intros _.
    apply panics_bind; [apply panics_visitBlock|]. intros _.
    panics_visit.
  - apply panics_visitText.
  - unfold visitCondition.
    apply panics_bind; [apply panics_visitRawInterpolation|]. intros r.
    apply panics_bind; [apply panics_write|]. intros _.
    apply panics_bind; [apply panics_visitBlock|]. intros _.
    apply panics_bind; [|intros _; apply panics_write].
    destruct neg; [|apply panics_ret].
    apply panics_bind; [apply panics_write|]. intros _.
    apply panics_visitBlock.
  - unfold visitEach. destruct blk; [|apply panics_ret].
    apply panics_bind; [apply panics_visitRawInterpolation|]. intros r.
    apply panics_bind; [panics_visit|]. intros _.
    apply panics_bind; [apply panics_visitBlock|]. intros _.
    apply panics_write.
  - unfold visitBuffered. panics_visit.
  - unfold visitAssignment. panics_visit.
  - apply panics_modify.
  - unfold visitMixinCall. apply panics_bind; [apply panics_get|]. intros c.
    destruct (mixins c !! name); [|apply panics_panic; exact I].
    apply panics_bind; [apply panics_bind_arguments|]. intros _.
    apply panics_visitBlock.
Qed.

End Visitors.

Lemma jade_error_prefix pos r : HasPrefix (jade_error pos r) "Jade Error" = true.
Proof.
  unfold jade_error, HasPrefix.
  destruct (0 <? len (Filename pos)); reflexivity.
Qed.

(** The deferred function of [visit] turns every panic it can take
    into a "Jade Error" string. *)
Lemma visit_recover_jade {A} pos r :
  sliceable r -> panics is_jade_error (@visit_recover A pos r).
Proof.
  intros Hr c. unfold visit_recover. destruct r as [rs|rs].
  - simpl in Hr. apply Z.ltb_ge in Hr. rewrite Hr.
    destruct (HasPrefix rs "Jade Error") eqn:E; simpl.
    + exact E.
    + apply jade_error_prefix.
  - simpl. apply jade_error_prefix.
Qed.

(** Every panic that leaves [visit] is a "Jade Error" string. *)
Lemma visit_panics_jade (fuel : nat) (h : Heap) :
  forall n, panics is_jade_error (visit' fuel h n).
Proof.
  induction fuel as [|fuel IH]; intros n c; [exact I|].
  cbn [visit]. unfold recovering.
  pose proof (panics_visit_switch h (visit' fuel h)
                (fun n' => panics_weaken _ _ _ jade_error_sliceable (IH n'))
                n c) as Hbody.
  destruct (visit_switch _ _ _ _ _ h (visit' fuel h) n c) as [a c1|p c1|];
    [exact I| |exact I].
  apply (visit_recover_jade _ _ Hbody).
Qed.

Local Abbreviation compile_buffer' :=
  (compile_buffer CanInline IsSelfClosing Doctype_String FuncMap ParseExpr).
Local Abbreviation CompileWriter' :=
  (CompileWriter CanInline IsSelfClosing Doctype_String FuncMap ParseExpr).
Local Abbreviation CompileString' :=
  (CompileString CanInline IsSelfClosing Doctype_String FuncMap ParseExpr).





End CompileFacts.

(** *** A traversal that does not end

    [visitMixinCall] visits the block of the mixin with no bound on the
    depth, so a mixin whose block calls it again is visited for ever:
    the Go process runs out of stack, which is no panic that [recover]
    sees.  In the model the traversal runs out of fuel at every
    fuel. *)

Section Exhaustion.

Context (CanInline : Block -> bool) (IsSelfClosing : Tag -> bool)
  (Doctype_String : string -> string) (FuncMap : gset string)
  (ParseExpr : string -> option Expr).

Local Abbreviation visit' :=
  (visit CanInline IsSelfClosing Doctype_String FuncMap ParseExpr).
Local Abbreviation CompileWriter' :=
  (CompileWriter CanInline IsSelfClosing Doctype_String FuncMap ParseExpr).
Local Abbreviation CompileString' :=
  (CompileString CanInline IsSelfClosing Doctype_String FuncMap ParseExpr).



End Exhaustion.

(** *** The compiler claims on sample input *)


Example class_shorthand_renders_joined :
  exists c,
    Sample.CompileString 10 empty (Sample.compact Sample.wrap_container)
    = Ok ("<div class=" ++ dq ++ "wrap container" ++ dq ++ "></div>" ++ nl,
          None) c.
Proof. eexists. vm_compute. reflexivity. Qed.

Lemma negated_comparison_lowering_witness :
  exec Sample.FuncMap (BinaryExpr (Ident "a") NEQ (Ident "b")) (New, [])
  = Ok tt
      (mkCompiler DefaultOptions EmptyString None 0 false
         ("{{$__jade_1 := __jade_eql .a .b}}"
          ++ "{{$__jade_2 := not $__jade_1}}") 2 empty,
       ["$__jade_2"]).
Proof.
  destruct (negated_comparison_lowering Sample.FuncMap (Ident "a") (Ident "b")
              NEQ "__jade_eql " New New New [] [".b"] [".a"; ".b"])
    as (x & y & Hstk & _ & Hrun).
  - reflexivity.
  - vm_compute. reflexivity.
  - vm_compute. reflexivity.
  - injection Hstk as <- <-. rewrite Hrun. vm_compute. reflexivity.
Defined.

(** C4, counterexample: [nil] does not start with the sigil and names
    no function, custom or of the runtime, yet it is pushed as [nil],
    not as the field lookup [.nil]. *)
Lemma nil_identifier_counterexample :
  HasPrefix "nil" "__DOLLAR__" = false
  /\ hasFunctionWithName Sample.FuncMap New "nil" = false
  /\ exec Sample.FuncMap (Ident "nil") (New, []) = Ok tt (New, ["nil"])
  /\ "nil" <> "." ++ "nil".
Proof.
  split; [reflexivity|]. split; [vm_compute; reflexivity|].
  split; [reflexivity|]. discriminate.
Qed.

Lemma identifier_resolution_witness :
  exec Sample.FuncMap (Ident "title") (New, []) = Ok tt (New, [".title"])
  /\ exec Sample.FuncMap (Ident "json") (New, []) = Ok tt (New, ["json"]).
Proof.
  split.
  - destruct (identifier_resolution Sample.FuncMap New [] "title")
      as (Hrun & _ & _); [reflexivity|discriminate|].
    rewrite Hrun. vm_compute. reflexivity.
  - destruct (identifier_resolution Sample.FuncMap New [] "json")
      as (Hrun & _ & _); [reflexivity|discriminate|].
    rewrite Hrun. vm_compute. reflexivity.
Defined.


Lemma attributes_emitted_sorted_witness :
  attrNames (fold_left collect_attrib
               [mkAttrib "title" "test" EmptyString;
                mkAttrib "style" "text-align:center" EmptyString] empty)
  = attrNames (fold_left collect_attrib
                 [mkAttrib "style" "text-align:center" EmptyString;
                  mkAttrib "title" "test" EmptyString] empty).
Proof.
  apply (attributes_emitted_sorted empty New).
  apply perm_swap.
Defined.

Example attribute_order_in_output :
  exists c,
    Sample.CompileString 10 empty
      (Sample.compact
         (NTag (mkTag noPos "button"
                  [Sample.raw_attribute "title" "test";
                   Sample.raw_attribute "style" "text-align:center"] None)))
    = Ok ("<button style=" ++ dq ++ "text-align:center" ++ dq
          ++ " title=" ++ dq ++ "test" ++ dq ++ "></button>" ++ nl, None) c.
Proof. eexists. vm_compute. reflexivity. Qed.

(** C7, counterexample: a tag whose only attribute is not raw and has
    an empty value is not rendered at all; the empty expression does
    not parse and the retry reads past the end of the empty string. *)
Lemma nonraw_empty_attribute_counterexample :
  exists c,
    Sample.CompileString 10 empty (Sample.compact (Sample.div_name false))
    = Ok (EmptyString,
          Some ("Jade Error: runtime error: index out of range [0] "
                ++ "with length 0 - Line: 0, Column: 0, Length: 0")) c.
Proof. eexists. vm_compute. reflexivity. Qed.

Lemma raw_empty_attribute_is_bare_witness :
  exists attribs : gmap string attrib,
    foldM Sample.visitTag_attribute
      [mkAttribute noPos "name" EmptyString true EmptyString] empty New
    = Ok attribs New
    /\ forall c1 : Compiler,
         write_attribute attribs "name" c1
         = Ok tt (set_buffer (buffer c1 ++ " name") c1).
Proof.
  eexists. split.
  - vm_compute. reflexivity.
  - destruct (raw_empty_attribute_is_bare Sample.FuncMap Sample.ParseExpr
                [] [] (mkAttribute noPos "name" EmptyString true EmptyString)
                (<["name" := mkAttrib "name" EmptyString EmptyString]> empty)
                New New)
      as (a & Ha & Hv & Hw).
    + reflexivity.
    + reflexivity.
    + intros H. inversion H.
    + vm_compute. reflexivity.
    + rewrite lookup_insert_eq in Ha. injection Ha as <-.
      intros c1. rewrite Hw. reflexivity.
Defined.

Example raw_empty_attribute_in_output :
  exists c,
    Sample.CompileString 10 empty (Sample.compact (Sample.div_name true))
    = Ok ("<div name></div>" ++ nl, None) c.
Proof. eexists. vm_compute. reflexivity. Qed.



Lemma event_attributes_use_safeJS_witness :
  Sample.attribute_value (Sample.expression_attribute "onclick" "handler") New
  = Ok "{{ safeJS .handler}}" New
  /\ Sample.attribute_value (Sample.expression_attribute "title" "handler") New
     = Ok "{{.handler}}" New.
Proof.
  split.
  - unfold Sample.attribute_value.
    rewrite (event_attributes_use_safeJS Sample.FuncMap Sample.ParseExpr
               (Sample.expression_attribute "onclick" "handler") eq_refl).
    vm_compute. reflexivity.
  - unfold Sample.attribute_value.
    rewrite (event_attributes_use_safeJS Sample.FuncMap Sample.ParseExpr
               (Sample.expression_attribute "title" "handler") eq_refl).
    vm_compute. reflexivity.
Defined.

(** * Further properties of the code *)

(** ** Text primitives *)

Lemma append_cons (a : ascii) (s t : string) :
  String a s ++ t = String a (s ++ t).
Proof. reflexivity. Qed.

Lemma append_nil_l (s : string) : EmptyString ++ s = s.
Proof. reflexivity. Qed.

Lemma prefix_byte (o a : ascii) (s : string) :
  String.prefix (String o EmptyString) (String a s) = Ascii.eqb a o.
Proof.
  cbn [String.prefix]. destruct (ascii_dec o a) as [->|Hne].
  - rewrite Ascii.eqb_refl. destruct s; reflexivity.
  - symmetry. apply Ascii.eqb_neq. congruence.
Qed.

(** Replacing a single byte works byte by byte. *)
Lemma Replace_byte (o a : ascii) (new s : string) :
  Replace (String a s) (String o EmptyString) new
  = (if Ascii.eqb a o then new else String a EmptyString)
    ++ Replace s (String o EmptyString) new.
Proof.
  unfold Replace. cbn [replace_from]. rewrite prefix_byte.
  destruct (Ascii.eqb a o); reflexivity.
Qed.

Lemma Replace_byte_app (o : ascii) (new s t : string) :
  Replace (s ++ t) (String o EmptyString) new
  = Replace s (String o EmptyString) new ++ Replace t (String o EmptyString) new.
Proof.
  induction s as [|a s IH]; [reflexivity|].
  rewrite append_cons, !Replace_byte, IH, append_assoc. reflexivity.
Qed.

Lemma escape_flat_map (input : string) :
  escape input = flat_map_bytes escape_byte input.
Proof.
  unfold escape, dq. induction input as [|a s IH]; [reflexivity|].
  rewrite Replace_byte, Replace_byte_app, IH. cbn [flat_map_bytes].
  f_equal. unfold escape_byte, dq.
  destruct (Ascii.eqb a "\") eqn:E1; [reflexivity|].
  rewrite Replace_byte. unfold dq_char.
  destruct (Ascii.eqb a "034"); reflexivity.
Qed.

Lemma literal_body_escape (s t : string) :
  literal_body (flat_map_bytes escape_byte s ++ t)
  = match literal_body t with
    | Some (body, rest) => Some (flat_map_bytes escape_byte s ++ body, rest)
    | None => None
    end.
Proof.
  induction s as [|a s IH].
  - rewrite append_nil_l. destruct (literal_body t) as [[b r]|]; reflexivity.
  - cbn [flat_map_bytes].
    destruct (Ascii.eqb a "\") eqn:E1.
    + apply Ascii.eqb_eq in E1. subst a.
      change (escape_byte "\") with "\\".
      change (("\\" ++ flat_map_bytes escape_byte s) ++ t)
        with (String "\" (String "\" (flat_map_bytes escape_byte s ++ t))).
      cbn [literal_body]. cbn [Ascii.eqb Bool.eqb dq_char].
      rewrite IH. destruct (literal_body t) as [[b r]|]; reflexivity.
    + destruct (Ascii.eqb a dq_char) eqn:E2.
      * apply Ascii.eqb_eq in E2. subst a.
        change (escape_byte dq_char) with (String "\" (String dq_char EmptyString)).
        change ((String "\" (String dq_char EmptyString)
                 ++ flat_map_bytes escape_byte s) ++ t)
          with (String "\" (String dq_char
                  (flat_map_bytes escape_byte s ++ t))).
        cbn [literal_body]. cbn [Ascii.eqb Bool.eqb dq_char].
        rewrite IH. destruct (literal_body t) as [[b r]|]; reflexivity.
      * assert (E : escape_byte a = String a EmptyString)
          by (unfold escape_byte; rewrite E1, E2; reflexivity).
        rewrite E.
        change ((String a EmptyString ++ flat_map_bytes escape_byte s) ++ t)
          with (String a (flat_map_bytes escape_byte s ++ t)).
        cbn [literal_body]. rewrite E2, E1, IH.
        destruct (literal_body t) as [[b r]|]; reflexivity.
Qed.

Lemma literal_body_plain (pre s : string) :
  has_byte dq_char pre = false ->
  has_byte "\" pre = false ->
  literal_body (pre ++ s)
  = match literal_body s with
    | Some (body, rest) => Some (pre ++ body, rest)
    | None => None
    end.
Proof.
  induction pre as [|a pre IH]; intros Hq Hb.
  - rewrite append_nil_l. destruct (literal_body s) as [[b r]|]; reflexivity.
  - cbn [has_byte] in Hq, Hb.
    apply orb_false_elim in Hq as [Hq1 Hq], Hb as [Hb1 Hb].
    rewrite append_cons. cbn [literal_body].
    rewrite Ascii.eqb_sym, Hq1. rewrite Ascii.eqb_sym, Hb1.
    rewrite (IH Hq Hb). destruct (literal_body s) as [[b r]|]; reflexivity.
Qed.

Lemma tabs_written (n : nat) (c : Compiler) :
  forM_ (replicate n tt) (fun _ : unit => write tab) c
  = Ok tt (set_buffer (buffer c ++ tabs n) c).
Proof.
  revert c. induction n as [|n IH]; intros c.
  - simpl. rewrite append_nil_r. destruct c; reflexivity.
  - cbn [replicate forM_ tabs]. unfold bind, write at 1, modify.
    rewrite IH. destruct c as [o f nd il nw b ti mx].
    cbn [buffer set_buffer options c_filename node indentLevel newline
         tempvarIndex mixins].
    rewrite append_assoc. reflexivity.
Qed.

Lemma set_buffer_id (c : Compiler) : set_buffer (buffer c) c = c.
Proof. destruct c; reflexivity. Qed.

Lemma indent_writes (offset : Z) (nline : bool) (c : Compiler) :
  indent offset nline c
  = Ok tt (set_buffer (buffer c ++ indentation c offset nline) c).
Proof.
  unfold indent, indentation, bind, get.
  destruct (PrettyPrint (options c)) eqn:Hp; cbn [negb].
  - destruct (nline && (0 <? len (buffer c))).
    + unfold write at 1, modify. rewrite tabs_written.
      destruct c as [o f nd il nw b ti mx].
      cbn [buffer set_buffer options c_filename node indentLevel newline
           tempvarIndex mixins].
      rewrite append_assoc. reflexivity.
    + unfold ret at 1. rewrite tabs_written. reflexivity.
  - unfold ret. rewrite append_nil_r, set_buffer_id. reflexivity.
Qed.

(** X1: [escape] works byte by byte: a backslash becomes two, a double
    quote becomes a backslash and the quote, any other byte is kept. *)
Theorem escape_bytewise (input : string) :
  escape input = flat_map_bytes escape_byte input.
Proof. apply escape_flat_map. Qed.

Section CommentFacts.

Context (CanInline : Block -> bool) (visit : Node -> M Compiler unit).

(** X2: a comment that is not silent and has no block is written as
    one call of [unescaped] on a string literal.  The literal holds the
    comment with its value escaped, and it ends at its own closing
    quote: no byte of the value closes it early or takes the closing
    quote with it. *)
Theorem comment_literal_is_closed (value : string) (c : Compiler) :
  let body := "<!-- " ++ escape value ++ " -->" in
  visitComment CanInline visit value false None c
  = Ok tt (set_buffer
             (buffer c ++ indentation c 0 false
              ++ "{{unescaped " ++ dq ++ body ++ dq ++ "}}") c)
  /\ forall rest : string, literal_body (body ++ dq ++ rest) = Some (body, rest).
Proof.
  intros body. split.
  - unfold visitComment, bind. rewrite indent_writes.
    unfold write, modify. destruct c as [o f nd il nw b ti mx].
    cbn [buffer set_buffer options c_filename node indentLevel newline
         tempvarIndex mixins].
    unfold body. rewrite !append_assoc. reflexivity.
  - intros rest. unfold body. rewrite escape_flat_map.
    rewrite !append_assoc.
    rewrite (literal_body_plain "<!-- ") by reflexivity.
    rewrite literal_body_escape.
    rewrite (literal_body_plain " -->") by reflexivity.
    reflexivity.
Qed.

End CommentFacts.

(** ** Text nodes *)

Lemma bind_ret_l {S A B} (a : A) (k : A -> M S B) (s : S) :
  bind (ret a) k s = k a s.
Proof. reflexivity. Qed.

Lemma bind_assoc {S A B C} (m : M S A) (k : A -> M S B) (k' : B -> M S C)
  (s : S) :
  bind (bind m k) k' s = bind m (fun a => bind (k a) k') s.
Proof. unfold bind. destruct (m s); reflexivity. Qed.

Lemma bind_write {A} (v : string) (k : unit -> M Compiler A) (c : Compiler) :
  bind (write v) k c = k tt (set_buffer (buffer c ++ v) c).
Proof. reflexivity. Qed.

Lemma bind_cong_l {S A B} (m m' : M S A) (k : A -> M S B) (s : S) :
  m s = m' s -> bind m k s = bind m' k s.
Proof. intros H. unfold bind. rewrite H. reflexivity. Qed.

Lemma bind_ext {S A B} (m : M S A) (k k' : A -> M S B) (s : S) :
  (forall a s', k a s' = k' a s') -> bind m k s = bind m k' s.
Proof. intros H. unfold bind. destruct (m s); auto. Qed.

Lemma prefix_no_byte (o : ascii) (rest s : string) :
  has_byte o s = false -> String.prefix (String o rest) s = false.
Proof.
  destruct s as [|b s]; [reflexivity|]. cbn [has_byte String.prefix].
  intros H. apply orb_false_elim in H as [H _].
  destruct (ascii_dec o b) as [->|Hne]; [|reflexivity].
  rewrite Ascii.eqb_refl in H. discriminate.
Qed.

Lemma prefix_other_byte (o a : ascii) (rest s : string) :
  Ascii.eqb o a = false -> String.prefix (String o rest) (String a s) = false.
Proof.
  intros H. cbn [String.prefix].
  destruct (ascii_dec o a) as [->|Hne]; [|reflexivity].
  rewrite Ascii.eqb_refl in H. discriminate.
Qed.




Section Matches.

Context (o1 c1 : ascii) (open' close' : string).

Local Abbreviation opening := (String o1 open').
Local Abbreviation closing := (String c1 close').



Lemma find_matches_before (pre s : string) :
  has_byte o1 pre = false ->
  find_matches O opening closing (pre ++ s)
  = (map inl (list_ascii_of_string pre)
     ++ find_matches O opening closing s)%list.
Proof.
  induction pre as [|a pre IH]; intros H; [reflexivity|].
  cbn [has_byte] in H. apply orb_false_elim in H as [H1 H].
  rewrite append_cons. cbn [find_matches list_ascii_of_string map app].
  rewrite (prefix_other_byte _ _ _ _ H1). rewrite (IH H). reflexivity.
Qed.

Lemma find_matches_plain (s : string) :
  has_byte o1 s = false ->
  find_matches O opening closing s = map inl (list_ascii_of_string s).
Proof.
  intros H. rewrite <- (append_nil_r s) at 1.
  rewrite (find_matches_before _ _ H). apply app_nil_r.
Qed.


End Matches.

Lemma segments_plain (f : ascii + string -> string -> string)
  (s acc : string) :
  (forall a r, f (inl a) r = String a r) ->
  fold_right f acc (map inl (list_ascii_of_string s)) = s ++ acc.
Proof.
  intros Hf. induction s as [|a s IH]; [reflexivity|].
  cbn [list_ascii_of_string map fold_right]. rewrite Hf, IH. reflexivity.
Qed.

Lemma escape_braces_plain (value : string) :
  has_byte "{" value = false -> escape_braces value = value.
Proof.
  intros H. unfold escape_braces. rewrite (find_matches_plain _ _ _ _ _ H).
  rewrite segments_plain by reflexivity. apply append_nil_r.
Qed.


Section TextFacts.

Context (FuncMap : gset string) (ParseExpr : string -> option Expr).

Local Abbreviation segment :=
  (fun (acc : string) (seg : ascii + string) =>
     match seg with
     | inl a => ret (acc ++ String a EmptyString)
     | inr group =>
         v <- visitInterpolation FuncMap ParseExpr group ;; ret (acc ++ v)
     end : M Compiler string).

Lemma interpolate_bytes (s acc : string) (c : Compiler) :
  foldM segment (map inl (list_ascii_of_string s)) acc c = Ok (acc ++ s) c.
Proof.
  revert acc. induction s as [|a s IH]; intros acc.
  - simpl. rewrite append_nil_r. reflexivity.
  - cbn [list_ascii_of_string map foldM]. unfold bind, ret at 1.
    rewrite IH, append_assoc. reflexivity.
Qed.



Lemma find_matches_no_second (o1 o2 : ascii) (open'' closing s : string) :
  has_byte o2 s = false ->
  find_matches O (String o1 (String o2 open'')) closing s
  = map inl (list_ascii_of_string s).
Proof.
  induction s as [|a s IH]; intros H; [reflexivity|].
  cbn [has_byte] in H. apply orb_false_elim in H as [H1 H].
  cbn [find_matches list_ascii_of_string map].
  assert (E : String.prefix (String o1 (String o2 open'')) (String a s)
              = false).
  { cbn [String.prefix]. destruct (ascii_dec o1 a); [|reflexivity].
    apply prefix_no_byte. exact H. }
  rewrite E, (IH H). reflexivity.
Qed.

Lemma interpolate_plain (value : string) (c : Compiler) :
  has_byte "{" value = false ->
  interpolate FuncMap ParseExpr value c = Ok value c.
Proof.
  intros H. unfold interpolate.
  rewrite (find_matches_no_second "#" "{" EmptyString "}" value H).
  apply interpolate_bytes.
Qed.


Lemma write_run (v : string) (c : Compiler) :
  write v c = Ok tt (set_buffer (buffer c ++ v) c).
Proof. reflexivity. Qed.

Lemma set_buffer_twice (a b : string) (c : Compiler) :
  set_buffer b (set_buffer a c) = set_buffer b c.
Proof. reflexivity. Qed.

Lemma buffer_set_buffer (b : string) (c : Compiler) :
  buffer (set_buffer b c) = b.
Proof. reflexivity. Qed.

Lemma write_lines_more (l l' : string) (ls : list string) :
  write_lines (l :: l' :: ls)
  = (write l ;;; write nl ;;; indent 0 false ;;; write_lines (l' :: ls)).
Proof. reflexivity. Qed.

Lemma write_lines_byte (a : ascii) (l : string) (ls : list string)
  (c : Compiler) :
  write_lines (String a l :: ls) c
  = write_lines (l :: ls) (set_buffer (buffer c ++ String a EmptyString) c).
Proof.
  destruct ls as [|l' ls].
  - cbn [write_lines].
    rewrite !write_run, buffer_set_buffer, set_buffer_twice, append_assoc.
    reflexivity.
  - rewrite !write_lines_more, !bind_write.
    repeat rewrite buffer_set_buffer. repeat rewrite set_buffer_twice.
    repeat rewrite append_assoc. reflexivity.
Qed.

Lemma Split_not_nil (s : string) (sep : ascii) : Split s sep <> [].
Proof.
  destruct s as [|a s]; [discriminate|]. cbn [Split].
  destruct (Ascii.eqb a sep); [discriminate|].
  destruct (Split s sep); discriminate.
Qed.

Lemma indentation_set_buffer (b : string) (c : Compiler) (offset : Z) :
  indentation (set_buffer b c) offset false = indentation c offset false.
Proof. reflexivity. Qed.

Lemma write_lines_Split (s : string) :
  forall c : Compiler,
    write_lines (Split s nl_char) c
    = Ok tt (set_buffer
               (buffer c ++ Replace s nl (nl ++ indentation c 0 false)) c).
Proof.
  induction s as [|a s IH]; intros c.
  - cbn [Split write_lines]. reflexivity.
  - unfold nl at 1. rewrite Replace_byte. fold nl. cbn [Split].
    fold nl_char.
    destruct (Ascii.eqb a nl_char) eqn:E.
    + destruct (Split s nl_char) as [|l ls] eqn:Hs;
        [exfalso; exact (Split_not_nil _ _ Hs)|].
      rewrite write_lines_more, bind_write, bind_write.
      unfold bind. rewrite indent_writes.
      rewrite IH. repeat rewrite indentation_set_buffer.
      repeat rewrite buffer_set_buffer. repeat rewrite set_buffer_twice.
      repeat rewrite append_assoc. reflexivity.
    + destruct (Split s nl_char) as [|l ls] eqn:Hs;
        [exfalso; exact (Split_not_nil _ _ Hs)|].
      rewrite write_lines_byte. rewrite IH. rewrite indentation_set_buffer.
      repeat rewrite buffer_set_buffer. repeat rewrite set_buffer_twice.
      repeat rewrite append_assoc. reflexivity.
Qed.

Lemma Replace_same (o : ascii) (s : string) :
  Replace s (String o EmptyString) (String o EmptyString) = s.
Proof.
  induction s as [|a s IH]; [reflexivity|].
  rewrite Replace_byte, IH.
  destruct (Ascii.eqb a o) eqn:E; [|reflexivity].
  apply Ascii.eqb_eq in E. subst. reflexivity.
Qed.

(** X5: a text without an opening brace is written as it is, except
    that with pretty printing on every newline of it is followed by the
    indentation of the current level; with pretty printing off the
    output is the text itself.  No expression is evaluated. *)
Theorem plain_text_is_written_verbatim (value : string) (c : Compiler) :
  has_byte "{" value = false ->
  visitText FuncMap ParseExpr value c
  = Ok tt (set_buffer
             (buffer c ++ Replace value nl (nl ++ indentation c 0 false)) c)
  /\ (PrettyPrint (options c) = false ->
      visitText FuncMap ParseExpr value c
      = Ok tt (set_buffer (buffer c ++ value) c)).
Proof.
  intros H.
  assert (Hrun : visitText FuncMap ParseExpr value c
                 = Ok tt (set_buffer
                            (buffer c
                             ++ Replace value nl
                                  (nl ++ indentation c 0 false)) c)).
  { unfold visitText, bind. rewrite (escape_braces_plain _ H).
    rewrite (interpolate_plain _ _ H). apply write_lines_Split. }
  split; [exact Hrun|].
  intros Hp. rewrite Hrun. unfold indentation. rewrite Hp.
  rewrite append_nil_r. unfold nl. rewrite Replace_same. reflexivity.
Qed.

End TextFacts.

(** ** More on the expression transpiler *)

Section ExpressionFacts.

Context (FuncMap : gset string).

Ltac run_exec :=
  cbv [bind liftC lift_fst tempvar write modify get ret pop PushFront
       binary_primitive unary_primitive fst snd negb set_buffer
       set_tempvarIndex bound options c_filename node indentLevel newline
       buffer tempvarIndex mixins receiver_text];
  unfold tempname; rewrite ?append_assoc.

(** X6: a binary operator with a primitive of its own is lowered in
    one step.  Once the right and then the left operand are lowered,
    their value references [x] and [y] are the two top entries of the
    stack; the next temporary is bound to the primitive applied to [x]
    and [y], in this order, (for the pipe [|], to [x | y]) and becomes
    the value reference of the expression. *)
Theorem binary_operator_lowering (X Y : Expr) (op : Token)
  (c0 c1 c2 : Compiler) (stk stk1 stk2 : list string) :
  exec FuncMap Y (c0, stk) = Ok tt (c1, stk1) ->
  exec FuncMap X (c1, stk1) = Ok tt (c2, stk2) ->
  exists x y : string,
    stk2 = x :: y :: stk /\
    let name := tempname (wrap_int (tempvarIndex c2 + 1)) in
    (forall primitive : string,
       plain_primitive op = Some primitive ->
       exec FuncMap (BinaryExpr X op Y) (c0, stk)
       = Ok tt
           (bound ("{{" ++ name ++ " := " ++ primitive ++ x ++ " " ++ y
                   ++ "}}") c2,
            name :: stk))
    /\ (op = OR ->
        exec FuncMap (BinaryExpr X op Y) (c0, stk)
        = Ok tt
            (bound ("{{" ++ name ++ " := " ++ x ++ " | " ++ y ++ "}}") c2,
             name :: stk)).
Proof.
  intros HY HX.
  destruct (exec_pushes_one _ _ _ _ _ _ HY) as [y ->].
  destruct (exec_pushes_one _ _ _ _ _ _ HX) as [x ->].
  exists x, y. split; [reflexivity|]. cbv zeta. split.
  - intros primitive Hprim.
    cbn [exec]. unfold bind at 1. rewrite HY. unfold bind at 1. rewrite HX.
    destruct op; try discriminate; injection Hprim as <-;
      run_exec; reflexivity.
  - intros ->.
    cbn [exec]. unfold bind at 1. rewrite HY. unfold bind at 1. rewrite HX.
    run_exec. reflexivity.
Qed.

(** X7: an operator that [visitExpression] has no primitive for makes
    it panic with "Unexpected operator" and the operator's text, once
    the operands are lowered: as a binary operator each of [&], [^],
    [<<], [>>], [&^], [<-] and [!], as a unary operator every operator
    other than [-], [+] and [!]. *)
Theorem unsupported_operator_panics (X : Expr) (op : Token)
  (c0 c1 : Compiler) (stk stk1 : list string) :
  exec FuncMap X (c0, stk) = Ok tt (c1, stk1) ->
  (forall (Y : Expr) (c : Compiler) (stk0 : list string),
     plain_primitive op = None ->
     complementary_primitive op = None ->
     op <> OR ->
     exec FuncMap Y (c, stk0) = Ok tt (c0, stk) ->
     exec FuncMap (BinaryExpr X op Y) (c, stk0)
     = Panic (PanicStr ("Unexpected operator: '" ++ Token_String op ++ "'"))
         (bound ("{{" ++ tempname (wrap_int (tempvarIndex c1 + 1)) ++ " := ")
            c1, stk1))
  /\ (unary_text op = None ->
      exec FuncMap (UnaryExpr op X) (c0, stk)
      = Panic (PanicStr ("Unexpected operator: '" ++ Token_String op ++ "'"))
          (bound ("{{" ++ tempname (wrap_int (tempvarIndex c1 + 1)) ++ " := ")
             c1, stk1)).
Proof.
  intros HX. split.
  - intros Y c stk0 Hp Hc Hor HY.
    cbn [exec]. unfold bind at 1. rewrite HY. unfold bind at 1. rewrite HX.
    destruct op; try discriminate; try contradiction;
      run_exec; reflexivity.
  - intros Hu. cbn [exec]. unfold bind at 1. rewrite HX.
    destruct op; try discriminate; run_exec; reflexivity.
Qed.

(** X8: a unary [-], [+] or [!] binds the next temporary to its
    primitive applied to the value reference of the operand, and that
    temporary is the value reference of the expression. *)
Theorem unary_operator_lowering (X : Expr) (op : Token) (primitive : string)
  (c0 c1 : Compiler) (stk stk1 : list string) :
  unary_text op = Some primitive ->
  exec FuncMap X (c0, stk) = Ok tt (c1, stk1) ->
  exists x : string,
    stk1 = x :: stk /\
    let name := tempname (wrap_int (tempvarIndex c1 + 1)) in
    exec FuncMap (UnaryExpr op X) (c0, stk)
    = Ok tt (bound ("{{" ++ name ++ " := " ++ primitive ++ x ++ "}}") c1,
             name :: stk).
Proof.
  intros Hprim HX.
  destruct (exec_pushes_one _ _ _ _ _ _ HX) as [x ->].
  exists x. split; [reflexivity|]. cbv zeta.
  cbn [exec]. unfold bind at 1. rewrite HX.
  destruct op; try discriminate; injection Hprim as <-;
    run_exec; reflexivity.
Qed.

(** X9: a selector [X.Sel] binds the next temporary to the value
    reference of [X] followed by a dot and the name; when [X] is the
    context itself its reference, a dot, is left out, so that the
    field is read off the context. *)
Theorem selector_lowering (X : Expr) (Sel : string)
  (c0 c1 : Compiler) (stk stk1 : list string) :
  exec FuncMap X (c0, stk) = Ok tt (c1, stk1) ->
  exists x : string,
    stk1 = x :: stk /\
    let name := tempname (wrap_int (tempvarIndex c1 + 1)) in
    exec FuncMap (SelectorExpr X Sel) (c0, stk)
    = Ok tt (bound ("{{" ++ name ++ " := "
                    ++ (if String.eqb x "." then EmptyString else x)
                    ++ "." ++ Sel ++ "}}") c1,
             name :: stk).
Proof.
  intros HX.
  destruct (exec_pushes_one _ _ _ _ _ _ HX) as [x ->].
  exists x. split; [reflexivity|]. cbv zeta.
  cbn [exec]. unfold bind at 1. rewrite HX.
  run_exec. destruct (String.eqb x "."); rewrite ?append_assoc; reflexivity.
Qed.

(** X10: the operand stack of [visitExpression] is balanced: it returns
    a value exactly when [exec], started on the empty stack, ends with
    that value as the only entry, so the value that [pop] hands out for
    an empty stack is never what [visitExpression] returns. *)
Theorem visitExpression_returns_pushed_value (e : Expr) (c c' : Compiler)
  (v : string) :
  visitExpression FuncMap e c = Ok v c'
  <-> exec FuncMap e (c, []) = Ok tt (c', [v]).
Proof.
  unfold visitExpression, bind. split.
  - destruct (exec FuncMap e (c, [])) as [[] [c1 stk1]| |] eqn:E;
      try discriminate.
    destruct (exec_pushes_one _ _ _ _ _ _ E) as [x ->].
    unfold pop. cbn [fst snd]. intros H. injection H as <- <-. reflexivity.
  - intros ->. reflexivity.
Qed.


Lemma forM_app_run {S A} (f : A -> M S unit) (l1 l2 : list A) (s : S) :
  forM_ (l1 ++ l2)%list f s = (forM_ l1 f ;;; forM_ l2 f) s.
Proof.
  revert s. induction l1 as [|x l1 IH]; intros s; [reflexivity|].
  cbn [app forM_]. rewrite bind_assoc. apply bind_ext. intros _ s1. apply IH.
Qed.

Lemma forM_snoc {S A} (f : A -> M S unit) (l : list A) (a : A) (s : S) :
  forM_ (l ++ [a])%list f s = (forM_ l f ;;; f a) s.
Proof.
  rewrite forM_app_run. apply bind_ext. intros _ s1.
  cbn [forM_]. unfold bind, ret. destruct (f a s1) as [[] s2| |]; reflexivity.
Qed.

(** The arguments of a call are lowered last to first. *)
Lemma exec_args_rev (Args : list Expr) (s : XS) :
  (fix exec_args (l : list Expr) : M XS unit :=
     match l with
     | [] => ret tt
     | a :: l' => exec_args l' ;;; exec FuncMap a
     end) Args s
  = forM_ (rev Args) (exec FuncMap) s.
Proof.
  revert s. induction Args as [|a Args IH]; intros s; [reflexivity|].
  change (rev (a :: Args)) with (rev Args ++ [a])%list. rewrite forM_snoc.
  apply bind_cong_l. apply IH.
Qed.

(** The arguments leave their value references on the stack, the
    first argument on top. *)
Lemma exec_args_push (l : list Expr) :
  forall (c c' : Compiler) (stk stk' : list string),
    forM_ l (exec FuncMap) (c, stk) = Ok tt (c', stk') ->
    exists vs, stk' = (vs ++ stk)%list /\ List.length vs = List.length l.
Proof.
  induction l as [|a l IH]; intros c c' stk stk' H.
  - injection H as <- <-. exists []. split; reflexivity.
  - cbn [forM_] in H. apply bind_Ok_inv in H as ([] & [c1 stk1] & Ha & H).
    destruct (exec_pushes_one _ _ _ _ _ _ Ha) as [v ->].
    destruct (IH _ _ _ _ H) as (vs & -> & Hlen).
    exists (vs ++ [v])%list. split.
    + rewrite <- app_assoc. reflexivity.
    + rewrite List.length_app. simpl. lia.
Qed.

(** The loop that writes the arguments pops one value for each. *)
Lemma args_written {A} (Args : list A) :
  forall (vs stk : list string) (c : Compiler),
    List.length vs = List.length Args ->
    forM_ Args (fun _ : A =>
      liftC (write " ") ;;; a <- pop ;; liftC (write a)) (c, (vs ++ stk)%list)
    = Ok tt (set_buffer (buffer c ++ args_text vs) c, stk).
Proof.
  induction Args as [|a Args IH]; intros vs stk c Hlen.
  - destruct vs; [|discriminate]. simpl.
    rewrite append_nil_r, set_buffer_id. reflexivity.
  - destruct vs as [|v vs]; [discriminate|]. injection Hlen as Hlen.
    cbn [forM_ args_text app]. unfold bind at 1.
    assert (E : (liftC (write " ") ;;; a0 <- pop ;; liftC (write a0))
                  (c, v :: (vs ++ stk)%list)
                = Ok tt (set_buffer (buffer c ++ " " ++ v) c,
                         (vs ++ stk)%list)).
    { cbv [bind liftC lift_fst write modify pop fst snd set_buffer buffer
           options c_filename node indentLevel newline tempvarIndex mixins].
      rewrite append_assoc. reflexivity. }
    rewrite E. rewrite (IH vs stk _ Hlen).
    rewrite buffer_set_buffer, set_buffer_twice, !append_assoc. reflexivity.
Qed.


(** X12: a call whose callee is a selector, a method call.  The
    temporary of the call is numbered after the arguments are lowered
    and before the receiver is; it is bound to the receiver's value
    reference (left out when the receiver is the context), a dot, the
    method, a space, and the references of the arguments, each after a
    further space. *)
Theorem method_call_lowering (X : Expr) (Sel : string) (Args : list Expr)
  (c0 c1 c2 : Compiler) (stk stk1 stk2 : list string) :
  forM_ (rev Args) (exec FuncMap) (c0, stk) = Ok tt (c1, stk1) ->
  exec FuncMap X (set_tempvarIndex (wrap_int (tempvarIndex c1 + 1)) c1, stk1)
  = Ok tt (c2, stk2) ->
  exists (vs : list string) (x : string),
    stk1 = (vs ++ stk)%list /\ List.length vs = List.length Args /\
    stk2 = x :: stk1 /\
    let name := tempname (wrap_int (tempvarIndex c1 + 1)) in
    exec FuncMap (CallExpr (SelectorExpr X Sel) Args) (c0, stk)
    = Ok tt (set_buffer
               (buffer c2 ++ "{{" ++ name ++ " := "
                ++ (if String.eqb x "." then EmptyString else x)
                ++ "." ++ Sel ++ " " ++ args_text vs ++ "}}") c2,
             name :: stk).
Proof.
  intros Hargs HX.
  destruct (exec_args_push _ _ _ _ _ Hargs) as (vs & -> & Hlen).
  rewrite length_rev in Hlen.
  destruct (exec_pushes_one _ _ _ _ _ _ HX) as [x ->].
  exists vs, x. split; [reflexivity|]. split; [exact Hlen|].
  split; [reflexivity|]. cbv zeta.
  cbn [exec]. unfold bind at 1. rewrite exec_args_rev, Hargs.
  unfold bind at 1.
  change (liftC tempvar (c1, (vs ++ stk)%list))
    with (Ok (S := XS) (tempname (wrap_int (tempvarIndex c1 + 1)))
            (set_tempvarIndex (wrap_int (tempvarIndex c1 + 1)) c1,
             (vs ++ stk)%list)).
  set (name := tempname (wrap_int (tempvarIndex c1 + 1))).
  unfold bind at 1. unfold bind at 1. rewrite HX.
  unfold bind at 1. unfold pop at 1. cbn [fst snd].
  change (liftC (write ?t) (c2, ?k))
    with (Ok (S := XS) tt (set_buffer (buffer c2 ++ t) c2, k)).
  unfold bind at 1. rewrite (args_written Args vs stk _ Hlen).
  cbv [bind liftC lift_fst write modify PushFront fst snd].
  rewrite !buffer_set_buffer, !set_buffer_twice. f_equal. f_equal.
  destruct (String.eqb x "."); rewrite !append_assoc; reflexivity.
Qed.

End ExpressionFacts.

(** ** Interpolation *)

Section InterpolationFacts.

Context (FuncMap : gset string) (ParseExpr : string -> option Expr).

Lemma last_byte_snoc (s : string) (q : ascii) :
  last_byte (s ++ String q EmptyString) = Some q.
Proof.
  induction s as [|a s IH]; [reflexivity|].
  rewrite append_cons. cbn [last_byte]. rewrite IH.
  destruct (s ++ String q EmptyString) eqn:E; [|reflexivity].
  destruct s; discriminate.
Qed.

Lemma set_last_snoc (s : string) (p q : ascii) :
  set_last q (s ++ String p EmptyString) = s ++ String q EmptyString.
Proof.
  induction s as [|a s IH]; [reflexivity|].
  rewrite !append_cons. cbn [set_last]. rewrite IH.
  destruct (s ++ String p EmptyString) eqn:E; [|reflexivity].
  destruct s; discriminate.
Qed.

(** X13: an expression that does not parse.  The empty expression makes
    [visitRawInterpolation] fail with an index out of range, because
    the retry for single-quoted strings reads its first byte.  A
    non-empty one that does not both start and end with a single quote
    makes it panic with "Unable to parse expression: " followed by the
    expression, in which every [$] reads [__DOLLAR__].  Nothing is
    written in either case. *)
Theorem unparsable_expression_panics (value : string) (c : Compiler) :
  ParseExpr (Replace value "$" "__DOLLAR__") = None ->
  (value = EmptyString ->
   visitRawInterpolation FuncMap ParseExpr value c
   = Panic (index_out_of_range 0 0) c)
  /\ (value <> EmptyString ->
      HasPrefix (Replace value "$" "__DOLLAR__") "'" = false
      \/ last_byte (Replace value "$" "__DOLLAR__") <> Some sq_char ->
      visitRawInterpolation FuncMap ParseExpr value c
      = Panic (PanicStr ("Unable to parse expression: "
                         ++ Replace value "$" "__DOLLAR__")) c).
Proof.
  intros Hparse. split.
  - intros ->. unfold visitRawInterpolation, bind.
    change (Replace EmptyString "$" "__DOLLAR__") with EmptyString in *.
    rewrite Hparse. reflexivity.
  - intros Hne Hq. unfold visitRawInterpolation, bind. rewrite Hparse.
    destruct (Replace value "$" "__DOLLAR__") as [|first rest] eqn:E.
    + destruct value as [|a s]; [contradiction|].
      rewrite Replace_byte in E. destruct (Ascii.eqb a "$"); discriminate.
    + unfold single_quoted_retry.
      assert (Hno : Ascii.eqb first sq_char
                    && bool_decide (last_byte (String first rest)
                                    = Some sq_char) = false).
      { destruct Hq as [Hq|Hq].
        - unfold HasPrefix in Hq. rewrite prefix_byte in Hq.
          unfold sq_char. rewrite Hq. reflexivity.
        - rewrite (bool_decide_eq_false_2 _ Hq). apply andb_false_r. }
      rewrite Hno. reflexivity.
Qed.

(** X14: the retry for single-quoted strings.  When the expression
    (with [$] replaced) does not parse and is a text between two
    single quotes, it is parsed again with the two quotes replaced by
    double quotes; what that gives is transpiled, and when it does not
    parse either the panic names the expression in its single
    quotes. *)
Theorem single_quoted_string_is_retried (value body : string) (c : Compiler) :
  Replace value "$" "__DOLLAR__"
  = String sq_char (body ++ String sq_char EmptyString) ->
  ParseExpr (String sq_char (body ++ String sq_char EmptyString)) = None ->
  visitRawInterpolation FuncMap ParseExpr value c
  = match ParseExpr (String dq_char (body ++ String dq_char EmptyString)) with
    | Some e =>
        (v <- visitExpression FuncMap e ;; ret (Replace v "__DOLLAR__" "$")) c
    | None =>
        Panic (PanicStr ("Unable to parse expression: "
                         ++ String sq_char (body ++ String sq_char EmptyString)))
          c
    end.
Proof.
  intros Hv Hparse. unfold visitRawInterpolation. rewrite Hv, Hparse.
  unfold single_quoted_retry.
  assert (Hq : Ascii.eqb sq_char sq_char
               && bool_decide
                    (last_byte (String sq_char (body ++ String sq_char EmptyString))
                     = Some sq_char) = true).
  { apply andb_true_intro. split; [reflexivity|].
    apply bool_decide_eq_true_2.
    apply (last_byte_snoc (String sq_char body)). }
  rewrite Hq.
  change (String dq_char (body ++ String sq_char EmptyString))
    with (String dq_char body ++ String sq_char EmptyString).
  rewrite set_last_snoc. rewrite bind_ret_l.
  change (String dq_char body ++ String dq_char EmptyString)
    with (String dq_char (body ++ String dq_char EmptyString)).
  destruct (ParseExpr (String dq_char (body ++ String dq_char EmptyString)));
    reflexivity.
Qed.

End InterpolationFacts.

(** ** Nodes *)

Section NodeFacts.

Context (CanInline : Block -> bool) (IsSelfClosing : Tag -> bool)
  (Doctype_String : string -> string) (FuncMap : gset string)
  (ParseExpr : string -> option Expr).

Local Abbreviation visit' :=
  (visit CanInline IsSelfClosing Doctype_String FuncMap ParseExpr).
Local Abbreviation visit_switch' :=
  (visit_switch CanInline IsSelfClosing Doctype_String FuncMap ParseExpr).
Local Abbreviation visitMixinCall' :=
  (visitMixinCall CanInline FuncMap ParseExpr).
Local Abbreviation bind_arguments' := (bind_arguments FuncMap ParseExpr).

Lemma undefined_mixin_call (fuel : nat) (h : Heap)
  (pos : SourcePosition) (name : string) (args : list string) (c : Compiler) :
  mixins c !! name = None ->
  visit' (S fuel) h (NMixinCall pos name args) c
  = Panic (PanicStr (jade_error pos nil_deref)) c.
Proof.
  intros H. cbn [visit]. unfold recovering. cbn [visit_switch].
  unfold visitMixinCall, bind, get. rewrite H. reflexivity.
Qed.

Lemma bind_arguments_extra (params : list string) :
  forall (i : Z) (args extra : list string) (n1 n2 : Z) (c : Compiler),
    List.length args = List.length params ->
    bind_arguments' i params (args ++ extra) n1 c
    = bind_arguments' i params args n2 c.
Proof.
  induction params as [|p params IH]; intros i args extra n1 n2 c Hlen.
  - destruct args; [|discriminate]. destruct extra; reflexivity.
  - destruct args as [|a args]; [discriminate|]. injection Hlen as Hlen.
    cbn [app bind_arguments]. apply bind_ext. intros v c1.
    apply bind_ext. intros _ c2. apply IH. exact Hlen.
Qed.

Lemma bind_arguments_short (given : list string) :
  forall (i : Z) (missing : string) (more args : list string) (n : Z)
         (c c' : Compiler),
    List.length args = List.length given ->
    bind_arguments' i given args n c = Ok tt c' ->
    bind_arguments' i (given ++ missing :: more) args n c
    = Panic (index_out_of_range (i + Z.of_nat (List.length args)) n) c'.
Proof.
  induction given as [|p given IH]; intros i missing more args n c c' Hlen H.
  - destruct args; [|discriminate]. injection H as <-.
    cbn [app bind_arguments List.length]. rewrite Z.add_0_r. reflexivity.
  - destruct args as [|a args]; [discriminate|]. injection Hlen as Hlen.
    cbn [app bind_arguments] in *.
    apply bind_Ok_inv in H as (v & c1 & Hv & H).
    apply bind_Ok_inv in H as ([] & c2 & Hw & H).
    unfold bind at 1. rewrite Hv. unfold bind at 1. rewrite Hw.
    rewrite (IH _ missing more args n c2 c' Hlen H).
    f_equal. f_equal. cbn [List.length]. lia.
Qed.

(** X15: the arguments of a mixin call against the parameters of the
    mixin.  Arguments beyond the parameters are ignored.  When there
    are fewer arguments than parameters, the parameters that have an
    argument are bound, and the first one without makes the call fail
    with an index out of range, the index and the length both being the
    number of arguments. *)
Theorem mixin_call_arity (visit : Node -> M Compiler unit)
  (name : string) (mixin : Mixin) (args : list string) (c : Compiler) :
  mixins c !! name = Some mixin ->
  (forall extra : list string,
     List.length args = List.length (mixin_Args mixin) ->
     visitMixinCall' visit name (args ++ extra) c
     = visitMixinCall' visit name args c)
  /\ (forall (given more : list string) (missing : string) (c' : Compiler),
        mixin_Args mixin = (given ++ missing :: more)%list ->
        List.length args = List.length given ->
        bind_arguments' 0 given args (Z.of_nat (List.length args)) c
        = Ok tt c' ->
        visitMixinCall' visit name args c
        = Panic (index_out_of_range (Z.of_nat (List.length args))
                   (Z.of_nat (List.length args))) c').
Proof.
  intros Hm. split.
  - intros extra Hlen. unfold visitMixinCall, bind at 1, get. rewrite Hm.
    unfold bind at 2, get. rewrite Hm.
    apply bind_cong_l. apply bind_arguments_extra. exact Hlen.
  - intros given more missing c' Hargs Hlen Hrun.
    unfold visitMixinCall, bind at 1, get. rewrite Hm, Hargs.
    unfold bind.
    rewrite (bind_arguments_short given 0 missing more args _ c c' Hlen Hrun).
    reflexivity.
Qed.

(** X16: how [visit] reports a panic of the visitor of a node.  A panic
    that is a string starting with "Jade Error" is passed on as it is,
    so an error keeps the position of the innermost node it came from;
    any other panic, a run-time error included, becomes the Jade Error
    message built from it and the position of the node.  Reading the
    prefix of the panic string never fails, since no visitor panics
    with a string shorter than the prefix. *)
Theorem visit_reports_errors_once (fuel : nat) (h : Heap) (n : Node)
  (c : Compiler) :
  visit' (S fuel) h n c
  = match visit_switch' h (visit' fuel h) n c with
    | Panic (PanicStr s) c' =>
        Panic (PanicStr (if HasPrefix s "Jade Error" then s
                         else jade_error (node_Pos h n) (PanicStr s))) c'
    | Panic (PanicRuntime s) c' =>
        Panic (PanicStr (jade_error (node_Pos h n) (PanicRuntime s))) c'
    | r => r
    end.
Proof.
  cbn [visit]. unfold recovering.
  pose proof (panics_visit_switch CanInline IsSelfClosing Doctype_String
                FuncMap ParseExpr h (visit' fuel h)
                (fun n' => panics_weaken _ _ _ jade_error_sliceable
                             (visit_panics_jade CanInline IsSelfClosing
                                Doctype_String FuncMap ParseExpr fuel h n'))
                n c) as Hbody.
  destruct (visit_switch' h (visit' fuel h) n c) as [a c1|[s|s] c1|];
    try reflexivity.
  unfold visit_recover. simpl in Hbody. apply Z.ltb_ge in Hbody.
  rewrite Hbody. destruct (HasPrefix s "Jade Error"); reflexivity.
Qed.

Lemma condition_without_body (fuel : nat) (h : Heap)
  (pos : SourcePosition) (e : string) (neg : option Block)
  (c c1 : Compiler) (v : string) :
  visitRawInterpolation FuncMap ParseExpr e c = Ok v c1 ->
  visit' (S fuel) h (NCondition pos e None neg) c
  = Panic (PanicStr (jade_error pos nil_deref))
      (set_buffer (buffer c1 ++ "{{if " ++ v ++ "}}") c1).
Proof.
  intros H. cbn [visit]. unfold recovering. cbn [visit_switch].
  unfold visitCondition. unfold bind at 1. rewrite H.
  rewrite bind_write. reflexivity.
Qed.

(** X17: what a visitor dereferences and does not find.  A call of a
    mixin that no [mixin] node visited before has defined fails: the
    lookup gives nil, and reading its parameters is a nil dereference.
    A condition without a block for the positive branch fails in the
    same way, once its expression is transpiled and the opening [if]
    action is written.  In both cases [visit] reports a Jade Error with
    the text of the run-time error and the position of the node. *)
Theorem missing_definition_or_body_fails (fuel : nat) (h : Heap)
  (pos : SourcePosition) (c : Compiler) :
  (forall (name : string) (args : list string),
     mixins c !! name = None ->
     visit' (S fuel) h (NMixinCall pos name args) c
     = Panic (PanicStr (jade_error pos nil_deref)) c)
  /\ (forall (e v : string) (neg : option Block) (c1 : Compiler),
        visitRawInterpolation FuncMap ParseExpr e c = Ok v c1 ->
        visit' (S fuel) h (NCondition pos e None neg) c
        = Panic (PanicStr (jade_error pos nil_deref))
            (set_buffer (buffer c1 ++ "{{if " ++ v ++ "}}") c1)).
Proof.
  split.
  - intros name args. apply undefined_mixin_call.
  - intros e v neg c1. apply condition_without_body.
Qed.

End NodeFacts.

(** ** Tags without expressions *)

Section StaticTags.

Context (CanInline : Block -> bool) (IsSelfClosing : Tag -> bool)
  (FuncMap : gset string) (ParseExpr : string -> option Expr).

Lemma static_attribute_collected (tbl : gmap string attrib) (item : Attribute)
  (c : Compiler) :
  is_static item = true ->
  visitTag_attribute FuncMap ParseExpr tbl item c
  = Ok (collect_attrib tbl (static_attrib item)) c.
Proof.
  unfold is_static. intros H. apply andb_prop in H as [Hraw Hcond].
  apply String.eqb_eq in Hcond.
  unfold visitTag_attribute, attribute_value, attribute_condition.
  rewrite Hraw, Hcond. cbn [negb len String.length Z.of_nat Z.eqb].
  unfold static_attrib.
  destruct (String.eqb (attr_Value item) EmptyString) eqn:E.
  - apply String.eqb_eq in E. rewrite E. reflexivity.
  - reflexivity.
Qed.

Lemma static_attributes_collected (items : list Attribute) :
  forall (tbl : gmap string attrib) (c : Compiler),
    forallb is_static items = true ->
    foldM (visitTag_attribute FuncMap ParseExpr) items tbl c
    = Ok (fold_left collect_attrib (map static_attrib items) tbl) c.
Proof.
  induction items as [|it items IH]; intros tbl c H; [reflexivity|].
  cbn [forallb] in H. apply andb_prop in H as [H1 H].
  cbn [foldM map fold_left]. unfold bind.
  rewrite (static_attribute_collected _ _ _ H1). apply IH. exact H.
Qed.

(** X18: a tag all of whose attributes are raw and without a guard, and
    which is self-closing or has no block, is rendered without
    evaluating anything: the indentation, the opening of the tag with
    its attributes in sorted order, and then [ />] for a self-closing
    tag, whose block, if any, is never visited, or the closing tag
    otherwise.  Nothing but the buffer changes. *)
Theorem static_tag_rendering (visit : Node -> M Compiler unit) (tag : Tag)
  (c : Compiler) :
  forallb is_static (tag_Attributes tag) = true ->
  IsSelfClosing tag = true \/ tag_Block tag = None ->
  let attribs :=
    fold_left collect_attrib (map static_attrib (tag_Attributes tag)) empty in
  visitTag CanInline IsSelfClosing FuncMap ParseExpr visit tag c
  = Ok tt
      (set_buffer
         (buffer c ++ indentation c 0 true ++ "<" ++ tag_Name tag
          ++ attributes_text attribs (attrNames attribs)
          ++ (if IsSelfClosing tag then " />"
              else ">" ++ "</" ++ tag_Name tag ++ ">")) c).
Proof.
  intros Hstatic Hshape attribs. unfold visitTag.
  unfold bind at 1. rewrite (static_attributes_collected _ _ _ Hstatic).
  fold attribs. unfold bind at 1. rewrite indent_writes.
  rewrite bind_write. unfold bind at 1.
  rewrite (emit_attributes attribs (attrNames attribs))
    by (intros n; apply attrNames_elem).
  repeat rewrite buffer_set_buffer. repeat rewrite set_buffer_twice.
  destruct (IsSelfClosing tag) eqn:Hs.
  - rewrite write_run. repeat rewrite buffer_set_buffer.
    repeat rewrite set_buffer_twice. repeat rewrite append_assoc.
    reflexivity.
  - destruct Hshape as [Hshape|Hshape]; [discriminate|]. rewrite Hshape.
    rewrite bind_write, bind_ret_l, write_run.
    repeat rewrite buffer_set_buffer. repeat rewrite set_buffer_twice.
    repeat rewrite append_assoc. reflexivity.
Qed.

End StaticTags.

(** ** The compiled text *)

Section OutputFacts.

Context (CanInline : Block -> bool) (IsSelfClosing : Tag -> bool)
  (Doctype_String : string -> string) (FuncMap : gset string)
  (ParseExpr : string -> option Expr).

Local Abbreviation compile_buffer' :=
  (compile_buffer CanInline IsSelfClosing Doctype_String FuncMap ParseExpr).
Local Abbreviation CompileString' :=
  (CompileString CanInline IsSelfClosing Doctype_String FuncMap ParseExpr).

Lemma compile_buffer_ends (fuel : nat) (h : Heap) (c c1 : Compiler) :
  compile_buffer' fuel h c = Ok tt c1 ->
  buffer c1 = EmptyString \/ exists body, buffer c1 = body ++ nl.
Proof.
  unfold compile_buffer. intros H.
  apply bind_Ok_inv in H as ([] & c2 & _ & H).
  apply bind_Ok_inv in H as (c3 & c4 & _ & H).
  apply bind_Ok_inv in H as ([] & c5 & _ & H).
  apply bind_Ok_inv in H as (c6 & c7 & Hget & H).
  injection Hget as <- <-.
  destruct (0 <? len (buffer c5)) eqn:E.
  - injection H as <-. right. exists (buffer c5). reflexivity.
  - injection H as <-. left. apply len_zero. exact E.
Qed.

(** X19: what [CompileString] returns without an error is the text the
    traversal wrote followed by one newline, or the empty string when
    the traversal wrote nothing; and the buffer of the compiler is
    left empty. *)
Theorem compiled_text_ends_with_newline (fuel : nat) (h : Heap)
  (c c' : Compiler) (s : string) :
  CompileString' fuel h c = Ok (s, None) c' ->
  (s = EmptyString \/ exists body, s = body ++ nl)
  /\ buffer c' = EmptyString
  /\ exists c1, compile_buffer' fuel h c = Ok tt c1 /\ buffer c1 = s.
Proof.
  unfold CompileString, CompileWriter, recovering. intros H.
  unfold bind, lift_fst in H. cbn [fst snd] in H.
  destruct (compile_buffer' fuel h c) as [[] c1|p c1|] eqn:E.
  - pose proof (compile_buffer_ends _ _ _ _ E) as Hend.
    unfold WriteTo in H. cbn [fst snd bytes_Buffer io_Write] in H.
    destruct (0 <? len (buffer c1)) eqn:Hlen.
    + rewrite Z.ltb_irrefl, Z.eqb_refl in H. cbn [negb] in H.
      injection H as <- <-. cbn [fst snd].
      rewrite append_nil_l. split; [exact Hend|]. split; [reflexivity|].
      exists c1. split; reflexivity.
    + injection H as <- <-. cbn [fst snd].
      apply len_zero in Hlen. split; [left; reflexivity|].
      split; [reflexivity|]. exists c1. split; [reflexivity|exact Hlen].
  - destruct p as [m|m]; simpl in H; discriminate.
  - discriminate.
Qed.

End OutputFacts.

(** ** What a traversal leaves of the compiler *)

Lemma wrap_int_small (z : Z) : - 2 ^ 63 <= z < 2 ^ 63 -> wrap_int z = z.
Proof. intros H. unfold wrap_int. rewrite Z.mod_small by lia. lia. Qed.

Lemma wrap_int_idem (z : Z) : wrap_int (wrap_int z) = wrap_int z.
Proof. apply wrap_int_small. apply wrap_int_range. Qed.

Lemma wrap_int_back (z : Z) : wrap_int (wrap_int (z + 1) - 1) = wrap_int z.
Proof.
  unfold wrap_int.
  replace ((z + 1 + 2 ^ 63) mod 2 ^ 64 - 2 ^ 63 - 1 + 2 ^ 63)
    with ((z + 1 + 2 ^ 63) mod 2 ^ 64 - 1) by lia.
  rewrite Zminus_mod_idemp_l. f_equal. f_equal. lia.
Qed.

Lemma grows_refl (c : Compiler) : grows c c.
Proof.
  unfold grows. split_and!; try reflexivity.
  - left. reflexivity.
  - exists EmptyString. symmetry. apply append_nil_r.
Qed.

Lemma grows_trans (c1 c2 c3 : Compiler) :
  grows c1 c2 -> grows c2 c3 -> grows c1 c3.
Proof.
  intros (Ho & Hf & Hn & Hw & Hi & [o1 Hb] & Hm)
         (Ho' & Hf' & Hn' & Hw' & Hi' & [o2 Hb'] & Hm').
  unfold grows. split_and!; try congruence.
  - destruct Hi as [Hi|Hi], Hi' as [Hi'|Hi']; rewrite Hi', Hi;
      rewrite ?wrap_int_idem; auto.
  - exists (o1 ++ o2). rewrite Hb', Hb. apply append_assoc.
  - etransitivity; eassumption.
Qed.

Lemma grows_write (v : string) (c : Compiler) :
  grows c (set_buffer (buffer c ++ v) c).
Proof.
  unfold grows. split_and!; try reflexivity.
  - left. reflexivity.
  - exists v. reflexivity.
Qed.

Lemma grows_tempvarIndex (i : Z) (c : Compiler) :
  grows c (set_tempvarIndex i c).
Proof.
  unfold grows. split_and!; try reflexivity.
  - left. reflexivity.
  - exists EmptyString. symmetry. apply append_nil_r.
Qed.

Lemma grows_mixins (name : string) (m : Mixin) (c : Compiler) :
  grows c (set_mixins (<[name := m]> (mixins c)) c).
Proof.
  unfold grows. split_and!; try reflexivity.
  - left. reflexivity.
  - exists EmptyString. symmetry. apply append_nil_r.
  - cbn [mixins set_mixins]. rewrite dom_insert. set_solver.
Qed.

Section Keeping.

Context {S : Type} (R : S -> S -> Prop).
Hypothesis R_refl : forall s, R s s.
Hypothesis R_trans : forall s1 s2 s3, R s1 s2 -> R s2 s3 -> R s1 s3.

Lemma keeps_ret {A} (a : A) : keeps R (ret a).
Proof. intros s a' s' H. injection H as _ <-. apply R_refl. Qed.

Lemma keeps_bind {A B} (m : M S A) (k : A -> M S B) :
  keeps R m -> (forall a, keeps R (k a)) -> keeps R (bind m k).
Proof.
  intros Hm Hk s b s' H. apply bind_Ok_inv in H as (a & s1 & H1 & H2).
  exact (R_trans _ _ _ (Hm _ _ _ H1) (Hk _ _ _ _ H2)).
Qed.

Lemma keeps_panic {A} (p : panicval) : keeps R (@panic S A p).
Proof. intros s a s' H. discriminate. Qed.

Lemma keeps_out_of_fuel {A} : keeps R (@out_of_fuel S A).
Proof. intros s a s' H. discriminate. Qed.

Lemma keeps_get : keeps R get.
Proof. intros s a s' H. injection H as _ <-. apply R_refl. Qed.

Lemma keeps_modify (f : S -> S) : (forall s, R s (f s)) -> keeps R (modify f).
Proof. intros Hf s a s' H. injection H as H; subst s'. apply Hf. Qed.

Lemma keeps_if {A} (b : bool) (m1 m2 : M S A) :
  keeps R m1 -> keeps R m2 -> keeps R (if b then m1 else m2).
Proof. destruct b; auto. Qed.

Lemma keeps_forM_ {A} (l : list A) (f : A -> M S unit) :
  (forall x, keeps R (f x)) -> keeps R (forM_ l f).
Proof.
  intros Hf. induction l as [|x l IH]; simpl.
  - apply keeps_ret.
  - apply keeps_bind; [apply Hf|intros _; exact IH].
Qed.

Lemma keeps_foldM {A B} (f : B -> A -> M S B) (l : list A) :
  (forall b x, keeps R (f b x)) -> forall b, keeps R (foldM f l b).
Proof.
  intros Hf. induction l as [|x l IH]; intros b; simpl.
  - apply keeps_ret.
  - apply keeps_bind; [apply Hf|exact IH].
Qed.

Lemma keeps_rethrow {A} (m : M S A) (h : panicval -> M S A) :
  keeps R m -> (forall r s a s', h r s <> Ok a s') ->
  keeps R (recovering m h).
Proof.
  intros Hm Hh s a s' H. unfold recovering in H.
  destruct (m s) as [a0 s0|r s0|] eqn:E; try discriminate.
  - injection H as <- <-. exact (Hm _ _ _ E).
  - exfalso. exact (Hh _ _ _ _ H).
Qed.

End Keeping.

Section Frame.

Context (CanInline : Block -> bool) (IsSelfClosing : Tag -> bool)
  (Doctype_String : string -> string) (FuncMap : gset string)
  (ParseExpr : string -> option Expr).

(** The relation on the states of [exec]: the compiler grows. *)
Local Abbreviation growsX :=
  (fun s s' : XS => grows (fst s) (fst s')).

Lemma growsX_refl (s : XS) : growsX s s.
Proof. apply grows_refl. Qed.

Lemma growsX_trans (s1 s2 s3 : XS) : growsX s1 s2 -> growsX s2 s3 -> growsX s1 s3.
Proof. apply grows_trans. Qed.

Lemma keeps_write (v : string) : keeps grows (write v).
Proof. apply keeps_modify. intros c. apply grows_write. Qed.

Lemma keeps_indent (offset : Z) (nline : bool) : keeps grows (indent offset nline).
Proof.
  intros c a c' H. rewrite indent_writes in H. injection H as H. subst c'.
  apply grows_write.
Qed.

Lemma keeps_tempvar : keeps grows tempvar.
Proof.
  unfold tempvar. apply (keeps_bind _ grows_trans).
  - apply keeps_modify. intros c. apply grows_tempvarIndex.
  - intros _. apply (keeps_bind _ grows_trans); [apply (keeps_get _ grows_refl)|].
    intros c. apply (keeps_ret _ grows_refl).
Qed.

Lemma keeps_liftC {A} (m : M Compiler A) : keeps grows m -> keeps growsX (liftC m).
Proof.
  intros Hm s a s' H. unfold liftC, lift_fst in H.
  destruct (m (fst s)) as [a0 c0| |] eqn:E; try discriminate.
  injection H as <- <-. exact (Hm _ _ _ E).
Qed.

Lemma keeps_pop : keeps growsX pop.
Proof.
  intros s a s' H. unfold pop in H.
  destruct (snd s); injection H as _ <-; apply grows_refl.
Qed.

Lemma keeps_PushFront (v : string) : keeps growsX (PushFront v).
Proof. intros s a s' H. injection H as H. subst s'. apply grows_refl. Qed.

Ltac keeps_exec :=
  repeat first
    [ apply (keeps_ret _ growsX_refl)
    | apply (keeps_get _ growsX_refl)
    | apply keeps_pop | apply keeps_PushFront
    | apply keeps_liftC; first [apply keeps_write | apply keeps_tempvar]
    | apply (keeps_bind _ growsX_trans); [|intros ?]
    | apply keeps_if
    | apply keeps_panic ].

Lemma keeps_binary_primitive op : keeps growsX (binary_primitive op).
Proof. destruct op; simpl; keeps_exec. Qed.

Lemma keeps_unary_primitive op : keeps growsX (unary_primitive op).
Proof. destruct op; simpl; keeps_exec. Qed.

Lemma keeps_exec_Ident name : keeps growsX (exec_Ident FuncMap name).
Proof. unfold exec_Ident. keeps_exec. Qed.

Lemma keeps_exec_strong (e : Expr) :
  keeps growsX (exec FuncMap e) /\
  match e with
  | SelectorExpr X _ => keeps growsX (exec FuncMap X)
  | _ => True
  end.
Proof.
  induction e as [X Op Y [IHX _] [IHY _]|Op X [IHX _]|X [IHX _]|v|n
                 |X Sel [IHX _]|Fun Args [IHF IHS] IHA|t]
    using Expr_nested_ind; (split; [|try exact I]).
  - cbn [exec].
    apply (keeps_bind _ growsX_trans); [exact IHY|]. intros _.
    apply (keeps_bind _ growsX_trans); [exact IHX|]. intros _.
    apply (keeps_bind _ growsX_trans); [apply keeps_liftC, keeps_tempvar|].
    intros name.
    destruct Op;
      try (apply (keeps_bind _ growsX_trans);
             [apply keeps_liftC, keeps_write|]; intros _;
           apply (keeps_bind _ growsX_trans);
             [apply keeps_binary_primitive|]; intros negate;
           keeps_exec).
    keeps_exec.
  - cbn [exec].
    apply (keeps_bind _ growsX_trans); [exact IHX|]. intros _.
    apply (keeps_bind _ growsX_trans); [apply keeps_liftC, keeps_tempvar|].
    intros name.
    apply (keeps_bind _ growsX_trans); [apply keeps_liftC, keeps_write|].
    intros _.
    apply (keeps_bind _ growsX_trans); [apply keeps_unary_primitive|].
    intros _. keeps_exec.
  - exact IHX.
  - apply keeps_PushFront.
  - apply keeps_exec_Ident.
  - cbn [exec]. apply (keeps_bind _ growsX_trans); [exact IHX|]. intros _.
    keeps_exec.
  - exact IHX.
  - cbn [exec].
    apply (keeps_bind _ growsX_trans).
    { clear IHF IHS. induction Args as [|a Args IH].
      - apply (keeps_ret _ growsX_refl).
      - apply Forall_cons in IHA as [[Ha _] IHA].
        apply (keeps_bind _ growsX_trans); [exact (IH IHA)|]. intros _.
        exact Ha. }
    intros _.
    apply (keeps_bind _ growsX_trans); [apply keeps_liftC, keeps_tempvar|].
    intros name.
    apply (keeps_bind _ growsX_trans).
    { assert (Hgen : keeps growsX
                       (exec FuncMap Fun ;;;
                        f <- pop ;;
                        liftC (write ("{{" ++ name ++ " := " ++ f)))).
      { apply (keeps_bind _ growsX_trans); [exact IHF|]. intros _.
        keeps_exec. }
      destruct Fun; try exact Hgen.
      - apply keeps_if; [keeps_exec|exact Hgen].
      - apply (keeps_bind _ growsX_trans); [exact IHS|]. intros _.
        keeps_exec. }
    intros _.
    apply (keeps_bind _ growsX_trans).
    { apply (keeps_forM_ _ growsX_refl growsX_trans). intros _. keeps_exec. }
    intros _. keeps_exec.
  - cbn [exec]. apply keeps_panic.
Qed.

Lemma keeps_visitExpression e : keeps grows (visitExpression FuncMap e).
Proof.
  intros c v c' H. unfold visitExpression in H.
  assert (Hk : keeps growsX (exec FuncMap e ;;; pop)).
  { apply (keeps_bind _ growsX_trans); [apply keeps_exec_strong|].
    intros _. apply keeps_pop. }
  destruct ((exec FuncMap e ;;; pop) (c, [])) as [v0 s0| |] eqn:E;
    try discriminate.
  injection H as <- <-. exact (Hk _ _ _ E).
Qed.

Lemma keeps_visitRawInterpolation v :
  keeps grows (visitRawInterpolation FuncMap ParseExpr v).
Proof.
  unfold visitRawInterpolation.
  apply (keeps_bind _ grows_trans).
  - destruct (ParseExpr _); [apply (keeps_ret _ grows_refl)|].
    unfold single_quoted_retry.
    destruct (Replace v "$" "__DOLLAR__"); [apply keeps_panic|].
    apply keeps_if; apply (keeps_ret _ grows_refl).
  - intros [e|].
    + apply (keeps_bind _ grows_trans); [apply keeps_visitExpression|].
      intros r. apply (keeps_ret _ grows_refl).
    + apply keeps_panic.
Qed.

Lemma keeps_visitInterpolation v :
  keeps grows (visitInterpolation FuncMap ParseExpr v).
Proof.
  unfold visitInterpolation.
  apply (keeps_bind _ grows_trans); [apply keeps_visitRawInterpolation|].
  intros r. apply (keeps_ret _ grows_refl).
Qed.

Lemma keeps_visitJSInterpolation v :
  keeps grows (visitJSInterpolation FuncMap ParseExpr v).
Proof.
  unfold visitJSInterpolation.
  apply (keeps_bind _ grows_trans); [apply keeps_visitRawInterpolation|].
  intros r. apply (keeps_ret _ grows_refl).
Qed.

Ltac keeps_visit :=
  repeat first
    [ apply (keeps_ret _ grows_refl) | apply (keeps_get _ grows_refl)
    | apply keeps_write | apply keeps_indent
    | apply keeps_visitRawInterpolation
    | apply keeps_visitInterpolation
    | apply keeps_visitJSInterpolation
    | apply (keeps_bind _ grows_trans); [|intros ?]
    | apply keeps_if
    | apply keeps_panic ].

Lemma keeps_visitTag_attribute tbl item :
  keeps grows (visitTag_attribute FuncMap ParseExpr tbl item).
Proof.
  unfold visitTag_attribute, attribute_value, attribute_condition.
  keeps_visit.
Qed.

Lemma keeps_write_attribute tbl n : keeps grows (write_attribute tbl n).
Proof. unfold write_attribute. destruct (tbl !! n); keeps_visit. Qed.

Lemma keeps_interpolate v : keeps grows (interpolate FuncMap ParseExpr v).
Proof.
  unfold interpolate. apply (keeps_foldM _ grows_refl grows_trans).
  intros acc [a|g]; keeps_visit.
Qed.

Lemma keeps_write_lines lines : keeps grows (write_lines lines).
Proof.
  induction lines as [|l lines IH]; [apply (keeps_ret _ grows_refl)|].
  destruct lines as [|l' lines]; [apply keeps_write|].
  rewrite write_lines_more. keeps_visit. exact IH.
Qed.

Lemma keeps_visitText v : keeps grows (visitText FuncMap ParseExpr v).
Proof.
  unfold visitText.
  apply (keeps_bind _ grows_trans); [apply keeps_interpolate|].
  intros r. apply keeps_write_lines.
Qed.

Section Visitors.

Variable h : Heap.
Variable v : Node -> M Compiler unit.
Hypothesis Hv : forall n, keeps grows (v n).

Lemma keeps_visitBlock b : keeps grows (visitBlock CanInline v b).
Proof.
  destruct b as [b|]; [|apply keeps_panic].
  apply (keeps_forM_ _ grows_refl grows_trans). intros n. keeps_visit.
  apply Hv.
Qed.

Lemma keeps_bind_arguments params :
  forall i args nargs,
    keeps grows (bind_arguments FuncMap ParseExpr i params args nargs).
Proof.
  induction params as [|p params IH]; intros i args nargs;
    [apply (keeps_ret _ grows_refl)|].
  destruct args as [|a args]; [apply keeps_panic|].
  cbn [bind_arguments]. keeps_visit. apply IH.
Qed.

(** The block of a tag is visited one level deeper, and the level is
    taken back afterwards. *)
Lemma keeps_tag_block (b : Block) :
  keeps grows
    ((if negb (CanInline b)
      then modify (fun c => set_indentLevel (wrap_int (indentLevel c + 1)) c)
      else ret tt) ;;;
     visitBlock CanInline v (Some b) ;;;
     (if negb (CanInline b)
      then
        modify (fun c => set_indentLevel (wrap_int (indentLevel c - 1)) c) ;;;
        indent 0 true
      else ret tt)).
Proof.
  destruct (CanInline b); cbn [negb].
  - keeps_visit. apply keeps_visitBlock.
  - intros c a c' H.
    apply bind_Ok_inv in H as ([] & c1 & H1 & H).
    apply bind_Ok_inv in H as ([] & c2 & H2 & H).
    apply bind_Ok_inv in H as ([] & c3 & H3 & H).
    injection H1 as <-. injection H3 as <-.
    apply keeps_visitBlock in H2.
    apply keeps_indent in H.
    destruct H2 as (Ho & Hf & Hn & Hw & Hi & [o1 Hb] & Hm).
    destruct H as (Ho' & Hf' & Hn' & Hw' & Hi' & [o2 Hb'] & Hm').
    cbn [options c_filename node newline indentLevel buffer mixins
         set_indentLevel] in *.
    unfold grows. split_and!; try congruence.
    + right.
      assert (E : indentLevel c2 = wrap_int (indentLevel c + 1))
        by (destruct Hi as [Hi|Hi]; rewrite Hi, ?wrap_int_idem; reflexivity).
      rewrite E, wrap_int_back in Hi'.
      destruct Hi' as [Hi'|Hi']; rewrite Hi', ?wrap_int_idem; reflexivity.
    + exists (o1 ++ o2). rewrite Hb', Hb. apply append_assoc.
    + etransitivity; eassumption.
Qed.

Lemma keeps_visit_switch n :
  keeps grows
    (visit_switch CanInline IsSelfClosing Doctype_String FuncMap ParseExpr
       h v n).
Proof.
  destruct n as [b|l|sp val|sp val silent blk|t|sp val raw|sp e pos neg
                |sp e X Y blk|sp e esc|sp X e|m|sp name args];
    cbn [visit_switch].
  - apply keeps_visitBlock.
  - destruct (h !! l); [apply keeps_visitBlock|apply keeps_panic].
  - apply keeps_write.
  - unfold visitComment. apply keeps_if; [apply (keeps_ret _ grows_refl)|].
    apply (keeps_bind _ grows_trans); [apply keeps_indent|]. intros _.
    destruct blk; keeps_visit. apply keeps_visitBlock.
  - unfold visitTag.
    apply (keeps_bind _ grows_trans).
    { apply (keeps_foldM _ grows_refl grows_trans). intros tbl item.
      apply keeps_visitTag_attribute. }
    intros tbl. apply (keeps_bind _ grows_trans); [apply keeps_indent|].
    intros _.
    apply (keeps_bind _ grows_trans); [apply keeps_write|]. intros _.
    apply (keeps_bind _ grows_trans).
    { apply (keeps_forM_ _ grows_refl grows_trans). intros name.
      apply keeps_write_attribute. }
    intros _. apply keeps_if; [apply keeps_write|].
    apply (keeps_bind _ grows_trans); [apply keeps_write|]. intros _.
    apply (keeps_bind _ grows_trans); [|intros _; apply keeps_write].
    destruct (tag_Block t) as [b|]; [|apply (keeps_ret _ grows_refl)].
    apply keeps_tag_block.
  - apply keeps_visitText.
  - unfold visitCondition.
    apply (keeps_bind _ grows_trans); [apply keeps_visitRawInterpolation|].
    intros r.
    apply (keeps_bind _ grows_trans); [apply keeps_write|]. intros _.
    apply (keeps_bind _ grows_trans); [apply keeps_visitBlock|]. intros _.
    apply (keeps_bind _ grows_trans); [|intros _; apply keeps_write].
    destruct neg; [|apply (keeps_ret _ grows_refl)].
    apply (keeps_bind _ grows_trans); [apply keeps_write|]. intros _.
    apply keeps_visitBlock.
  - unfold visitEach. destruct blk; [|apply (keeps_ret _ grows_refl)].
    apply (keeps_bind _ grows_trans); [apply keeps_visitRawInterpolation|].
    intros r.
    apply (keeps_bind _ grows_trans); [keeps_visit|]. intros _.
    apply (keeps_bind _ grows_trans); [apply keeps_visitBlock|]. intros _.
    apply keeps_write.
  - unfold visitBuffered. keeps_visit.
  - unfold visitAssignment. keeps_visit.
  - unfold visitMixin. apply keeps_modify. intros c. apply grows_mixins.
  - unfold visitMixinCall.
    apply (keeps_bind _ grows_trans); [apply (keeps_get _ grows_refl)|].
    intros c.
    destruct (mixins c !! name); [|apply keeps_panic].
    apply (keeps_bind _ grows_trans); [apply keeps_bind_arguments|].
    intros _. apply keeps_visitBlock.
Qed.

End Visitors.

Local Abbreviation visit' :=
  (visit CanInline IsSelfClosing Doctype_String FuncMap ParseExpr).

Lemma visit_recover_not_Ok {A} pos r (c : Compiler) (a : A) c' :
  visit_recover pos r c <> Ok a c'.
Proof.
  unfold visit_recover. destruct r as [rs|rs]; [|discriminate].
  destruct (len rs <? len "Jade Error"); [discriminate|].
  destruct (HasPrefix rs "Jade Error"); discriminate.
Qed.

Lemma visit_grows (fuel : nat) (h : Heap) :
  forall n, keeps grows (visit' fuel h n).
Proof.
  induction fuel as [|fuel IH]; intros n; [apply keeps_out_of_fuel|].
  cbn [visit]. apply keeps_rethrow.
  - apply keeps_visit_switch. exact IH.
  - intros r s a s'. apply visit_recover_not_Ok.
Qed.

(** X20: a traversal only adds to the output.  When [visit] returns,
    the buffer is what it was followed by what the traversal wrote:
    nothing written earlier is changed or dropped; the options, the
    file name and the root of the compiler are the same; and every
    mixin that was defined before still is. *)
Theorem visit_appends_only (fuel : nat) (h : Heap) (n : Node)
  (c c' : Compiler) :
  visit' fuel h n c = Ok tt c' ->
  (exists out : string, buffer c' = buffer c ++ out)
  /\ options c' = options c
  /\ c_filename c' = c_filename c
  /\ node c' = node c
  /\ dom (mixins c) ⊆ dom (mixins c').
Proof.
  intros H. destruct (visit_grows fuel h n _ _ _ H)
    as (Ho & Hf & Hn & Hw & Hi & Hb & Hm).
  auto.
Qed.

(** X21: a traversal restores the indentation.  When [visit] returns
    on a compiler whose indentation level is a value of [int], the
    level is what it was before, however deep the tags inside the node
    were nested. *)
Theorem visit_restores_indentation (fuel : nat) (h : Heap) (n : Node)
  (c c' : Compiler) :
  - 2 ^ 63 <= indentLevel c < 2 ^ 63 ->
  visit' fuel h n c = Ok tt c' ->
  indentLevel c' = indentLevel c.
Proof.
  intros Hr H. destruct (visit_grows fuel h n _ _ _ H)
    as (Ho & Hf & Hn & Hw & [Hi|Hi] & Hb & Hm); [exact Hi|].
  rewrite Hi. apply wrap_int_small. exact Hr.
Qed.

End Frame.

(** ** Panics of the parser *)

Lemma prefix_app_l (p s t : string) :
  String.prefix p s = true -> String.prefix p (s ++ t) = true.
Proof.
  revert s. induction p as [|a p IH]; intros s H.
  - destruct (s ++ t); reflexivity.
  - destruct s as [|b s]; [discriminate|]. rewrite append_cons.
    cbn [String.prefix] in *. destruct (ascii_dec a b); [|discriminate].
    apply IH. exact H.
Qed.

Section ParserPanics.

Context {scanner FileData FileSystem : Type}.
Context (newScanner : FileData -> scanner)
  (scanner_Next : M scanner (option token))
  (scanner_Pos : scanner -> SourcePosition)
  (scanner_readRaw : scanner -> scanner)
  (fs_ReadFile : FileSystem -> string -> string + FileData)
  (os_PathSeparator : ascii) (os_IsPathSeparator : ascii -> bool)
  (filepath_Dir filepath_Base : string -> string)
  (filepath_Join : string -> string -> string)
  (IsRawText : Tag -> bool)
  (mixin_parameters call_arguments : string -> list string)
  (runtime_Stack : string).

(** The scanner panics, if at all, with a run-time error or with a
    string that is not shorter than "Jade Error". *)
Hypothesis scanner_panics :
  forall sc p sc', scanner_Next sc = Panic p sc' -> sliceable p.

Local Abbreviation knot :=
  (recs scanner FileData newScanner scanner_Next scanner_Pos scanner_readRaw
     FileSystem fs_ReadFile os_PathSeparator os_IsPathSeparator filepath_Dir
     filepath_Base filepath_Join IsRawText mixin_parameters call_arguments
     runtime_Stack).
Local Abbreviation State := (PS scanner FileSystem).
Local Abbreviation Recs' := (Recs scanner FileSystem).

Lemma panics_advance :
  panics sliceable (advance scanner scanner_Next FileSystem).
Proof.
  intros s. unfold advance.
  destruct (scanner_Next (p_scanner _ _ (fst s))) as [t sc|p sc|] eqn:E;
    try exact I.
  exact (scanner_panics _ _ _ E).
Qed.

Ltac sliceable_value :=
  first [ exact I
        | apply sliceable_literal; vm_compute; discriminate
        | vm_compute; discriminate ].

Ltac tame_hyp :=
  match goal with
  | H : panics sliceable ?m |- panics sliceable ?m => exact H
  | H : forall a, panics sliceable (?f a) |- panics sliceable (?f _) =>
      apply H
  | H : forall a b, panics sliceable (?f a b)
    |- panics sliceable (?f _ _) => apply H
  | H : forall a b c, panics sliceable (?f a b c)
    |- panics sliceable (?f _ _ _) => apply H
  end.

Ltac tame_steps :=
  repeat first
    [ tame_hyp
    | apply panics_ret | apply panics_get | apply panics_gets
    | apply panics_modify | apply panics_out_of_fuel
    | apply panics_advance
    | apply panics_bind; [|intros ?]
    | apply panics_if
    | apply panics_forM_; intros ?
    | apply panics_panic; sliceable_value
    | match goal with
      | |- panics _ (match ?x with _ => _ end) => destruct x
      end ].

Ltac tame_unfold :=
  unfold parse, parseBlock_loop, parseIf, parseIf_more, parseUnless_more,
    parseUnless, parseEach, parseComment, parseMixin, parseTag,
    parseTaglessClass, parseTaglessId, parseTagReal, parseExtends,
    parseImport, parseNamedBlock, parseBlock, parseDoctype, parseText,
    parseBuffered, parseAssignment, parseMixinCall, parseRelativeFile,
    Parse_loop, append_loop, merge_block, merge_blocks,
    expect, expectOneOf, current, pos, the_parser, update_parser,
    Convert, FileParserFs, deref, store, alloc, heap_push, heap_pushFront,
    heap_set_Children.

#[local] Arguments Parse {scanner} scanner_Next scanner_Pos {FileSystem} rec runtime_Stack _.
#[local] Arguments Parse_on {scanner} scanner_Next scanner_Pos {FileSystem} rec runtime_Stack q _.
#[local] Arguments Parse_parent {scanner FileSystem} rec q _.
#[local] Arguments Parse_recover {scanner} scanner_Pos {FileSystem} runtime_Stack {A} r _.
#[local] Arguments merge_blocks {scanner FileSystem} rec prevs _.
#[local] Arguments prepend_loop {scanner FileSystem} prev ours k _.

Lemma tame_prepend_loop (a b : loc) (k : nat) :
  panics sliceable (prepend_loop (scanner := scanner)
                      (FileSystem := FileSystem) a b k).
Proof.
  induction k as [|k IH]; cbn [prepend_loop]; [apply panics_ret|].
  tame_unfold. tame_steps.
Qed.

(** The deferred function of [Parse] turns every panic it can take
    into a "Jade Error" string. *)
Lemma Parse_recover_jade {A} (r : panicval) :
  sliceable r ->
  panics is_jade_error
    (Parse_recover (FileSystem := FileSystem) (A := A) scanner_Pos
       runtime_Stack r).
Proof.
  assert (Hwrap : forall (r : panicval) (s : State),
            match (sp <- pos scanner scanner_Pos FileSystem ;;
                   if 0 <? len (Filename sp)
                   then panic (A := A) (PanicStr (jade_error sp r))
                   else panic (PanicStr (jade_error sp r ++ nl
                                         ++ runtime_Stack))) s with
            | Panic p _ => is_jade_error p
            | _ => True
            end).
  { intros r0 [p h]. cbv [bind pos the_parser gets ret fst snd Filename].
    destruct (0 <? len (p_filename _ _ p)); unfold panic;
      cbn [is_jade_error].
    - apply jade_error_prefix.
    - apply prefix_app_l. apply jade_error_prefix. }
  intros Hr s. unfold Parse_recover. destruct r as [rs|rs].
  - simpl in Hr. apply Z.ltb_ge in Hr. rewrite Hr.
    destruct (HasPrefix rs "Jade Error") eqn:E; [exact E|].
    apply Hwrap.
  - apply Hwrap.
Qed.

Section Level.

Variable rec : Recs'.
Hypothesis Hrec : tame rec.

Ltac tame_fields :=
  destruct Hrec as (H1 & H2 & H3 & H4 & H5 & H6 & H7 & H8 & H9).

Lemma tame_merge_blocks prevs :
  panics sliceable (merge_blocks rec prevs).
Proof.
  pose proof tame_prepend_loop as HP. tame_fields.
  unfold merge_blocks. apply panics_forM_. intros prev.
  tame_unfold. tame_steps.
Qed.

Lemma tame_Parse_parent q : panics sliceable (Parse_parent rec q).
Proof.
  tame_fields. intros s. unfold Parse_parent. specialize (H9 q s).
  destruct (r_Parse _ _ rec q s); exact H9.
Qed.

Lemma Parse_panics_jade :
  panics is_jade_error (Parse scanner_Next scanner_Pos rec runtime_Stack).
Proof.
  pose proof tame_merge_blocks as HM. pose proof tame_Parse_parent as HQ.
  assert (Hbody : forall (m : M State (option Block)),
            panics sliceable m ->
            panics is_jade_error
              (recovering m (Parse_recover scanner_Pos runtime_Stack))).
  { intros m Hm s. unfold recovering. specialize (Hm s).
    destruct (m s) as [a s1|p s1|]; [exact I| |exact I].
    apply (Parse_recover_jade _ Hm). }
  tame_fields. unfold Parse.
  apply panics_bind; [tame_unfold; tame_steps|]. intros p.
  destruct (result _ _ p); [apply panics_ret|].
  apply Hbody. unfold update_parser, the_parser. tame_steps.
Qed.

Lemma tame_Parse_on q :
  panics sliceable (Parse_on scanner_Next scanner_Pos rec runtime_Stack q).
Proof.
  intros s. unfold Parse_on.
  pose proof (Parse_panics_jade (q, snd s)) as H.
  destruct (Parse _ _ _ _ (q, snd s)); try exact I.
  apply jade_error_sliceable. exact H.
Qed.

End Level.

Lemma tame_no_fuel : tame (no_fuel scanner FileSystem).
Proof. unfold tame, no_fuel. cbn. split_and!; intros; apply panics_out_of_fuel. Qed.

Lemma tame_knot (fuel : nat) : tame (knot fuel).
Proof.
  induction fuel as [|fuel IH]; [apply tame_no_fuel|].
  pose proof (tame_Parse_on _ IH) as HP.
  destruct IH as (H1 & H2 & H3 & H4 & H5 & H6 & H7 & H8 & H9).
  unfold tame.
  cbn [recs r_parse r_parseBlock_loop r_parseIf r_parseIf_more
       r_parseUnless_more r_parseTagReal r_Parse_loop r_append_loop r_Parse].
  split_and!; intros.
  - unfold parse. apply panics_bind; [tame_unfold; tame_steps|]. intros t.
    destruct (Kind t); tame_unfold; tame_steps.
  - tame_unfold. tame_steps.
  - tame_unfold. tame_steps.
  - tame_unfold. apply panics_bind; [tame_steps|]. intros t.
    destruct (Kind t); tame_steps.
  - tame_unfold. apply panics_bind; [tame_steps|]. intros t.
    destruct (Kind t); tame_steps.
  - tame_unfold. apply panics_bind; [tame_steps|]. intros t.
    destruct (Kind t); tame_steps.
  - unfold Parse_loop, parse. tame_unfold. tame_steps.
  - tame_unfold. tame_steps.
  - apply HP.
Qed.


Local Abbreviation Parser_Parse' :=
  (Parser_Parse scanner FileData newScanner scanner_Next scanner_Pos
     scanner_readRaw FileSystem fs_ReadFile os_PathSeparator
     os_IsPathSeparator filepath_Dir filepath_Base filepath_Join IsRawText
     mixin_parameters call_arguments runtime_Stack).

Lemma Parser_Parse_panics_jade (fuel : nat) :
  panics is_jade_error (Parser_Parse' fuel).
Proof. apply Parse_panics_jade. apply tame_knot. Qed.

(** X22: every panic that leaves [Parse] is a string that starts with
    "Jade Error", whatever failed inside: an unexpected token, a file
    that cannot be read, a second [extends], a nil token, or the
    scanner, as long as the scanner itself panics with a run-time error
    or with a string of at least the length of that prefix. *)
Theorem Parse_panics_are_jade_errors (fuel : nat) (s s' : State)
  (p : panicval) :
  Parser_Parse' fuel s = Panic p s' ->
  exists msg : string, p = PanicStr msg /\ HasPrefix msg "Jade Error" = true.
Proof.
  intros H. pose proof (Parser_Parse_panics_jade fuel s) as Hj.
  rewrite H in Hj. destruct p as [msg|msg]; [|destruct Hj].
  exists msg. split; [reflexivity|exact Hj].
Qed.

Local Abbreviation Compiler_Parse' :=
  (Compiler_Parse scanner FileData newScanner scanner_Next scanner_Pos
     scanner_readRaw FileSystem fs_ReadFile os_PathSeparator
     os_IsPathSeparator filepath_Dir filepath_Base filepath_Join IsRawText
     mixin_parameters call_arguments runtime_Stack).
Local Abbreviation Compiler_ParseFile' :=
  (Compiler_ParseFile scanner FileData newScanner scanner_Next scanner_Pos
     scanner_readRaw FileSystem fs_ReadFile os_PathSeparator
     os_IsPathSeparator filepath_Dir filepath_Base filepath_Join IsRawText
     mixin_parameters call_arguments runtime_Stack).
Local Abbreviation parse_into' :=
  (parse_into scanner FileData newScanner scanner_Next scanner_Pos
     scanner_readRaw FileSystem fs_ReadFile os_PathSeparator
     os_IsPathSeparator filepath_Dir filepath_Base filepath_Join IsRawText
     mixin_parameters call_arguments runtime_Stack).




End ParserPanics.

(** ** Inheritance, named blocks and files *)

Section InheritanceFacts.

Context {scanner FileData FileSystem : Type}.
Context (newScanner : FileData -> scanner)
  (scanner_Next : M scanner (option token))
  (scanner_Pos : scanner -> SourcePosition)
  (scanner_readRaw : scanner -> scanner)
  (fs_ReadFile : FileSystem -> string -> string + FileData)
  (os_PathSeparator : ascii) (os_IsPathSeparator : ascii -> bool)
  (filepath_Dir filepath_Base : string -> string)
  (filepath_Join : string -> string -> string)
  (IsRawText : Tag -> bool)
  (mixin_parameters call_arguments : string -> list string)
  (runtime_Stack : string).

Local Abbreviation knot :=
  (recs scanner FileData newScanner scanner_Next scanner_Pos scanner_readRaw
     FileSystem fs_ReadFile os_PathSeparator os_IsPathSeparator filepath_Dir
     filepath_Base filepath_Join IsRawText mixin_parameters call_arguments
     runtime_Stack).
Local Abbreviation State := (PS scanner FileSystem).
Local Abbreviation Parser' := (Parser scanner FileSystem).
Local Abbreviation Parser_Parse' :=
  (Parser_Parse scanner FileData newScanner scanner_Next scanner_Pos
     scanner_readRaw FileSystem fs_ReadFile os_PathSeparator
     os_IsPathSeparator filepath_Dir filepath_Base filepath_Join IsRawText
     mixin_parameters call_arguments runtime_Stack).

#[local] Arguments Parse {scanner} scanner_Next scanner_Pos {FileSystem} rec runtime_Stack _.
#[local] Arguments Parse_on {scanner} scanner_Next scanner_Pos {FileSystem} rec runtime_Stack q _.
#[local] Arguments Parse_parent {scanner FileSystem} rec q _.
#[local] Arguments Parse_recover {scanner} scanner_Pos {FileSystem} runtime_Stack {A} r _.
#[local] Arguments merge_blocks {scanner FileSystem} rec prevs _.
#[local] Arguments merge_block {scanner FileSystem} rec prev _.
#[local] Arguments prepend_loop {scanner FileSystem} prev ours k _.
#[local] Arguments append_loop {scanner FileSystem} rec prev ours i _.
#[local] Arguments r_append_loop {scanner FileSystem} _ _ _ _ _.
#[local] Arguments r_Parse {scanner FileSystem} _ _ _.
#[local] Arguments result {scanner FileSystem} p.
#[local] Arguments parent {scanner FileSystem} p.
#[local] Arguments namedBlocks {scanner FileSystem} p.
#[local] Arguments set_result {scanner FileSystem} r p.
#[local] Arguments set_parent {scanner FileSystem} q p.
#[local] Arguments the_parser {scanner FileSystem} _.
#[local] Arguments update_parser {scanner FileSystem} f _.
#[local] Arguments deref {scanner FileSystem} l _.
#[local] Arguments store {scanner FileSystem} l nb _.
#[local] Arguments heap_push {scanner FileSystem} l n _.
#[local] Arguments heap_pushFront {scanner FileSystem} l n _.
#[local] Arguments heap_set_Children {scanner FileSystem} l children _.

(** The parser of a state is the same. *)
Local Abbreviation same_parser := (fun s s' : State => fst s' = fst s).

Lemma same_parser_refl (s : State) : same_parser s s.
Proof. reflexivity. Qed.

Lemma same_parser_trans (s1 s2 s3 : State) :
  same_parser s1 s2 -> same_parser s2 s3 -> same_parser s1 s3.
Proof. cbv beta. congruence. Qed.

Ltac same_steps :=
  repeat first
    [ apply (keeps_ret _ same_parser_refl)
    | apply (keeps_get _ same_parser_refl)
    | apply keeps_panic | apply keeps_out_of_fuel
    | apply keeps_modify; intros ?; reflexivity
    | apply (keeps_bind _ same_parser_trans); [|intros ?]
    | apply keeps_if
    | match goal with
      | H : forall a b c, keeps _ (?f a b c) |- keeps _ (?f _ _ _) => apply H
      | |- keeps _ (match ?x with _ => _ end) => destruct x
      end ].

Lemma same_deref l : keeps same_parser (deref l).
Proof. unfold deref. same_steps. Qed.

Lemma same_store l nb : keeps same_parser (store l nb).
Proof. unfold store. same_steps. Qed.

Lemma same_prepend_loop prev ours k :
  keeps same_parser (prepend_loop prev ours k).
Proof.
  induction k as [|k IH]; cbn [prepend_loop]; [same_steps|].
  apply (keeps_bind _ same_parser_trans); [apply same_deref|]. intros o.
  apply (keeps_bind _ same_parser_trans); [|intros _; exact IH].
  destruct (_ !! _); [|apply keeps_panic].
  unfold heap_pushFront.
  apply (keeps_bind _ same_parser_trans); [apply same_deref|]. intros nb.
  apply same_store.
Qed.

Lemma same_append_loop (fuel : nat) :
  forall prev ours i, keeps same_parser (r_append_loop (knot fuel) prev ours i).
Proof.
  induction fuel as [|fuel IH]; intros prev ours i;
    [apply keeps_out_of_fuel|].
  cbn [recs r_append_loop]. unfold append_loop.
  apply (keeps_bind _ same_parser_trans); [apply same_deref|]. intros o.
  destruct (_ !! _); [|same_steps].
  apply (keeps_bind _ same_parser_trans); [|intros _; apply IH].
  unfold heap_push.
  apply (keeps_bind _ same_parser_trans); [apply same_deref|]. intros nb.
  apply same_store.
Qed.

Lemma same_merge_blocks (fuel : nat) prevs :
  keeps same_parser (merge_blocks (knot fuel) prevs).
Proof.
  unfold merge_blocks.
  apply (keeps_forM_ _ same_parser_refl same_parser_trans). intros prev.
  unfold merge_block.
  apply (keeps_bind _ same_parser_trans); [apply same_deref|]. intros pv.
  apply (keeps_bind _ same_parser_trans);
    [unfold the_parser, gets; intros s a s' H; injection H as _ <-;
     reflexivity|].
  intros p. destruct (_ !! _); [|same_steps].
  apply (keeps_bind _ same_parser_trans); [apply same_deref|]. intros o.
  destruct (nb_Modifier o).
  - unfold heap_set_Children.
    apply (keeps_bind _ same_parser_trans); [apply same_deref|]. intros nb.
    apply same_store.
  - apply same_append_loop.
  - apply same_prepend_loop.
Qed.

(** X25: what [Parse] returns for a template that extends another.
    When [Parse] runs (there is no cached result) and returns on a
    parser that has a parent by then, the block it returns and caches
    is the result of the parent, which is there because the parent was
    parsed; the block that [Parse] built from the parser's own tokens
    is not what it returns. *)
Theorem Parse_returns_the_parent_result (fuel : nat) (s s' : State)
  (r : option Block) (q : Parser') :
  result (fst s) = None ->
  Parser_Parse' fuel s = Ok r s' ->
  parent (fst s') = Some q ->
  r = result q /\ is_Some (result q) /\ result (fst s') = r.
Proof.
  unfold Parser_Parse. intros Hres H Hq.
  destruct fuel as [|n].
  { unfold Parse in H. apply bind_Ok_inv in H as (p & s1 & Hp & H).
    unfold the_parser, gets in Hp. injection Hp as <- <-. rewrite Hres in H.
    apply recovering_Ok_inv in H; [|apply Parse_recover_not_Ok].
    apply bind_Ok_inv in H as (? & s2 & _ & H).
    apply bind_Ok_inv in H as (? & s3 & H & _). discriminate. }
  unfold Parse in H. apply bind_Ok_inv in H as (p & s1 & Hp & H).
  unfold the_parser, gets in Hp. injection Hp as <- <-. rewrite Hres in H.
  apply recovering_Ok_inv in H; [|apply Parse_recover_not_Ok].
  apply bind_Ok_inv in H as (? & s2 & _ & H).
  apply bind_Ok_inv in H as (blk & s3 & _ & H).
  apply bind_Ok_inv in H as (p3 & s3' & Hp3 & H).
  unfold the_parser, gets in Hp3. injection Hp3 as <- <-.
  apply bind_Ok_inv in H as (block & s4 & Hblock & H).
  apply bind_Ok_inv in H as (? & s5 & Hupd & H).
  unfold ret in H. injection H as Hr Hs.
  unfold update_parser, modify in Hupd. injection Hupd as Hs5.
  subst s' s5 r. cbn [fst snd] in *.
  destruct (parent (fst s3)) as [q0|] eqn:Hpar.
  - apply bind_Ok_inv in Hblock as (b1 & s6 & Hpp & Hblock).
    apply bind_Ok_inv in Hblock as (p6 & s6' & Hp6 & Hblock).
    unfold the_parser, gets in Hp6. injection Hp6 as <- <-.
    unfold Parse_parent in Hpp. simpl r_Parse in Hpp.
    unfold Parse_on in Hpp.
    destruct (Parse _ _ _ _ (q0, snd s3)) as [b0 s0| |] eqn:HP;
      try discriminate.
    injection Hpp as <- <-. cbn [fst snd parent set_parent] in Hblock.
    apply bind_Ok_inv in Hblock as ([] & s7 & Hmerge & Hblock).
    injection Hblock as <- <-.
    apply same_merge_blocks in Hmerge. cbn [fst] in Hmerge.
    destruct s7 as [p7 h7]. cbn [fst] in *. subst p7.
    cbn [parent set_parent set_result] in Hq. injection Hq as <-.
    destruct (Parse_sets_result newScanner scanner_Next scanner_Pos
                scanner_readRaw fs_ReadFile os_PathSeparator
                os_IsPathSeparator filepath_Dir filepath_Base filepath_Join
                IsRawText mixin_parameters call_arguments runtime_Stack
                n _ _ _ HP) as [Hb Hsome].
    split; [reflexivity|]. split; [rewrite Hb; exact Hsome|reflexivity].
  - injection Hblock as <- <-. destruct s3 as [p3 h3]. cbn [fst] in *.
    cbn [parent set_result] in Hq. congruence.
Qed.


#[local] Arguments expect {scanner} scanner_Next {FileSystem} typ _.
#[local] Arguments advance {scanner} scanner_Next {FileSystem} _.
#[local] Arguments current {scanner FileSystem} _.
#[local] Arguments pos {scanner} scanner_Pos {FileSystem} _.
#[local] Arguments alloc {scanner FileSystem} nb _.
#[local] Arguments parseNamedBlock {scanner} scanner_Next scanner_Pos {FileSystem} rec _.
#[local] Arguments parseBlock {scanner} scanner_Next scanner_Pos {FileSystem} rec parent _.
#[local] Arguments set_namedBlocks {scanner FileSystem} n p.

(** X26: [parseNamedBlock] on a named-block token.  When the table of
    the parser already has a block of that name, it panics with
    "Multiple definitions of named blocks are not permitted." and the
    name.  When it returns, the table maps the name to a block of that
    name in the store, whose modifier is append or prepend when the
    token says so and the default otherwise; with the default modifier
    the node returned is that very block, with append or prepend it is
    an empty block, so that the content is not rendered in place. *)
Theorem named_block_registration (rec : Recs scanner FileSystem)
  (s s1 : State) (tok : token) :
  expect scanner_Next tokNamedBlock s = Ok tok s1 ->
  (forall l : loc,
     namedBlocks (fst s1) !! Value tok = Some l ->
     parseNamedBlock scanner_Next scanner_Pos rec s
     = Panic (PanicStr
                ("Multiple definitions of named blocks are not permitted. Block "
                 ++ Value tok ++ " has been re defined.")) s1)
  /\ (forall (n : Node) (s' : State),
        parseNamedBlock scanner_Next scanner_Pos rec s = Ok n s' ->
        exists (l : loc) (nb : NamedBlock),
          namedBlocks (fst s') !! Value tok = Some l
          /\ snd s' !! l = Some nb
          /\ nb_Name nb = Value tok
          /\ nb_Modifier nb = modifier_of tok
          /\ n = match nb_Modifier nb with
                 | NamedBlockDefault => NNamedBlock l
                 | _ => NBlock newBlock
                 end).
Proof.
  intros Hexp. split.
  - intros l Hl. unfold parseNamedBlock. unfold bind at 1. rewrite Hexp.
    unfold bind at 1, the_parser, gets. rewrite Hl. reflexivity.
  - intros n s' H. unfold parseNamedBlock in H. unfold bind at 1 in H.
    rewrite Hexp in H. apply bind_Ok_inv in H as (p & s2 & Hp & H).
    unfold the_parser, gets in Hp. injection Hp as <- <-.
    destruct (namedBlocks (fst s1) !! Value tok); [discriminate|].
    apply bind_Ok_inv in H as (sp & s3 & _ & H).
    apply bind_Ok_inv in H as (t & s4 & _ & H).
    apply bind_Ok_inv in H as (block & s5 & _ & H).
    apply bind_Ok_inv in H as (l & s6 & Hl & H).
    apply bind_Ok_inv in H as ([] & s7 & Hupd & H).
    unfold alloc, bind, get, store, modify, ret in Hl.
    injection Hl as <- <-.
    unfold update_parser, modify in Hupd. injection Hupd as <-.
    set (l := fresh (dom (snd s5))) in *.
    exists l, (mkNamedBlock block (Value tok) (modifier_of tok)).
    assert (Hs' : s' = (set_namedBlocks (<[Value tok := l]>
                                            (namedBlocks (fst s5))) (fst s5),
                        <[l := mkNamedBlock block (Value tok)
                                 (modifier_of tok)]> (snd s5))
                  /\ n = match modifier_of tok with
                         | NamedBlockDefault => NNamedBlock l
                         | _ => NBlock newBlock
                         end).
    { unfold modifier_of. cbn [fst snd] in H.
      destruct (String.eqb (Data_get tok "Modifier") "append");
        [injection H as <- <-; split; reflexivity|].
      destruct (String.eqb (Data_get tok "Modifier") "prepend");
        injection H as <- <-; split; reflexivity. }
    destruct Hs' as [-> ->]. cbn [fst snd namedBlocks set_namedBlocks].
    split; [apply lookup_insert_eq|]. split; [apply lookup_insert_eq|].
    split; [reflexivity|]. split; reflexivity.
Qed.

#[local] Arguments parseRelativeFile {scanner FileData} newScanner {FileSystem} fs_ReadFile os_PathSeparator os_IsPathSeparator filepath_Dir filepath_Base filepath_Join filename _.


(** X28: the separators of a path.  Turning the separator of a file
    system into the separator of the system and back gives the path
    again when the path has no byte that is the separator of the
    system; so on a system that takes [/] or [\] as a separator,
    [Convert] with a function that keeps its argument returns the path
    as it is.  When neither is a separator of the system and the two
    separators differ, [Convert] panics with "invalid path
    separator". *)
Theorem path_separator_round_trip (pathSeparator : ascii) (path : string)
  (s : State) :
  has_byte os_PathSeparator path = false ->
  FromOsSeparator os_PathSeparator pathSeparator
    (ToOsSeparator os_PathSeparator pathSeparator path) = path
  /\ (os_IsPathSeparator "/" || os_IsPathSeparator "\" = true ->
      Convert os_PathSeparator os_IsPathSeparator pathSeparator path
        (fun p => p) s = Ok path s)
  /\ (os_IsPathSeparator "/" || os_IsPathSeparator "\" = false ->
      pathSeparator <> os_PathSeparator ->
      Convert os_PathSeparator os_IsPathSeparator pathSeparator path
        (fun p => p) s
      = Panic (PanicStr ("invalid path separator: '"
                         ++ String pathSeparator EmptyString ++ "'")) s).
Proof.
  intros Hno.
  assert (Hround : FromOsSeparator os_PathSeparator pathSeparator
                     (ToOsSeparator os_PathSeparator pathSeparator path)
                   = path).
  { unfold FromOsSeparator, ToOsSeparator.
    induction path as [|a path IH]; [reflexivity|].
    cbn [has_byte] in Hno. apply orb_false_elim in Hno as [Ha Hno].
    rewrite Replace_byte, Replace_byte_app, (IH Hno).
    destruct (Ascii.eqb a pathSeparator) eqn:E.
    - apply Ascii.eqb_eq in E. subst a. rewrite Replace_byte.
      rewrite Ascii.eqb_refl. reflexivity.
    - rewrite Replace_byte. rewrite Ascii.eqb_sym, Ha. reflexivity. }
  split; [exact Hround|]. split.
  - intros Hos. unfold Convert.
    destruct (Ascii.eqb os_PathSeparator pathSeparator); cbn [negb];
      [reflexivity|].
    rewrite Hos, Hround. reflexivity.
  - intros Hos Hne. unfold Convert.
    destruct (Ascii.eqb os_PathSeparator pathSeparator) eqn:E.
    + apply Ascii.eqb_eq in E. congruence.
    + cbn [negb]. rewrite Hos. reflexivity.
Qed.

#[local] Arguments parseImport {scanner FileData} newScanner scanner_Next scanner_Pos {FileSystem} fs_ReadFile os_PathSeparator os_IsPathSeparator filepath_Dir filepath_Base filepath_Join rec _.

Lemma expect_keeps_table (typ : tokKind) (s s1 : State) (tok : token) :
  expect scanner_Next typ s = Ok tok s1 ->
  namedBlocks (fst s1) = namedBlocks (fst s)
  /\ parent (fst s1) = parent (fst s)
  /\ result (fst s1) = result (fst s)
  /\ snd s1 = snd s.
Proof.
  unfold expect. intros H.
  apply bind_Ok_inv in H as (t & s2 & Ht & H).
  unfold current in Ht. apply bind_Ok_inv in Ht as (p & s3 & Hp & Ht).
  unfold the_parser, gets in Hp. injection Hp as <- <-.
  destruct (currenttoken _ _ (fst s)); [|discriminate].
  injection Ht as <- <-.
  destruct (negb _); [discriminate|].
  apply bind_Ok_inv in H as ([] & s4 & Ha & H). injection H as <- <-.
  unfold advance in Ha.
  destruct (scanner_Next _) as [t' sc| |]; try discriminate.
  injection Ha as <-. destruct s as [[] h]. auto.
Qed.

(** X29: an import does not touch the tables of the importing parser.
    When [parseImport] returns, the parser has the named blocks, the
    parent and the result it had before: the named blocks that the
    imported file declares are entered in the table of the parser of
    that file only, so a template that extends the importing one
    cannot override them.  What is returned is a block. *)
Theorem import_keeps_the_table (fuel : nat) (s s' : State) (n : Node) :
  parseImport newScanner scanner_Next scanner_Pos fs_ReadFile
    os_PathSeparator os_IsPathSeparator filepath_Dir filepath_Base
    filepath_Join (knot (S fuel)) s = Ok n s' ->
  namedBlocks (fst s') = namedBlocks (fst s)
  /\ parent (fst s') = parent (fst s)
  /\ result (fst s') = result (fst s)
  /\ exists b : Block, n = NBlock b.
Proof.
  unfold parseImport. intros H.
  apply bind_Ok_inv in H as (tok & s1 & Hexp & H).
  apply bind_Ok_inv in H as (parser & s2 & Hrel & H).
  apply bind_Ok_inv in H as (r & s3 & HP & H).
  destruct (expect_keeps_table _ _ _ _ Hexp) as (Hn & Hp & Hr & _).
  assert (Hs2 : s2 = s1).
  { revert Hrel. clear. unfold parseRelativeFile. intros H.
    apply bind_Ok_inv in H as (p & s3 & Hp & H).
    unfold the_parser, gets in Hp. injection Hp as <- <-.
    destruct (len _ =? 0); [discriminate|].
    apply bind_Ok_inv in H as (f1 & s4 & H1 & H).
    apply bind_Ok_inv in H as (f2 & s5 & H2 & H).
    apply bind_Ok_inv in H as (r & s6 & H3 & H).
    assert (Hc : forall path osFn (x : string) (t t' : State),
              Convert os_PathSeparator os_IsPathSeparator
                (p_pathSeparator _ _ (fst s1)) path osFn t = Ok x t' ->
              t' = t).
    { intros path osFn x t t'. unfold Convert.
      destruct (negb _); [destruct (_ || _)|]; intros E;
        try discriminate; injection E as _ <-; reflexivity. }
    apply Hc in H1, H2. subst s4 s5.
    unfold FileParserFs in H3. destruct (p_fs _ _ (fst s1));
      [|discriminate].
    destruct (fs_ReadFile _ _); injection H3 as <- <-;
      [discriminate|]. injection H as _ <-. reflexivity. }
  subst s2. cbn [recs r_Parse] in HP. unfold Parse_on in HP.
  destruct (Parse _ _ _ _ _) as [b0 s0| |]; try discriminate.
  injection HP as <- <-. cbn [fst] in H.
  destruct b0 as [node|]; [|discriminate].
  apply bind_Ok_inv in H as (sp & s4 & Hpos & H).
  unfold pos, bind, the_parser, gets, ret in Hpos. injection Hpos as _ <-.
  injection H as <- <-. cbn [fst].
  split; [exact Hn|]. split; [exact Hp|]. split; [exact Hr|]. eauto.
Qed.


Lemma parse_stray (rec : Recs scanner FileSystem) (s : State) (t : token) :
  currenttoken _ _ (fst s) = Some t ->
  starts_no_node (Kind t) = true ->
  parse scanner FileData newScanner scanner_Next scanner_Pos FileSystem
    fs_ReadFile os_PathSeparator os_IsPathSeparator filepath_Dir
    filepath_Base filepath_Join mixin_parameters call_arguments rec s
  = Panic (PanicStr ("Unexpected token: " ++ tokenKind2Str (Kind t))) s.
Proof.
  intros Hc Hk. unfold parse, bind at 1, current, bind at 1, the_parser, gets.
  rewrite Hc. unfold ret at 1.
  destruct (Kind t); try discriminate; reflexivity.
Qed.

(** X30: a token that starts no node.  When the first token that
    [Parse] reads is an [else], an attribute, an attribute list, a
    semicolon or of a kind the parser does not know, [Parse] panics
    with the Jade Error built from "Unexpected token: ", the name of
    the kind and the position of the scanner; for a parser without a
    file name the stack trace is appended to the message.  The parser
    is left with that token as its current one. *)
Theorem stray_token_is_reported (fuel : nat) (p : Parser') (h : Heap)
  (t : token) (sc' : scanner) :
  result p = None ->
  scanner_Next (p_scanner _ _ p) = Ok (Some t) sc' ->
  starts_no_node (Kind t) = true ->
  let sp :=
    mkPos (LineNum (scanner_Pos sc')) (ColNum (scanner_Pos sc'))
      (TokenLength (scanner_Pos sc')) (p_filename _ _ p) in
  let message :=
    jade_error sp (PanicStr ("Unexpected token: " ++ tokenKind2Str (Kind t))) in
  Parser_Parse' (S fuel) (p, h)
  = Panic (PanicStr (if 0 <? len (p_filename _ _ p) then message
                     else message ++ nl ++ runtime_Stack))
      (set_currenttoken _ _ (Some t) (set_scanner _ _ sc' p), h).
Proof.
  intros Hres Hnext Hkind sp message.
  unfold Parser_Parse, Parse. unfold bind at 1, the_parser, gets.
  cbn [fst]. rewrite Hres. unfold recovering.
  unfold bind at 1. unfold advance at 1. cbn [fst snd]. rewrite Hnext.
  unfold bind at 1. cbn [recs r_Parse_loop]. unfold Parse_loop at 1.
  unfold bind at 1, the_parser, gets. cbn [fst].
  change (currenttoken _ _ (set_currenttoken _ _ (Some t)
                              (set_scanner _ _ sc' p))) with (Some t).
  assert (Heof : bool_decide (Kind t = tokEOF) = false)
    by (apply bool_decide_eq_false_2; intros E; rewrite E in Hkind;
        discriminate).
  assert (Hblank : bool_decide (Kind t = tokBlank) = false)
    by (apply bool_decide_eq_false_2; intros E; rewrite E in Hkind;
        discriminate).
  cbv iota beta. rewrite Heof, Hblank. unfold bind at 1.
  rewrite (parse_stray (knot fuel)
             (set_currenttoken _ _ (Some t) (set_scanner _ _ sc' p), h)
             t eq_refl Hkind).
  unfold Parse_recover.
  assert (Hlong : (len ("Unexpected token: " ++ tokenKind2Str (Kind t))
                   <? len "Jade Error") = false).
  { apply Z.ltb_ge. rewrite len_app. unfold len.
    pose proof (Nat2Z.is_nonneg (String.length (tokenKind2Str (Kind t)))).
    simpl String.length at 1 2. lia. }
  rewrite Hlong.
  change (HasPrefix ("Unexpected token: " ++ tokenKind2Str (Kind t))
            "Jade Error") with false. cbv iota.
  cbv [bind pos the_parser gets ret fst snd Filename panic].
  change (p_filename _ _ (set_currenttoken _ _ (Some t)
                            (set_scanner _ _ sc' p)))
    with (p_filename _ _ p).
  change (p_scanner _ _ (set_currenttoken _ _ (Some t)
                           (set_scanner _ _ sc' p)))
    with sc'.
  destruct (0 <? len (p_filename _ _ p)); reflexivity.
Qed.

End InheritanceFacts.

(** *** The further properties on sample input *)

Example escape_of_a_quoted_path :
  escape ("say " ++ dq ++ "c:\temp" ++ dq)
  = "say \" ++ dq ++ "c:\\temp\" ++ dq.
Proof. vm_compute. reflexivity. Qed.



Lemma plain_text_is_written_verbatim_witness :
  Cases.visitText ("one" ++ nl ++ "two") (set_indentLevel 1 New)
  = Ok tt (set_buffer ("one" ++ nl ++ tab ++ "two") (set_indentLevel 1 New)).
Proof.
  destruct (plain_text_is_written_verbatim Sample.FuncMap Sample.ParseExpr
              ("one" ++ nl ++ "two") (set_indentLevel 1 New) eq_refl)
    as [Hrun _].
  unfold Cases.visitText. rewrite Hrun. vm_compute. reflexivity.
Defined.

Lemma binary_operator_lowering_witness :
  exec Sample.FuncMap (BinaryExpr (Ident "a") ADD (Ident "b")) (New, [])
  = Ok tt (bound "{{$__jade_1 := __jade_add .a .b}}" New, ["$__jade_1"])
  /\ exec Sample.FuncMap (BinaryExpr (Ident "a") OR (Ident "b")) (New, [])
     = Ok tt (bound "{{$__jade_1 := .a | .b}}" New, ["$__jade_1"]).
Proof.
  destruct (binary_operator_lowering Sample.FuncMap (Ident "a") (Ident "b")
              ADD New New New [] [".b"] [".a"; ".b"])
    as (x & y & Hstk & Hplain & _); [vm_compute; reflexivity..|].
  destruct (binary_operator_lowering Sample.FuncMap (Ident "a") (Ident "b")
              OR New New New [] [".b"] [".a"; ".b"])
    as (x' & y' & Hstk' & _ & Hpipe); [vm_compute; reflexivity..|].
  injection Hstk as <- <-. injection Hstk' as <- <-. split.
  - rewrite (Hplain _ eq_refl). vm_compute. reflexivity.
  - rewrite (Hpipe eq_refl). vm_compute. reflexivity.
Defined.

Lemma unsupported_operator_panics_witness :
  exec Sample.FuncMap (BinaryExpr (Ident "a") XOR (Ident "b")) (New, [])
  = Panic (PanicStr "Unexpected operator: '^'")
      (bound "{{$__jade_1 := " New, [".a"; ".b"])
  /\ exec Sample.FuncMap (UnaryExpr XOR (Ident "a")) (New, [])
     = Panic (PanicStr "Unexpected operator: '^'")
         (bound "{{$__jade_1 := " New, [".a"]).
Proof.
  split.
  - destruct (unsupported_operator_panics Sample.FuncMap (Ident "a") XOR
                New New [".b"] [".a"; ".b"]) as [Hbin _];
      [vm_compute; reflexivity|].
    rewrite (Hbin (Ident "b") New []); try reflexivity; try discriminate.
  - destruct (unsupported_operator_panics Sample.FuncMap (Ident "a") XOR
                New New [] [".a"]) as [_ Hun];
      [vm_compute; reflexivity|].
    rewrite (Hun eq_refl). reflexivity.
Defined.

Lemma unary_operator_lowering_witness :
  exec Sample.FuncMap (UnaryExpr NOT (Ident "done")) (New, [])
  = Ok tt (bound "{{$__jade_1 := not .done}}" New, ["$__jade_1"]).
Proof.
  destruct (unary_operator_lowering Sample.FuncMap (Ident "done") NOT "not "
              New New [] [".done"]) as (x & Hstk & Hrun);
    [reflexivity|vm_compute; reflexivity|].
  injection Hstk as <-. rewrite Hrun. vm_compute. reflexivity.
Defined.

Lemma selector_lowering_witness :
  exec Sample.FuncMap (SelectorExpr (Ident "__DOLLAR__") "Name") (New, [])
  = Ok tt (bound "{{$__jade_1 := .Name}}" New, ["$__jade_1"])
  /\ exec Sample.FuncMap (SelectorExpr (Ident "user") "Name") (New, [])
     = Ok tt (bound "{{$__jade_1 := .user.Name}}" New, ["$__jade_1"]).
Proof.
  split.
  - destruct (selector_lowering Sample.FuncMap (Ident "__DOLLAR__") "Name"
                New New [] ["."]) as (x & Hstk & Hrun);
      [vm_compute; reflexivity|].
    injection Hstk as <-. rewrite Hrun. vm_compute. reflexivity.
  - destruct (selector_lowering Sample.FuncMap (Ident "user") "Name"
                New New [] [".user"]) as (x & Hstk & Hrun);
      [vm_compute; reflexivity|].
    injection Hstk as <-. rewrite Hrun. vm_compute. reflexivity.
Defined.

Example visitExpression_of_a_sum :
  Sample.visitExpression (BinaryExpr (Ident "a") ADD (BasicLit "1")) New
  = Ok "$__jade_1" (bound "{{$__jade_1 := __jade_add .a 1}}" New).
Proof. vm_compute. reflexivity. Qed.


Lemma method_call_lowering_witness :
  exec Sample.FuncMap
    (CallExpr (SelectorExpr (Ident "user") "Greet") [BasicLit "1"]) (New, [])
  = Ok tt (bound "{{$__jade_1 := .user.Greet  1}}" New, ["$__jade_1"]).
Proof.
  destruct (method_call_lowering Sample.FuncMap (Ident "user") "Greet"
              [BasicLit "1"] New New (set_tempvarIndex 1 New)
              [] ["1"] [".user"; "1"]) as (vs & x & Hstk & _ & Hx & Hrun);
    [vm_compute; reflexivity..|].
  rewrite app_nil_r in Hstk. subst vs. injection Hx as <-.
  rewrite Hrun. vm_compute. reflexivity.
Defined.

Lemma unparsable_expression_panics_witness :
  Sample.visitRawInterpolation "$a +" New
  = Panic (PanicStr "Unable to parse expression: __DOLLAR__a +") New
  /\ Sample.visitRawInterpolation EmptyString New
     = Panic (index_out_of_range 0 0) New.
Proof.
  split.
  - destruct (unparsable_expression_panics Sample.FuncMap Sample.ParseExpr
                "$a +" New) as [_ Hmsg]; [vm_compute; reflexivity|].
    unfold Sample.visitRawInterpolation. rewrite Hmsg.
    + vm_compute. reflexivity.
    + discriminate.
    + left. vm_compute. reflexivity.
  - destruct (unparsable_expression_panics Sample.FuncMap Sample.ParseExpr
                EmptyString New) as [Hempty _]; [vm_compute; reflexivity|].
    apply Hempty. reflexivity.
Defined.

Lemma single_quoted_string_is_retried_witness :
  Sample.visitRawInterpolation "'hello'" New
  = Ok (dq ++ "hello" ++ dq) New.
Proof.
  unfold Sample.visitRawInterpolation.
  rewrite (single_quoted_string_is_retried Sample.FuncMap Sample.ParseExpr
             "'hello'" "hello" New);
    vm_compute; reflexivity.
Defined.

Lemma mixin_call_arity_witness :
  Cases.visitMixinCall (Sample.visit 5 empty) "m" (["1"] ++ ["2"])%list
    Cases.with_mixin
  = Cases.visitMixinCall (Sample.visit 5 empty) "m" ["1"] Cases.with_mixin
  /\ Cases.visitMixinCall (Sample.visit 5 empty) "m" [] Cases.with_mixin
     = Panic (index_out_of_range 0 0) Cases.with_mixin.
Proof.
  destruct (mixin_call_arity Sample.CanInline Sample.FuncMap Sample.ParseExpr
              (Sample.visit 5 empty) "m"
              (mkMixin noPos "m" ["$a"] (Some newBlock)) ["1"]
              Cases.with_mixin eq_refl) as [Hextra _].
  destruct (mixin_call_arity Sample.CanInline Sample.FuncMap Sample.ParseExpr
              (Sample.visit 5 empty) "m"
              (mkMixin noPos "m" ["$a"] (Some newBlock)) []
              Cases.with_mixin eq_refl) as [_ Hshort].
  split.
  - apply Hextra. reflexivity.
  - apply (Hshort [] [] "$a"); reflexivity.
Defined.

Example nested_error_keeps_its_position :
  exists c,
    Sample.visit 5 empty
      (NTag (mkTag (mkPos 1 1 3 EmptyString) "div" []
               (Some (mkBlock noPos
                        [NMixinCall (mkPos 2 3 4 EmptyString) "a" []]))))
      (Sample.compact Sample.unknown_mixin)
    = Panic (PanicStr
               ("Jade Error: runtime error: invalid memory address or nil "
                ++ "pointer dereference - Line: 2, Column: 3, Length: 4")) c.
Proof. eexists. vm_compute. reflexivity. Qed.

Lemma missing_definition_or_body_fails_witness :
  Sample.visit 1 empty (NMixinCall noPos "a" []) New
  = Panic (PanicStr (jade_error noPos nil_deref)) New
  /\ Sample.visit 1 empty (NCondition noPos "ok" None None) New
     = Panic (PanicStr (jade_error noPos nil_deref))
         (set_buffer "{{if .ok}}" New).
Proof.
  destruct (missing_definition_or_body_fails Sample.CanInline
              Sample.IsSelfClosing Sample.Doctype_String Sample.FuncMap
              Sample.ParseExpr 0 empty noPos New) as [Hmixin Hcond].
  split.
  - apply Hmixin. reflexivity.
  - apply (Hcond "ok" ".ok" None New). vm_compute. reflexivity.
Defined.

Lemma static_tag_rendering_witness :
  Sample.visitTag (Sample.visit 0 empty) Cases.div_a_b
    (Sample.compact (NTag Cases.div_a_b))
  = Ok tt
      (set_buffer
         ("<div class=" ++ dq ++ "a" ++ dq ++ " id=" ++ dq ++ "b" ++ dq
          ++ "></div>") (Sample.compact (NTag Cases.div_a_b))).
Proof.
  unfold Sample.visitTag.
  rewrite (static_tag_rendering Sample.CanInline Sample.IsSelfClosing
             Sample.FuncMap Sample.ParseExpr (Sample.visit 0 empty)
             Cases.div_a_b (Sample.compact (NTag Cases.div_a_b)) eq_refl
             (or_intror eq_refl)).
  vm_compute. reflexivity.
Defined.

Lemma compiled_text_ends_with_newline_witness :
  exists (s : string) (c' : Compiler),
    Sample.CompileString 10 empty (Sample.compact Sample.wrap_container)
    = Ok (s, None) c'
    /\ (s = EmptyString \/ exists body, s = body ++ nl)
    /\ buffer c' = EmptyString.
Proof.
  eexists _, _. split; [vm_compute; reflexivity|].
  edestruct (compiled_text_ends_with_newline Sample.CanInline
               Sample.IsSelfClosing Sample.Doctype_String Sample.FuncMap
               Sample.ParseExpr 10 empty
               (Sample.compact Sample.wrap_container)) as (Hend & Hbuf & _).
  - vm_compute. reflexivity.
  - split; [exact Hend|exact Hbuf].
Defined.

Lemma visit_appends_only_witness :
  exists c' : Compiler,
    Sample.visit 10 empty Cases.nested (set_buffer "<!DOCTYPE html>" New)
    = Ok tt c'
    /\ exists out : string, buffer c' = "<!DOCTYPE html>" ++ out.
Proof.
  eexists. split; [vm_compute; reflexivity|].
  edestruct (visit_appends_only Sample.CanInline Sample.IsSelfClosing
               Sample.Doctype_String Sample.FuncMap Sample.ParseExpr
               10 empty Cases.nested (set_buffer "<!DOCTYPE html>" New))
    as (Hout & _).
  - vm_compute. reflexivity.
  - exact Hout.
Defined.

Lemma visit_restores_indentation_witness :
  exists c' : Compiler,
    Sample.visit 10 empty Cases.nested New = Ok tt c'
    /\ buffer c' = "<ul>" ++ nl ++ tab ++ "<li>item</li>" ++ nl ++ "</ul>"
    /\ indentLevel c' = 0.
Proof.
  eexists. split; [vm_compute; reflexivity|]. split; [reflexivity|].
  apply (visit_restores_indentation Sample.CanInline Sample.IsSelfClosing
           Sample.Doctype_String Sample.FuncMap Sample.ParseExpr
           10 empty Cases.nested New).
  - vm_compute. split; [discriminate|reflexivity].
  - vm_compute. reflexivity.
Defined.

(** The sample scanner, a list of tokens, never panics. *)
Lemma Sample_scanner_never_panics (sc : Sample.scanner) (p : panicval)
  (sc' : Sample.scanner) :
  Sample.scanner_Next sc = Panic p sc' -> sliceable p.
Proof. destruct sc; discriminate. Qed.

Lemma Parse_panics_are_jade_errors_witness :
  exists (msg : string) (s' : Parser Sample.scanner Sample.FileSystem * Heap),
    Sample.Parse 5
      (Cases.on_tokens [Sample.tok tokExtends "layout"], empty)
    = Panic (PanicStr msg) s'
    /\ HasPrefix msg "Jade Error" = true.
Proof.
  eexists _, _. split; [vm_compute; reflexivity|].
  edestruct (Parse_panics_are_jade_errors (fun d : list token => d)
               Sample.scanner_Next Sample.scanner_Pos (fun s => s)
               Sample.fs_ReadFile "/"%char (fun a => Ascii.eqb a "/"%char)
               Sample.filepath_Dir Sample.filepath_Base Sample.filepath_Join
               Sample.IsRawText Sample.arguments Sample.arguments EmptyString
               Sample_scanner_never_panics 5
               (Cases.on_tokens [Sample.tok tokExtends "layout"], empty))
    as (msg & Hp & Hm).
  - vm_compute. reflexivity.
  - injection Hp as <-. exact Hm.
Defined.



Lemma Parse_returns_the_parent_result_witness :
  exists (r : option Block)
         (s' : Parser Sample.scanner Sample.FileSystem * Heap)
         (q : Parser Sample.scanner Sample.FileSystem),
    Sample.Parse 40 (Sample.child_parser "append", empty) = Ok r s'
    /\ parent _ _ (fst s') = Some q
    /\ r = result _ _ q
    /\ is_Some (result _ _ q)
    /\ result _ _ (fst s') = r.
Proof.
  pose proof (@Parse_returns_the_parent_result Sample.scanner (list token)
                Sample.FileSystem (fun d => d)
                Sample.scanner_Next Sample.scanner_Pos (fun s => s)
                Sample.fs_ReadFile "/"%char (fun a => Ascii.eqb a "/"%char)
                Sample.filepath_Dir Sample.filepath_Base Sample.filepath_Join
                Sample.IsRawText Sample.arguments Sample.arguments EmptyString
                40 (Sample.child_parser "append", empty)) as H.
  unfold Sample.Parse.
  match type of H with
  | forall s' r q, _ -> ?run = _ -> _ =>
      assert (R : match run with
                  | Ok _ s' => match parent _ _ (fst s') with
                               | Some _ => true
                               | None => false
                               end
                  | _ => false
                  end = true) by (vm_compute; reflexivity);
      destruct run as [r s'|p s'|]; [|discriminate R|discriminate R]
  end.
  match type of R with
  | context [parent ?a ?b ?c] =>
      destruct (parent a b c) as [q|] eqn:Q; [|discriminate R]
  end.
  exists r, s', q. split; [reflexivity|]. split; [exact Q|].
  exact (H s' r q eq_refl eq_refl Q).
Defined.

Lemma named_block_registration_witness :
  (exists s1 : Parser Sample.scanner Sample.FileSystem * Heap,
     Cases.parseNamedBlock (Sample.knot 5) Cases.at_second_X
     = Panic (PanicStr
                ("Multiple definitions of named blocks are not permitted. "
                 ++ "Block X has been re defined.")) s1)
  /\ exists (s' : Parser Sample.scanner Sample.FileSystem * Heap) (l : loc)
            (nb : NamedBlock),
       Cases.parseNamedBlock (Sample.knot 5) Cases.at_first_X
       = Ok (NBlock newBlock) s'
       /\ namedBlocks _ _ (fst s') !! "X" = Some l
       /\ snd s' !! l = Some nb
       /\ nb_Name nb = "X"
       /\ nb_Modifier nb = NamedBlockAppend.
Proof.
  split.
  - eexists.
    edestruct (named_block_registration Sample.scanner_Next
                 Sample.scanner_Pos (Sample.knot 5) Cases.at_second_X)
      as [Hdup _]; [vm_compute; reflexivity|].
    unfold Cases.parseNamedBlock. rewrite (Hdup 2%positive eq_refl).
    vm_compute. reflexivity.
  - eexists. 
    edestruct (named_block_registration Sample.scanner_Next
                 Sample.scanner_Pos (Sample.knot 5) Cases.at_first_X)
      as [_ Hnew]; [vm_compute; reflexivity|].
    edestruct Hnew as (l & nb & Hl & Hnb & Hname & Hmod & Hn).
    { vm_compute. reflexivity. }
    exists l, nb. split; [vm_compute; reflexivity|].
    split; [exact Hl|]. split; [exact Hnb|]. split; [exact Hname|exact Hmod].
Defined.


Lemma path_separator_round_trip_witness :
  FromOsSeparator "/"%char "\"%char
    (ToOsSeparator "/"%char "\"%char "views\page.jade")
  = "views\page.jade"
  /\ ToOsSeparator "/"%char "\"%char "views\page.jade" = "views/page.jade"
  /\ Convert "/"%char (fun a => Ascii.eqb a "/"%char) "\"%char
       "views\page.jade" (fun p => p) Cases.at_import
     = Ok "views\page.jade" Cases.at_import.
Proof.
  destruct (path_separator_round_trip "/"%char
              (fun a => Ascii.eqb a "/"%char) "\"%char "views\page.jade"
              Cases.at_import eq_refl) as (Hround & Hconv & _).
  split; [exact Hround|]. split; [reflexivity|]. apply Hconv. reflexivity.
Defined.

Lemma import_keeps_the_table_witness :
  exists (b : Block) (s' : Parser Sample.scanner Sample.FileSystem * Heap)
         (nb : NamedBlock),
    Cases.parseImport (Sample.knot 9) Cases.at_import = Ok (NBlock b) s'
    /\ snd s' !! 1%positive = Some nb /\ nb_Name nb = "X"
    /\ namedBlocks _ _ (fst s') = empty.
Proof.
  pose proof (@import_keeps_the_table Sample.scanner (list token)
                Sample.FileSystem (fun d => d)
                Sample.scanner_Next Sample.scanner_Pos (fun s => s)
                Sample.fs_ReadFile "/"%char (fun a => Ascii.eqb a "/"%char)
                Sample.filepath_Dir Sample.filepath_Base Sample.filepath_Join
                Sample.IsRawText Sample.arguments Sample.arguments EmptyString
                8 Cases.at_import) as H.
  unfold Cases.parseImport, Sample.knot.
  match type of H with
  | forall s' n, ?run = _ -> _ =>
      assert (R : match run with
                  | Ok _ s' => match snd s' !! 1%positive with
                               | Some nb => String.eqb (nb_Name nb) "X"
                               | None => false
                               end
                  | _ => false
                  end = true) by (vm_compute; reflexivity);
      destruct run as [n s'|p s'|]; [|discriminate R|discriminate R]
  end.
  destruct (H s' n eq_refl) as (Hn & _ & _ & b & ->).
  match type of R with
  | context [snd s' !! ?l] =>
      destruct (snd s' !! l) as [nb|] eqn:L; [|discriminate R]
  end.
  exists b, s', nb. split; [reflexivity|]. split; [exact L|].
  split; [apply String.eqb_eq; exact R|exact Hn].
Defined.

Lemma stray_token_is_reported_witness :
  Sample.Parse 1 (Cases.on_tokens Cases.stray, empty)
  = Panic (PanicStr
             ("Jade Error: Unexpected token: tokElse - Line: 1, Column: 1, "
              ++ "Length: 0" ++ nl))
      (set_currenttoken _ _ (Some (Sample.tok tokElse EmptyString))
         (Cases.on_tokens []), empty).
Proof.
  unfold Sample.Parse.
  etransitivity;
    [apply (stray_token_is_reported (fun d : list token => d)
              Sample.scanner_Next Sample.scanner_Pos (fun s => s)
              Sample.fs_ReadFile "/"%char (fun a => Ascii.eqb a "/"%char)
              Sample.filepath_Dir Sample.filepath_Base Sample.filepath_Join
              Sample.IsRawText Sample.arguments Sample.arguments EmptyString
              0 (Cases.on_tokens Cases.stray) empty
              (Sample.tok tokElse EmptyString) []); vm_compute; reflexivity
    |vm_compute; reflexivity].
Defined.
